(** * YuniKorn scheduler core: a shallow embedding and its properties

  The development follows the Go packages of the scheduler core:
  - [resources]: the multi-dimensional resource algebra,
  - [objects]: the application state machine built on the fsm library,
  - [scheduler]: the scheduling node and the partition context,
  - [maps]: the sortable linked map, with the invariant that ties its
    pointers to the sequence of entries they represent,
  - [defaults]: the application filters of the sort policies and the sort
    of the requests,
  - [common]: partition name normalisation,
  - [configs]: the configuration loader and its checksum.

  Definitions come first, one module per package; the properties follow. *)

From Stdlib Require Import ZArith List String Ascii Bool Lia Sorted.
From Stdlib Require Import Init.Byte.
From stdpp Require Import base option list gmap strings fin_maps.

Local Open Scope Z_scope.

(* ===================================================================== *)
(** ** Package resources *)
(* ===================================================================== *)

(** Modelled from the spec: package [resources] is not part of the sources
    at hand.  A resource maps a resource-type name to an integer quantity
    (the spec gives the quantities no width, so none is modelled); a type
    missing from an operand counts as 0 for arithmetic. *)
Abbreviation Resource := (gmap string Z).

Module resources.

(** Modelled from the spec: the resource without any type, which is zero. *)
Definition NewResource : Resource := ∅.

(** Modelled from the spec: the quantity of a type, 0 when the type is
    missing. *)
Definition quantity (r : Resource) (t : string) : Z := default 0 (r !! t).

(** Modelled from the spec: component-wise addition. *)
Definition Add (l r : Resource) : Resource :=
  union_with (fun a b => Some (a + b)) l r.

(** Modelled from the spec: component-wise subtraction; every type of
    either operand is present in the result. *)
Definition Sub (l r : Resource) : Resource :=
  merge (fun a b =>
           match a, b with
           | None, None => None
           | _, _ => Some (default 0 a - default 0 b)
           end) l r.

(** Modelled from the spec: [AddTo] and [SubFrom] are the in-place forms of
    [Add] and [Sub]; the receiver is replaced by the returned value. *)
Definition AddTo (receiver r : Resource) : Resource := Add receiver r.
Definition SubFrom (receiver r : Resource) : Resource := Sub receiver r.

(** Modelled from the spec: every quantity times [ratio]. *)
Definition Multiply (r : Resource) (ratio : Z) : Resource :=
  (fun v => v * ratio) <$> r.

(** Modelled from the spec: [SubErrorNegative] subtracts, fails with
    negative-result when a component would go negative, and hands back the
    difference with every such component clamped at zero. *)
Definition SubErrorNegative (l r : Resource) : Resource * bool :=
  let d := Sub l r in
  (Z.max 0 <$> d, bool_decide (map_Exists (fun _ v => v < 0) d)).

(** Modelled from the spec: [FitIn a b] iff for every type present in [b],
    [a] holds at least as much (a type absent from [a] counts as 0). *)
Definition FitIn (larger smaller : Resource) : bool :=
  bool_decide (map_Forall (fun t v => v <= quantity larger t) smaller).

(** Modelled from the spec: the zero predicate, no type with a quantity
    other than 0. *)
Definition IsZero (r : Resource) : bool :=
  bool_decide (map_Forall (fun _ v => v = 0) r).

(** Modelled from the spec: at least one type is positive and none is
    negative. *)
Definition StrictlyGreaterThanZero (r : Resource) : bool :=
  bool_decide (map_Forall (fun _ v => 0 <= v) r)
  && bool_decide (map_Exists (fun _ v => 0 < v) r).

End resources.

(* ===================================================================== *)
(** ** Package scheduler: the scheduling node *)
(* ===================================================================== *)

Module cache.

(** Modelled from the spec: the cache node [cache.NodeInfo] is not part of
    the sources at hand.  It is kept as its ID, its schedulable flag, its
    total capacity and the available resource it reports (capacity less
    occupied and confirmed allocations).  Its getters hand out copies. *)
Record NodeInfo := mkNodeInfo {
  NodeID : string;
  schedulable : bool;
  totalResource : Resource;
  availableResource : Resource
}.

(** Modelled from the spec: the schedulable flag of the node. *)
Definition IsSchedulable (ni : NodeInfo) : bool := schedulable ni.

(** Modelled from the spec: a copy of the available resource, which the
    caller may change without changing the cache node. *)
Definition GetAvailableResource (ni : NodeInfo) : Resource := availableResource ni.

(** Modelled from the spec: a reserved node must have capacity at least the
    reserved ask resource. *)
Definition FitInNode (ni : NodeInfo) (resRequest : Resource) : bool :=
  resources.FitIn (totalResource ni) resRequest.

End cache.

Module scheduler.

(** Errors are kept as tags; the formatted message texts are not modelled. *)
Inductive error :=
| ErrNodeAlreadyReserved (nodeID : string)
| ErrReservationNil (nodeID : string)
| ErrReservationDoesNotFit (nodeID appID : string)
| ErrReservationKeyNil (nodeID : string)
| ErrApplicationRemoved (appID : string)
| ErrNodeRemoved (appID nodeID : string)
| ErrAskRemoved (appID allocKey : string).

(** Modelled from the spec: an ask has an allocation key, the ID of its
    application, the required resource and a pending repeat count. *)
Record schedulingAllocationAsk := mkAsk {
  AllocationKey : string;
  askApplicationID : string;
  AllocatedResource : Resource;
  pendingRepeatAsk : Z
}.

(** Modelled from the spec: the queue keeps its in-flight [allocating]
    resource and a parent reference; the root has no parent. *)
#[warnings="-register-all"]
Inductive SchedulingQueue := mkQueue {
  QueueName : string;
  queueAllocating : Resource;
  queuePending : Resource;
  parent : option SchedulingQueue
}.

(** Modelled from the spec: the application with its ID, the in-flight
    [allocating] resource, the pending resource, the ask ledger keyed by
    allocation key and the queue it runs in.  The queue is held by value:
    an application carries its own view of its queue and of the ancestors
    of the queue, where the code shares one queue object between the
    applications of the queue.  The two agree on what one call does to one
    application, which is what is proved below of [confirmAllocation]; they
    differ on what a later call for another application of the same queue
    sees. *)
Record SchedulingApplication := mkApp {
  ApplicationID : string;
  appAllocating : Resource;
  appPending : Resource;
  requests : gmap string schedulingAllocationAsk;
  queue : SchedulingQueue
}.

(** Modelled from the spec: a reservation is the triple (application, ask,
    node) with the canonical key appID|askKey[|nodeID]; the node part is
    left out when no node is given. *)
Record reservation := mkReservation {
  resNodeID : option string;
  resAppID : string;
  resAskKey : string
}.

(** Modelled from the spec: the key of the reservation an application and
    an ask make, empty when either is nil. *)
Definition reservationKey (node : option string)
    (app : option SchedulingApplication)
    (ask : option schedulingAllocationAsk) : string :=
  match app, ask with
  | Some a, Some k =>
      match node with
      | None => ApplicationID a +:+ "|" +:+ AllocationKey k
      | Some n => ApplicationID a +:+ "|" +:+ AllocationKey k +:+ "|" +:+ n
      end
  | _, _ => ""
  end.

(** Modelled from the spec: the reservation of an application and an ask,
    nil when either is nil. *)
Definition newReservation (node : option string)
    (app : option SchedulingApplication)
    (ask : option schedulingAllocationAsk) : option reservation :=
  match app, ask with
  | Some a, Some k => Some (mkReservation node (ApplicationID a) (AllocationKey k))
  | _, _ => None
  end.

(** Modelled from the spec: the canonical key of a reservation. *)
Definition getKey (r : reservation) : string :=
  match resNodeID r with
  | None => resAppID r +:+ "|" +:+ resAskKey r
  | Some n => resAppID r +:+ "|" +:+ resAskKey r +:+ "|" +:+ n
  end.

Record schedulingNode := mkNode {
  NodeID : string;
  nodeInfo : cache.NodeInfo;
  allocating : Resource;
  preempting : Resource;
  cachedAvailable : option Resource;
  cachedAvailableUpdateNeeded : bool;
  reservations : gmap string reservation
}.

(** The constructor for a cache node that is not nil. *)
Definition newSchedulingNode (info : cache.NodeInfo) : schedulingNode :=
  {| NodeID := cache.NodeID info;
     nodeInfo := info;
     allocating := resources.NewResource;
     preempting := resources.NewResource;
     cachedAvailable := None;
     cachedAvailableUpdateNeeded := true;
     reservations := ∅ |}.

(** Field updates of the node, one per assignment in the source. *)
Definition set_allocating (v : Resource) (sn : schedulingNode) : schedulingNode :=
  mkNode (NodeID sn) (nodeInfo sn) v (preempting sn) (cachedAvailable sn)
         (cachedAvailableUpdateNeeded sn) (reservations sn).
Definition set_preempting (v : Resource) (sn : schedulingNode) : schedulingNode :=
  mkNode (NodeID sn) (nodeInfo sn) (allocating sn) v (cachedAvailable sn)
         (cachedAvailableUpdateNeeded sn) (reservations sn).
Definition set_cachedAvailable (v : option Resource) (sn : schedulingNode) : schedulingNode :=
  mkNode (NodeID sn) (nodeInfo sn) (allocating sn) (preempting sn) v
         (cachedAvailableUpdateNeeded sn) (reservations sn).
Definition set_cachedAvailableUpdateNeeded (v : bool) (sn : schedulingNode) : schedulingNode :=
  mkNode (NodeID sn) (nodeInfo sn) (allocating sn) (preempting sn) (cachedAvailable sn)
         v (reservations sn).
Definition set_reservations (v : gmap string reservation) (sn : schedulingNode) : schedulingNode :=
  mkNode (NodeID sn) (nodeInfo sn) (allocating sn) (preempting sn) (cachedAvailable sn)
         (cachedAvailableUpdateNeeded sn) v.

(** Methods of the node take the node and return their result with the
    node as they leave it. *)
Definition getAllocatingResource (sn : schedulingNode) : Resource := allocating sn.
Definition getPreemptingResource (sn : schedulingNode) : Resource := preempting sn.

Definition getAvailableResource (sn : schedulingNode) : Resource * schedulingNode :=
  if cachedAvailableUpdateNeeded sn then
    let avail := cache.GetAvailableResource (nodeInfo sn) in
    let avail := resources.SubFrom avail (allocating sn) in
    (avail, set_cachedAvailableUpdateNeeded false (set_cachedAvailable (Some avail) sn))
  else (default resources.NewResource (cachedAvailable sn), sn).

Definition incAllocatingResource (delta : Resource) (sn : schedulingNode) : schedulingNode :=
  let sn := set_cachedAvailableUpdateNeeded true sn in
  set_allocating (resources.AddTo (allocating sn) delta) sn.

Definition decAllocatingResource (delta : Resource) (sn : schedulingNode) : schedulingNode :=
  let sn := set_cachedAvailableUpdateNeeded true sn in
  let '(res, _) := resources.SubErrorNegative (allocating sn) delta in
  set_allocating res sn.

Definition allocateResource (res : Resource) (preemptionPhase : bool)
    (sn : schedulingNode) : bool * schedulingNode :=
  let available := cache.GetAvailableResource (nodeInfo sn) in
  let newAllocating := resources.Add res (allocating sn) in
  let available :=
    if preemptionPhase then resources.AddTo available (preempting sn) else available in
  if resources.FitIn available newAllocating then
    (true, set_allocating newAllocating (set_cachedAvailableUpdateNeeded true sn))
  else (false, sn).

Definition preAllocateCheck (res : Resource) (preemptionPhase : bool)
    (sn : schedulingNode) : bool * schedulingNode :=
  if negb (cache.IsSchedulable (nodeInfo sn)) then (false, sn)
  else if negb (resources.StrictlyGreaterThanZero res) then (false, sn)
  else
    let available := cache.GetAvailableResource (nodeInfo sn) in
    let available :=
      if preemptionPhase then resources.AddTo available (preempting sn) else available in
    let newAllocating := resources.Add res (getAllocatingResource sn) in
    if negb (resources.FitIn available newAllocating) then (false, sn)
    else (true, sn).

Definition isReserved (sn : schedulingNode) : bool :=
  bool_decide (0 < size (reservations sn))%nat.

Definition isReservedForApp (appID : string) (sn : schedulingNode) : bool :=
  if String.eqb appID "" then false
  else existsb (fun kv => String.prefix appID (fst kv)) (map_to_list (reservations sn)).

Definition reserve (app : option SchedulingApplication)
    (ask : option schedulingAllocationAsk)
    (sn : schedulingNode) : (bool * option error) * schedulingNode :=
  if bool_decide (0 < size (reservations sn))%nat then
    ((false, Some (ErrNodeAlreadyReserved (NodeID sn))), sn)
  else
    match newReservation None app ask, app, ask with
    | Some appReservation, Some a, Some k =>
        if negb (cache.FitInNode (nodeInfo sn) (AllocatedResource k)) then
          ((false, Some (ErrReservationDoesNotFit (NodeID sn) (ApplicationID a))), sn)
        else
          ((true, None),
           set_reservations (<[getKey appReservation := appReservation]> (reservations sn)) sn)
    | _, _, _ => ((false, Some (ErrReservationNil (NodeID sn))), sn)
    end.

Definition unReserve (app : option SchedulingApplication)
    (ask : option schedulingAllocationAsk)
    (sn : schedulingNode) : (bool * option error) * schedulingNode :=
  let resKey := reservationKey None app ask in
  if String.eqb resKey "" then ((false, Some (ErrReservationKeyNil (NodeID sn))), sn)
  else
    match reservations sn !! resKey with
    | Some _ => ((true, None), set_reservations (delete resKey (reservations sn)) sn)
    | None => ((false, None), sn)
    end.

(** *** The partition context *)

(** Modelled from the spec: the application and the queue decrement their
    [allocating] resource the way the node does, through
    [SubErrorNegative]; a negative result is logged and clamped at zero. *)
Definition app_decAllocatingResource (delta : Resource)
    (sa : SchedulingApplication) : SchedulingApplication :=
  let '(res, _) := resources.SubErrorNegative (appAllocating sa) delta in
  mkApp (ApplicationID sa) res (appPending sa) (requests sa) (queue sa).

(** Modelled from the spec: the queue's decrement of [allocating],
    recursive to the root. *)
Fixpoint queue_decAllocatingResource (delta : Resource)
    (sq : SchedulingQueue) : SchedulingQueue :=
  let newParent :=
    match parent sq with
    | Some p => Some (queue_decAllocatingResource delta p)
    | None => None
    end in
  let '(res, _) := resources.SubErrorNegative (queueAllocating sq) delta in
  mkQueue (QueueName sq) res (queuePending sq) newParent.

(** Modelled from the spec: the pending totals are kept up the tree. *)
Fixpoint queue_incPendingResource (delta : Resource)
    (sq : SchedulingQueue) : SchedulingQueue :=
  let newParent :=
    match parent sq with
    | Some p => Some (queue_incPendingResource delta p)
    | None => None
    end in
  mkQueue (QueueName sq) (queueAllocating sq) (resources.Add (queuePending sq) delta) newParent.

(** Modelled from the spec: [updateAskRepeat] adjusts the pending repeat of
    the ask with the key given by [delta], and the pending resource of the
    application and of its queues by the resource of the ask times [delta],
    which keeps pending equal to the sum over the asks of resource times
    pending repeat.  For a key without ask it changes nothing: the caller
    calls it a noop when the ask was removed in the mean time. *)
Definition updateAskRepeat (allocKey : string) (delta : Z)
    (sa : SchedulingApplication) : option error * SchedulingApplication :=
  match requests sa !! allocKey with
  | Some ask =>
      let ask' :=
        mkAsk (AllocationKey ask) (askApplicationID ask) (AllocatedResource ask)
              (pendingRepeatAsk ask + delta) in
      let deltaPendingResource := resources.Multiply (AllocatedResource ask) delta in
      (None,
       mkApp (ApplicationID sa) (appAllocating sa)
             (resources.Add (appPending sa) deltaPendingResource)
             (<[allocKey := ask']> (requests sa))
             (queue_incPendingResource deltaPendingResource (queue sa)))
  | None => (None, sa)
  end.

(** Modelled from the spec: the ask of the ledger under the key, nil when
    there is none. *)
Definition GetSchedulingAllocationAsk (allocKey : string)
    (sa : SchedulingApplication) : option schedulingAllocationAsk :=
  requests sa !! allocKey.

(** Modelled from the spec: the proposal the cache confirms or rejects
    names the node, the application and the ask and carries the allocated
    resource. *)
Record AllocationProposal := mkProposal {
  propNodeID : string;
  propApplicationID : string;
  propAllocationKey : string;
  propAllocatedResource : Resource
}.

(** The partition context with the maps [confirmAllocation] works on; the
    root queue, the placement manager and the link to the cache partition
    are left out. *)
Record partitionSchedulingContext := mkPartition {
  RmID : string;
  Name : string;
  applications : gmap string SchedulingApplication;
  reservedApps : gmap string Z;
  nodes : gmap string schedulingNode
}.

Definition set_application (appID : string) (sa : SchedulingApplication)
    (psc : partitionSchedulingContext) : partitionSchedulingContext :=
  mkPartition (RmID psc) (Name psc) (<[appID := sa]> (applications psc))
              (reservedApps psc) (nodes psc).

Definition set_node (nodeID : string) (sn : schedulingNode)
    (psc : partitionSchedulingContext) : partitionSchedulingContext :=
  mkPartition (RmID psc) (Name psc) (applications psc) (reservedApps psc)
              (<[nodeID := sn]> (nodes psc)).

Definition set_queue (sq : SchedulingQueue) (sa : SchedulingApplication)
    : SchedulingApplication :=
  mkApp (ApplicationID sa) (appAllocating sa) (appPending sa) (requests sa) sq.

(** The application and the node are objects the maps point to: what the
    calls change of them is written back under their IDs. *)
Definition confirmAllocation (allocProposal : AllocationProposal) (confirm : bool)
    (psc : partitionSchedulingContext) : option error * partitionSchedulingContext :=
  let appID := propApplicationID allocProposal in
  match applications psc !! appID with
  | None => (Some (ErrApplicationRemoved appID), psc)
  | Some app =>
      let nodeID := propNodeID allocProposal in
      match nodes psc !! nodeID with
      | None => (Some (ErrNodeRemoved appID nodeID), psc)
      | Some node =>
          let allocKey := propAllocationKey allocProposal in
          let delta := propAllocatedResource allocProposal in
          let '(app, node) :=
            if negb (resources.IsZero delta) then
              let app := app_decAllocatingResource delta app in
              let app := set_queue (queue_decAllocatingResource delta (queue app)) app in
              let node := decAllocatingResource delta node in
              (app, node)
            else (app, node) in
          if negb confirm then
            let '(err, app) := updateAskRepeat allocKey 1 app in
            let psc := set_node nodeID node (set_application appID app psc) in
            match err with
            | Some e => (Some e, psc)
            | None => (None, psc)
            end
          else
            let psc := set_node nodeID node (set_application appID app psc) in
            match GetSchedulingAllocationAsk allocKey app with
            | None => (Some (ErrAskRemoved appID allocKey), psc)
            | Some _ => (None, psc)
            end
      end
  end.

End scheduler.

(* ===================================================================== *)
(** ** The fsm library and package objects: the application states *)
(* ===================================================================== *)

Module fsm.

(** The machine of the fsm library the application state is built on: the
    current state and the table from (event, source) to destination.  Every
    source of an event description gets its own entry, as [NewFSM] fills
    the table. *)
Record EventDesc := mkEventDesc {
  Name : string;
  Src : list string;
  Dst : string
}.

Record FSM := mkFSM {
  current : string;
  transitions : gmap (string * string) string
}.

Definition NewFSM (initial : string) (events : list EventDesc) : FSM :=
  mkFSM initial
    (foldl (fun tr e => foldl (fun tr src => <[ (Name e, src) := Dst e ]> tr) tr (Src e))
           ∅ events).

Inductive Error :=
| InvalidEventError (event state : string)
| UnknownEventError (event : string)
| NoTransitionError.

Definition ErrorString (e : Error) : string :=
  match e with
  | InvalidEventError event state =>
      "event " +:+ event +:+ " inappropriate in current state " +:+ state
  | UnknownEventError event => "event " +:+ event +:+ " does not exist"
  | NoTransitionError => "no transition"
  end.

Definition Current (f : FSM) : string := current f.

Definition SetState (f : FSM) (state : string) : FSM := mkFSM state (transitions f).

(** [Event] looks the pair (event, current) up.  Without an entry the
    machine stays and the error tells whether the event is known at all;
    with an entry whose destination is the current state the machine stays
    and reports that no transition took place; otherwise it moves.  The
    callbacks of the application machine set timers and count metrics; none
    of them cancels a transition, so they are left out. *)
Definition Event (f : FSM) (event : string) : FSM * option Error :=
  match transitions f !! (event, current f) with
  | None =>
      if existsb (fun kv => String.eqb (fst (fst kv)) event) (map_to_list (transitions f))
      then (f, Some (InvalidEventError event (current f)))
      else (f, Some (UnknownEventError event))
  | Some dst =>
      if String.eqb (current f) dst then (f, Some NoTransitionError)
      else (mkFSM dst (transitions f), None)
  end.

End fsm.

Module objects.

Definition noTransition : string := "no transition".

Inductive applicationEvent :=
| RunApplication
| WaitApplication
| RejectApplication
| CompleteApplication
| KillApplication
| DeleteApplication.

Definition applicationEvent_String (ae : applicationEvent) : string :=
  match ae with
  | RunApplication => "RunApplication"
  | WaitApplication => "WaitApplication"
  | RejectApplication => "RejectApplication"
  | CompleteApplication => "CompleteApplication"
  | KillApplication => "KillApplication"
  | DeleteApplication => "DeleteApplication"
  end.

Inductive applicationState :=
| New
| Accepted
| Starting
| Running
| Waiting
| Rejected
| Completed
| killed
| Deleting.

Definition applicationState_String (st : applicationState) : string :=
  match st with
  | New => "New"
  | Accepted => "Accepted"
  | Starting => "Starting"
  | Running => "Running"
  | Waiting => "Waiting"
  | Rejected => "Rejected"
  | Completed => "Completed"
  | killed => "killed"
  | Deleting => "Deleting"
  end.

Definition NewAppState : fsm.FSM :=
  fsm.NewFSM (applicationState_String New)
    [ fsm.mkEventDesc (applicationEvent_String RejectApplication)
        [applicationState_String New]
        (applicationState_String Rejected);
      fsm.mkEventDesc (applicationEvent_String RunApplication)
        [applicationState_String New]
        (applicationState_String Accepted);
      fsm.mkEventDesc (applicationEvent_String RunApplication)
        [applicationState_String Accepted]
        (applicationState_String Starting);
      fsm.mkEventDesc (applicationEvent_String RunApplication)
        [applicationState_String Running; applicationState_String Starting;
         applicationState_String Waiting]
        (applicationState_String Running);
      fsm.mkEventDesc (applicationEvent_String CompleteApplication)
        [applicationState_String Running; applicationState_String Starting;
         applicationState_String Waiting]
        (applicationState_String Completed);
      fsm.mkEventDesc (applicationEvent_String WaitApplication)
        [applicationState_String Accepted; applicationState_String Running;
         applicationState_String Starting]
        (applicationState_String Waiting);
      fsm.mkEventDesc (applicationEvent_String KillApplication)
        [applicationState_String Accepted; applicationState_String killed;
         applicationState_String New; applicationState_String Running;
         applicationState_String Starting; applicationState_String Waiting]
        (applicationState_String killed);
      fsm.mkEventDesc (applicationEvent_String DeleteApplication)
        [applicationState_String Completed]
        (applicationState_String Deleting) ].

(** The application machine when its current state is [st]. *)
Definition appStateAt (st : applicationState) : fsm.FSM :=
  fsm.SetState NewAppState (applicationState_String st).

(** The transition table as the specification lists it. *)
Definition spec_transition (st : applicationState) (ev : applicationEvent)
    : option applicationState :=
  match ev, st with
  | RejectApplication, New => Some Rejected
  | RunApplication, New => Some Accepted
  | RunApplication, Accepted => Some Starting
  | RunApplication, (Starting | Running | Waiting) => Some Running
  | CompleteApplication, (Starting | Running | Waiting) => Some Completed
  | WaitApplication, (Accepted | Starting | Running) => Some Waiting
  | KillApplication, (Accepted | New | Starting | Running | Waiting | killed) => Some killed
  | DeleteApplication, Completed => Some Deleting
  | _, _ => None
  end.

End objects.

(* ===================================================================== *)
(** ** Package common: partition names *)
(* ===================================================================== *)

Module common.

(** Go strings are byte sequences; [string] is a sequence of 8-bit
    characters, so indices below are byte indices. *)

(** strings.HasPrefix *)
Definition HasPrefix (s pre : string) : bool := String.prefix pre s.

(** strings.Index: the index of the first occurrence of [substr] in [s],
    -1 when there is none. *)
Fixpoint index_nat (s substr : string) : option nat :=
  if String.prefix substr s then Some 0%nat
  else match s with
       | EmptyString => None
       | String _ s' => S <$> index_nat s' substr
       end.

Definition Index (s substr : string) : Z :=
  match index_nat s substr with
  | Some n => Z.of_nat n
  | None => -1
  end.

(** strings.Contains *)
Definition Contains (s substr : string) : bool := 0 <=? Index s substr.

(** The slice expressions s[lo:hi] and s[lo:], for indices in range. *)
Definition slice (s : string) (lo hi : Z) : string :=
  String.substring (Z.to_nat lo) (Z.to_nat (hi - lo)) s.

Definition slice_from (s : string) (lo : Z) : string :=
  slice s lo (Z.of_nat (String.length s)).

Definition GetNormalizedPartitionName (partitionName rmID : string) : string :=
  let partitionName :=
    if String.eqb partitionName "" then "default"%string else partitionName in
  if HasPrefix partitionName "[" then partitionName
  else "[" +:+ rmID +:+ "]" +:+ partitionName.

Definition GetRMIdFromPartitionName (partitionName : string) : string :=
  let idx := Index partitionName "]" in
  if 0 <? idx then slice partitionName 1 idx else "".

Definition GetPartitionNameWithoutClusterID (partitionName : string) : string :=
  let idx := Index partitionName "]" in
  if 0 <? idx then slice_from partitionName (idx + 1) else partitionName.

End common.

(* ===================================================================== *)
(** ** crypto/sha256 and package configs: the configuration loader *)
(* ===================================================================== *)

Module sha256.

(** The SHA-256 function of the Go standard library, after FIPS 180-4,
    on 32-bit words kept in [Z] with the wrap-around written out. *)
Definition wrap32 (x : Z) : Z := x mod 2 ^ 32.
Definition add32 (x y : Z) : Z := wrap32 (x + y).
Definition rotr (n x : Z) : Z := Z.lor (Z.shiftr x n) (wrap32 (Z.shiftl x (32 - n))).
Definition not32 (x : Z) : Z := Z.lxor x (2 ^ 32 - 1).

Definition Ch (x y z : Z) : Z := Z.lxor (Z.land x y) (Z.land (not32 x) z).
Definition Maj (x y z : Z) : Z :=
  Z.lxor (Z.lxor (Z.land x y) (Z.land x z)) (Z.land y z).
Definition bigSigma0 (x : Z) : Z := Z.lxor (Z.lxor (rotr 2 x) (rotr 13 x)) (rotr 22 x).
Definition bigSigma1 (x : Z) : Z := Z.lxor (Z.lxor (rotr 6 x) (rotr 11 x)) (rotr 25 x).
Definition smallSigma0 (x : Z) : Z := Z.lxor (Z.lxor (rotr 7 x) (rotr 18 x)) (Z.shiftr x 3).
Definition smallSigma1 (x : Z) : Z := Z.lxor (Z.lxor (rotr 17 x) (rotr 19 x)) (Z.shiftr x 10).

Definition roundConstants : list Z :=
  [ 1116352408; 1899447441; 3049323471; 3921009573;
    961987163; 1508970993; 2453635748; 2870763221;
    3624381080; 310598401; 607225278; 1426881987;
    1925078388; 2162078206; 2614888103; 3248222580;
    3835390401; 4022224774; 264347078; 604807628;
    770255983; 1249150122; 1555081692; 1996064986;
    2554220882; 2821834349; 2952996808; 3210313671;
    3336571891; 3584528711; 113926993; 338241895;
    666307205; 773529912; 1294757372; 1396182291;
    1695183700; 1986661051; 2177026350; 2456956037;
    2730485921; 2820302411; 3259730800; 3345764771;
    3516065817; 3600352804; 4094571909; 275423344;
    430227734; 506948616; 659060556; 883997877;
    958139571; 1322822218; 1537002063; 1747873779;
    1955562222; 2024104815; 2227730452; 2361852424;
    2428436474; 2756734187; 3204031479; 3329325298 ].

Record state := mkState {
  h0 : Z; h1 : Z; h2 : Z; h3 : Z; h4 : Z; h5 : Z; h6 : Z; h7 : Z
}.

Definition initialState : state :=
  mkState 1779033703 3144134277 1013904242 2773480762
          1359893119 2600822924 528734635 1541459225.

Definition byteZ (b : byte) : Z := Z.of_N (Byte.to_N b).

Definition Zbyte (z : Z) : byte :=
  match Byte.of_N (Z.to_N (z mod 256)) with
  | Some b => b
  | None => x00
  end.

(** Big-endian bytes of a word of [n] bytes. *)
Fixpoint bigEndian (n : nat) (x : Z) : list byte :=
  match n with
  | O => []
  | S n' => Zbyte (Z.shiftr x (8 * Z.of_nat n')) :: bigEndian n' x
  end.

(** The padding: one bit, zeros up to 56 modulo 64 bytes, and the length
    of the message in bits on 8 bytes. *)
Definition pad (msg : list byte) : list byte :=
  let len := Z.of_nat (length msg) in
  msg ++ x80 :: repeat x00 (Z.to_nat ((55 - len) mod 64)) ++ bigEndian 8 (8 * len).

Definition word (a b c d : byte) : Z :=
  Z.lor (Z.lor (Z.shiftl (byteZ a) 24) (Z.shiftl (byteZ b) 16))
        (Z.lor (Z.shiftl (byteZ c) 8) (byteZ d)).

(** The 32-bit words of a byte sequence; a rest of fewer than 4 bytes is
    dropped (a padded message has none). *)
Fixpoint words (fuel : nat) (bs : list byte) : list Z :=
  match fuel, bs with
  | S fuel', a :: b :: c :: d :: rest => word a b c d :: words fuel' rest
  | _, _ => []
  end.

(** The message schedule: the 16 words of the block, then 48 words each
    computed from the ones before. *)
Fixpoint schedule (n : nat) (W : list Z) : list Z :=
  match n with
  | O => W
  | S n' =>
      let t := length W in
      let wt :=
        add32 (add32 (smallSigma1 (nth (t - 2) W 0)) (nth (t - 7) W 0))
              (add32 (smallSigma0 (nth (t - 15) W 0)) (nth (t - 16) W 0)) in
      schedule n' (W ++ [wt])
  end.

Definition round (s : state) (kw : Z * Z) : state :=
  let t1 :=
    add32 (add32 (add32 (h7 s) (bigSigma1 (h4 s))) (Ch (h4 s) (h5 s) (h6 s)))
          (add32 (fst kw) (snd kw)) in
  let t2 := add32 (bigSigma0 (h0 s)) (Maj (h0 s) (h1 s) (h2 s)) in
  mkState (add32 t1 t2) (h0 s) (h1 s) (h2 s) (add32 (h3 s) t1) (h4 s) (h5 s) (h6 s).

Definition compress (s : state) (block : list Z) : state :=
  let r := fold_left round (combine roundConstants (schedule 48 block)) s in
  mkState (add32 (h0 s) (h0 r)) (add32 (h1 s) (h1 r)) (add32 (h2 s) (h2 r))
          (add32 (h3 s) (h3 r)) (add32 (h4 s) (h4 r)) (add32 (h5 s) (h5 r))
          (add32 (h6 s) (h6 r)) (add32 (h7 s) (h7 r)).

Fixpoint blocks (fuel : nat) (s : state) (ws : list Z) : state :=
  match fuel, ws with
  | S fuel', _ :: _ => blocks fuel' (compress s (firstn 16 ws)) (skipn 16 ws)
  | _, _ => s
  end.

Definition digestBytes (s : state) : list byte :=
  bigEndian 4 (h0 s) ++ bigEndian 4 (h1 s) ++ bigEndian 4 (h2 s) ++ bigEndian 4 (h3 s) ++
  bigEndian 4 (h4 s) ++ bigEndian 4 (h5 s) ++ bigEndian 4 (h6 s) ++ bigEndian 4 (h7 s).

(** sha256.Sum256: the digest of a message, 32 bytes. *)
Definition Sum256 (msg : list byte) : list byte :=
  let p := pad msg in
  let ws := words (length p) p in
  digestBytes (blocks (length ws) initialState ws).

(** The hash.Hash a call of sha256.New hands out, kept as the bytes written
    to it so far.  [Write] adds bytes; [Sum] appends the digest of the bytes
    written to the slice it is given and leaves the hash as it is. *)
Record digest := mkDigest { written : list byte }.

Definition New : digest := mkDigest [].

Definition Write (d : digest) (p : list byte) : digest := mkDigest (written d ++ p).

Definition Sum (d : digest) (b : list byte) : list byte := b ++ Sum256 (written d).

End sha256.

Module configs.

(** The parsed configuration.  The partition objects are filled in by the
    YAML library and looked at by [Validate] only, so their type is left
    open here. *)
Record SchedulerConfig (PartitionConfig : Type) := mkSchedulerConfig {
  Partitions : list PartitionConfig;
  Checksum : list byte
}.
Arguments mkSchedulerConfig {PartitionConfig} _ _.
Arguments Partitions {PartitionConfig} _.
Arguments Checksum {PartitionConfig} _.

Inductive loadError :=
| ParseError
| ValidationError.

Section Loader.
(** yaml.Unmarshal fills a configuration from the bytes or fails;
    [Validate] checks the configuration, adjusting it in place, or fails.
    Neither is part of the sources at hand. *)
Context {PartitionConfig : Type}.
Variable Unmarshal : list byte -> SchedulerConfig PartitionConfig -> option (SchedulerConfig PartitionConfig).
Variable Validate : SchedulerConfig PartitionConfig -> option (SchedulerConfig PartitionConfig).

Definition LoadSchedulerConfigFromByteArray (content : list byte)
    : SchedulerConfig PartitionConfig + loadError :=
  let conf := mkSchedulerConfig [] [] in
  match Unmarshal content conf with
  | None => inr ParseError
  | Some conf =>
      match Validate conf with
      | None => inr ValidationError
      | Some conf =>
          let h := sha256.New in
          inl (mkSchedulerConfig (Partitions conf) (sha256.Sum h content))
      end
  end.

End Loader.

End configs.

(* ===================================================================== *)
(** ** Package defaults: the application filters of the sort policies *)
(* ===================================================================== *)

Module defaults.

(** What the filters read of an application through its interface: the
    current state by name, the pending resource and the submission time
    (an instant, kept as an integer). *)
Record Application := mkApplication {
  GetApplicationID : string;
  CurrentState : string;
  GetPendingResource : Resource;
  GetSubmissionTime : Z
}.

(** time.Time.After *)
Definition After (t u : Z) : bool := u <? t.

(** The filters range over a Go map, whose iteration order is not fixed.
    They are given here the applications in the order the range visits
    them; what is proved of them holds for every such order. *)
Definition FilterOnPendingResources (apps : list Application) : list Application :=
  fold_left
    (fun filteredApps app =>
       if resources.StrictlyGreaterThanZero (GetPendingResource app)
       then filteredApps ++ [app] else filteredApps)
    apps [].

(** The variables of the loop of [StateAwareFilter]. *)
Record filterVars := mkFilterVars {
  filteredApps : list Application;
  acceptedApp : option Application;
  foundStarting : bool
}.

Definition stateAwareBody (v : filterVars) (app : Application) : filterVars :=
  let v :=
    if String.eqb (CurrentState app) "Starting"
    then mkFilterVars (filteredApps v) None true
    else v in
  if resources.StrictlyGreaterThanZero (GetPendingResource app) then
    if String.eqb (CurrentState app) "Accepted" then
      if negb (foundStarting v)
         && match acceptedApp v with
            | None => true
            | Some acc => After (GetSubmissionTime acc) (GetSubmissionTime app)
            end
      then mkFilterVars (filteredApps v) (Some app) (foundStarting v)
      else v
    else mkFilterVars (filteredApps v ++ [app]) (acceptedApp v) (foundStarting v)
  else v.

Definition StateAwareFilter (apps : list Application) : list Application :=
  let v := fold_left stateAwareBody apps (mkFilterVars [] None false) in
  match acceptedApp v with
  | Some acc => filteredApps v ++ [acc]
  | None => filteredApps v
  end.

Definition isState (name : string) (app : Application) : bool :=
  String.eqb (CurrentState app) name.

Definition hasPending (app : Application) : bool :=
  resources.StrictlyGreaterThanZero (GetPendingResource app).

End defaults.

(* ===================================================================== *)
(** ** Package maps: the sortable linked map *)
(* ===================================================================== *)

Module maps.

Section SortableLinkedMap.
Context {K V : Type} `{Countable K}.

(** Entries live in a store and are named by their address; a nil pointer
    is [None].  Two pointers are equal when they are the same address. *)
Record SortableLinkedMapEntry := mkEntry {
  key : K;
  value : V;
  pre : option nat;
  next : option nat;
  isMatched : bool
}.

Record SortableLinkedMap := mkSLM {
  store : gmap nat SortableLinkedMapEntry;
  fresh : nat;
  entries : gmap K nat;
  head : option nat;
  tail : option nat;
  firstMatchedEntry : option nat;
  compareFunc : option (V -> V -> bool);
  matchFunc : option (V -> bool)
}.

Definition NewSortableLinkedMap (compareFunc : option (V -> V -> bool))
    (matchFunc : option (V -> bool)) : SortableLinkedMap :=
  mkSLM ∅ 0%nat ∅ None None None compareFunc matchFunc.

(** Assignments to the fields of the map and of an entry in the store. *)
Definition set_store (s : gmap nat SortableLinkedMapEntry) (slm : SortableLinkedMap) :=
  mkSLM s (fresh slm) (entries slm) (head slm) (tail slm) (firstMatchedEntry slm)
        (compareFunc slm) (matchFunc slm).
Definition set_entries (e : gmap K nat) (slm : SortableLinkedMap) :=
  mkSLM (store slm) (fresh slm) e (head slm) (tail slm) (firstMatchedEntry slm)
        (compareFunc slm) (matchFunc slm).
Definition set_head (p : option nat) (slm : SortableLinkedMap) :=
  mkSLM (store slm) (fresh slm) (entries slm) p (tail slm) (firstMatchedEntry slm)
        (compareFunc slm) (matchFunc slm).
Definition set_tail (p : option nat) (slm : SortableLinkedMap) :=
  mkSLM (store slm) (fresh slm) (entries slm) (head slm) p (firstMatchedEntry slm)
        (compareFunc slm) (matchFunc slm).
Definition set_firstMatchedEntry (p : option nat) (slm : SortableLinkedMap) :=
  mkSLM (store slm) (fresh slm) (entries slm) (head slm) (tail slm) p
        (compareFunc slm) (matchFunc slm).

Definition set_value (v : V) (e : SortableLinkedMapEntry) :=
  mkEntry (key e) v (pre e) (next e) (isMatched e).
Definition set_pre (p : option nat) (e : SortableLinkedMapEntry) :=
  mkEntry (key e) (value e) p (next e) (isMatched e).
Definition set_next (p : option nat) (e : SortableLinkedMapEntry) :=
  mkEntry (key e) (value e) (pre e) p (isMatched e).
Definition set_isMatched (b : bool) (e : SortableLinkedMapEntry) :=
  mkEntry (key e) (value e) (pre e) (next e) b.

(** [entry.field = x] for the entry at address [p]. *)
Definition assign (p : nat) (f : SortableLinkedMapEntry -> SortableLinkedMapEntry)
    (slm : SortableLinkedMap) : SortableLinkedMap :=
  set_store (alter f p (store slm)) slm.

(** [new(SortableLinkedMapEntry)] with the key and value given. *)
Definition allocate (k : K) (v : V) (slm : SortableLinkedMap) : nat * SortableLinkedMap :=
  (fresh slm,
   mkSLM (<[fresh slm := mkEntry k v None None false]> (store slm)) (S (fresh slm))
         (entries slm) (head slm) (tail slm) (firstMatchedEntry slm)
         (compareFunc slm) (matchFunc slm)).

Definition entryAt (slm : SortableLinkedMap) (p : option nat) : option SortableLinkedMapEntry :=
  p ≫= fun a => store slm !! a.

Definition ptr_eqb (p q : option nat) : bool := bool_decide (p = q).

Definition getEntry (slm : SortableLinkedMap) (entry : option nat) : option (K * V) :=
  (fun e => (key e, value e)) <$> entryAt slm entry.

Definition GetHead (slm : SortableLinkedMap) : option (K * V) := getEntry slm (head slm).
Definition GetTail (slm : SortableLinkedMap) : option (K * V) := getEntry slm (tail slm).

Definition GetFirstMatched (slm : SortableLinkedMap) : option (K * V) :=
  match firstMatchedEntry slm with
  | None => None
  | Some p => (fun e => (key e, value e)) <$> store slm !! p
  end.

Definition HasMatched (slm : SortableLinkedMap) : bool :=
  negb (ptr_eqb (firstMatchedEntry slm) None).

(** The loops walk the list; their fuel is the number of entries of the
    store plus one, which no walk along a list of these entries exceeds. *)
Definition walkFuel (slm : SortableLinkedMap) : nat := S (size (store slm)).

Fixpoint findPreEntry_loop (fuel : nat) (slm : SortableLinkedMap)
    (cmp : V -> V -> bool) (lookupEntry : option nat) (newValue : V)
    (isForward : bool) : option nat :=
  match fuel with
  | O => if isForward then None else tail slm
  | S fuel' =>
      match lookupEntry with
      | None => if isForward then None else tail slm
      | Some a =>
          match store slm !! a with
          | None => if isForward then None else tail slm
          | Some le =>
              if isForward then
                if cmp newValue (value le)
                then findPreEntry_loop fuel' slm cmp (pre le) newValue isForward
                else lookupEntry
              else
                if cmp (value le) newValue
                then findPreEntry_loop fuel' slm cmp (next le) newValue isForward
                else pre le
          end
      end
  end.

Definition findPreEntry (slm : SortableLinkedMap) (fromEntry : option nat)
    (newEntry : nat) (isForward : bool) : option nat :=
  match compareFunc slm with
  | None => tail slm
  | Some cmp =>
      match store slm !! newEntry with
      | None => tail slm
      | Some ne => findPreEntry_loop (walkFuel slm) slm cmp fromEntry (value ne) isForward
      end
  end.

Definition putIntoLinkedList (preEntry : option nat) (newEntry : nat)
    (slm : SortableLinkedMap) : SortableLinkedMap :=
  let slm :=
    match preEntry with
    | Some p =>
        let preNext := entryAt slm preEntry ≫= next in
        let slm := assign newEntry (set_pre preEntry) slm in
        let slm := assign newEntry (set_next preNext) slm in
        let slm :=
          match preNext with
          | Some n => assign n (set_pre (Some newEntry)) slm
          | None => slm
          end in
        assign p (set_next (Some newEntry)) slm
    | None =>
        match head slm with
        | None => set_head (Some newEntry) slm
        | Some h =>
            let slm := assign h (set_pre (Some newEntry)) slm in
            let slm := assign newEntry (set_next (Some h)) slm in
            let slm := set_head (Some newEntry) slm in
            assign newEntry (set_pre None) slm
        end
    end in
  if ptr_eqb (tail slm) preEntry then set_tail (Some newEntry) slm else slm.

Fixpoint findNextMatched_loop (fuel : nat) (slm : SortableLinkedMap)
    (lookupEntry : option nat) : option nat :=
  match fuel with
  | O => None
  | S fuel' =>
      match lookupEntry with
      | None => None
      | Some a =>
          match store slm !! a with
          | None => None
          | Some le =>
              if isMatched le then lookupEntry
              else findNextMatched_loop fuel' slm (next le)
          end
      end
  end.

Definition findNextMatchedEntry (slm : SortableLinkedMap) : option nat :=
  match firstMatchedEntry slm with
  | None => None
  | Some _ =>
      findNextMatched_loop (walkFuel slm) slm (entryAt slm (firstMatchedEntry slm) ≫= next)
  end.

Definition removeFromLinkedList (entry : nat) (slm : SortableLinkedMap) : SortableLinkedMap :=
  match store slm !! entry with
  | None => slm
  | Some e =>
      let slm := if ptr_eqb (Some entry) (head slm) then set_head (next e) slm else slm in
      let slm := if ptr_eqb (Some entry) (tail slm) then set_tail (pre e) slm else slm in
      let slm :=
        match pre e with
        | Some p => assign p (set_next (next e)) slm
        | None => slm
        end in
      let slm :=
        match next e with
        | Some n => assign n (set_pre (pre e)) slm
        | None => slm
        end in
      if ptr_eqb (Some entry) (firstMatchedEntry slm)
      then set_firstMatchedEntry (findNextMatchedEntry slm) slm
      else slm
  end.

Definition updateMatchedState (mf : V -> bool) (updatedEntry : nat)
    (slm : SortableLinkedMap) : SortableLinkedMap :=
  match store slm !! updatedEntry with
  | None => slm
  | Some ue =>
      let matched := mf (value ue) in
      let slm := assign updatedEntry (set_isMatched matched) slm in
      if matched then
        match firstMatchedEntry slm with
        | None => set_firstMatchedEntry (Some updatedEntry) slm
        | Some fm =>
            match compareFunc slm, store slm !! fm with
            | Some cmp, Some fe =>
                if cmp (value ue) (value fe)
                then set_firstMatchedEntry (Some updatedEntry) slm
                else slm
            | _, _ => slm
            end
        end
      else
        if ptr_eqb (Some updatedEntry) (firstMatchedEntry slm)
        then set_firstMatchedEntry (findNextMatchedEntry slm) slm
        else slm
  end.

(** [Put] returns the old value of the key, if any, and the map. *)
Definition Put (k : K) (v : V) (slm : SortableLinkedMap) : option V * SortableLinkedMap :=
  match entries slm !! k with
  | Some entry =>
      let oldValue := value <$> store slm !! entry in
      let slm := assign entry (set_value v) slm in
      let slm :=
        match matchFunc slm with
        | Some mf => updateMatchedState mf entry slm
        | None => slm
        end in
      (oldValue, slm)
  | None =>
      let '(newEntry, slm) := allocate k v slm in
      let preEntry := findPreEntry slm (tail slm) newEntry true in
      let slm := putIntoLinkedList preEntry newEntry slm in
      let slm :=
        match matchFunc slm with
        | Some mf => updateMatchedState mf newEntry slm
        | None => slm
        end in
      (None, set_entries (<[k := newEntry]> (entries slm)) slm)
  end.

Definition Remove (k : K) (slm : SortableLinkedMap) : option V * SortableLinkedMap :=
  match entries slm !! k with
  | Some entry =>
      let slm := removeFromLinkedList entry slm in
      let slm := set_entries (delete k (entries slm)) slm in
      (value <$> store slm !! entry, slm)
  | None => (None, slm)
  end.

Definition Get (k : K) (slm : SortableLinkedMap) : option V :=
  entries slm !! k ≫= fun entry => value <$> store slm !! entry.

Definition Size (slm : SortableLinkedMap) : nat := size (entries slm).

Fixpoint getEntryItems_loop {A : Type} (fuel : nat) (slm : SortableLinkedMap)
    (getItemFunc : SortableLinkedMapEntry -> A) (lookupEntry : option nat) : list A :=
  match fuel with
  | O => []
  | S fuel' =>
      match entryAt slm lookupEntry with
      | None => []
      | Some le => getItemFunc le :: getEntryItems_loop fuel' slm getItemFunc (next le)
      end
  end.

Definition getEntryItems {A : Type} (slm : SortableLinkedMap)
    (getItemFunc : SortableLinkedMapEntry -> A) : list A :=
  getEntryItems_loop (walkFuel slm) slm getItemFunc (head slm).

Definition Values (slm : SortableLinkedMap) : list V := getEntryItems slm value.
Definition Keys (slm : SortableLinkedMap) : list K := getEntryItems slm key.

(** [Reset] drops every entry; the entries of the store are garbage from
    then on. *)
Definition Reset (slm : SortableLinkedMap) : SortableLinkedMap :=
  mkSLM (store slm) (fresh slm) ∅ None None None (compareFunc slm) (matchFunc slm).

(** The iterator points into the entries of the map it was made for, so
    its methods are given that map to read the entries from. *)
Record SortableLinkedMapIterator := mkIterator {
  findMatched : bool;
  indexEntry : option nat
}.

Definition NewSortableLinkedMapIterator (linkedMap : option SortableLinkedMap)
    (findMatched : bool) : SortableLinkedMapIterator :=
  match linkedMap with
  | None => mkIterator false None
  | Some slm =>
      let indexEntry := if findMatched then firstMatchedEntry slm else head slm in
      mkIterator findMatched indexEntry
  end.

Definition GetIterator (slm : SortableLinkedMap) : SortableLinkedMapIterator :=
  NewSortableLinkedMapIterator (Some slm) false.

Definition GetMatchedIterator (slm : SortableLinkedMap) : SortableLinkedMapIterator :=
  NewSortableLinkedMapIterator (Some slm) true.

Definition iterator_findNextMatchedEntry (slm : SortableLinkedMap)
    (slmi : SortableLinkedMapIterator) : SortableLinkedMapIterator :=
  mkIterator (findMatched slmi)
             (findNextMatched_loop (walkFuel slm) slm (indexEntry slmi)).

Definition HasNext (slm : SortableLinkedMap) (slmi : SortableLinkedMapIterator)
    : bool * SortableLinkedMapIterator :=
  let slmi := if findMatched slmi then iterator_findNextMatchedEntry slm slmi else slmi in
  (negb (ptr_eqb (indexEntry slmi) None), slmi).

Definition Next (slm : SortableLinkedMap) (slmi : SortableLinkedMapIterator)
    : option (K * V) * SortableLinkedMapIterator :=
  let slmi := if findMatched slmi then iterator_findNextMatchedEntry slm slmi else slmi in
  match entryAt slm (indexEntry slmi) with
  | None => (None, slmi)
  | Some e => (Some (key e, value e), mkIterator (findMatched slmi) (next e))
  end.

(** The loop [for it.HasNext() { k, v := it.Next(); ... }], collecting the
    pairs it visits; [fuel] bounds the number of rounds. *)
Fixpoint iterate (fuel : nat) (slm : SortableLinkedMap)
    (slmi : SortableLinkedMapIterator) : list (K * V) :=
  match fuel with
  | O => []
  | S fuel' =>
      let '(more, slmi) := HasNext slm slmi in
      if more then
        match Next slm slmi with
        | (Some kv, slmi) => kv :: iterate fuel' slm slmi
        | (None, _) => []
        end
      else []
  end.

(** What the cursor is documented to be: the first entry of the linked
    entries, in their order, whose value the match function accepts. *)
Definition firstMatchedInOrder (slm : SortableLinkedMap) : option (K * V) :=
  match matchFunc slm with
  | None => None
  | Some mf =>
      List.find (fun kv => mf (snd kv)) (getEntryItems slm (fun e => (key e, value e)))
  end.

End SortableLinkedMap.

Arguments SortableLinkedMapEntry K V : clear implicits.
Arguments SortableLinkedMap K V {_ _}.
Arguments SortableLinkedMapIterator : clear implicits.

End maps.

(* ===================================================================== *)
(** ** Statements under test and sample data *)
(* ===================================================================== *)

Module scheduler_cases.
Import scheduler.

(** Sample data: one node of 100 memory, two applications whose IDs
    extend one another, and a small ask of each. *)
Definition sample_queue : SchedulingQueue :=
  mkQueue "root" ∅ ∅ None.
Definition sample_node : schedulingNode :=
  newSchedulingNode
    (cache.mkNodeInfo "node-1" true {[ "memory" := 100 ]} {[ "memory" := 100 ]}).
Definition sample_ask (appID : string) : schedulingAllocationAsk :=
  mkAsk "ask-1" appID {[ "memory" := 10 ]} 1.
Definition sample_app (appID : string) : SchedulingApplication :=
  mkApp appID ∅ {[ "memory" := 10 ]} {[ "ask-1" := sample_ask appID ]} sample_queue.
Definition sample_reserved_node : schedulingNode :=
  snd (reserve (Some (sample_app "app-10")) (Some (sample_ask "app-10")) sample_node).

(** The statement of the specification: a node that holds a
    reservation of one application takes a second one of another
    application when the ask fits the node. *)
Definition reserve_admits_other_app : Prop :=
  forall (sn : schedulingNode) (a b : SchedulingApplication)
         (ka kb : schedulingAllocationAsk) (r : reservation),
    reservations sn !! reservationKey None (Some a) (Some ka) = Some r ->
    ApplicationID a <> ApplicationID b ->
    cache.FitInNode (nodeInfo sn) (AllocatedResource kb) = true ->
    fst (fst (reserve (Some b) (Some kb) sn)) = true /\
    size (reservations (snd (reserve (Some b) (Some kb) sn)))
      = S (size (reservations sn)).

(** [new] is [old] less [delta] in every resource type, a result below zero
    being clamped at zero. *)
Definition decreased_clamped (old delta new : Resource) : Prop :=
  forall t, resources.quantity new t
            = Z.max 0 (resources.quantity old t - resources.quantity delta t).

(** [new] is [old] less [delta] in every resource type. *)
Definition decreased_exact (old delta new : Resource) : Prop :=
  forall t, resources.quantity new t
            = resources.quantity old t - resources.quantity delta t.

(** A partition with one application, whose ask ask-1 is out as a proposal
    on node-1 although nothing is counted as allocating any more. *)
Definition sample_partition : partitionSchedulingContext :=
  mkPartition "rm-1" "[rm-1]default" {[ "app-1" := sample_app "app-1" ]} ∅
              {[ "node-1" := sample_node ]}.
Definition sample_proposal : AllocationProposal :=
  mkProposal "node-1" "app-1" "ask-1" {[ "memory" := 10 ]}.

(** The statement of the specification: rejecting a proposal takes
    exactly the proposed resource off the allocating resource of the
    application, of its queue and of the node, and adds one to the pending
    repeat of the ask. *)
Definition reject_decreases_exactly : Prop :=
  forall (psc : partitionSchedulingContext) (p : AllocationProposal)
         (app : SchedulingApplication) (node : schedulingNode)
         (ask : schedulingAllocationAsk),
    applications psc !! propApplicationID p = Some app ->
    nodes psc !! propNodeID p = Some node ->
    requests app !! propAllocationKey p = Some ask ->
    resources.IsZero (propAllocatedResource p) = false ->
    exists app' node' ask',
      applications (snd (confirmAllocation p false psc)) !! propApplicationID p = Some app' /\
      nodes (snd (confirmAllocation p false psc)) !! propNodeID p = Some node' /\
      requests app' !! propAllocationKey p = Some ask' /\
      decreased_exact (appAllocating app) (propAllocatedResource p) (appAllocating app') /\
      decreased_exact (queueAllocating (queue app)) (propAllocatedResource p)
                      (queueAllocating (queue app')) /\
      decreased_exact (allocating node) (propAllocatedResource p) (allocating node') /\
      pendingRepeatAsk ask' = pendingRepeatAsk ask + 1.

End scheduler_cases.

Module configs_cases.
Import configs.

Definition bytesOfZ (l : list Z) : list byte := map sha256.Zbyte l.

(** A small configuration in YAML flow style, and stand-ins for the YAML
    library and the validation that accept it. *)
Definition sample_content : list byte :=
  list_byte_of_string "partitions: [{name: default, queues: [{name: root}]}]".
Definition sample_Unmarshal (content : list byte) (conf : SchedulerConfig string)
    : option (SchedulerConfig string) :=
  match content with
  | [] => None
  | _ => Some (mkSchedulerConfig ["default"%string] (Checksum conf))
  end.
Definition sample_Validate (conf : SchedulerConfig string) : option (SchedulerConfig string) :=
  match Partitions conf with
  | [] => None
  | _ => Some conf
  end.

End configs_cases.

Module defaults_cases.
Import defaults.

(** What the loop variables hold after the range has visited [seen]. *)
Definition filterVars_inv (seen : list Application) (v : filterVars) : Prop :=
  filteredApps v
    = List.filter (fun a => hasPending a && negb (isState "Accepted" a)) seen /\
  foundStarting v = existsb (isState "Starting") seen /\
  (foundStarting v = true -> acceptedApp v = None) /\
  (foundStarting v = false ->
     match acceptedApp v with
     | None => forall b, In b seen -> isState "Accepted" b = true -> hasPending b = false
     | Some a =>
         In a seen /\ isState "Accepted" a = true /\ hasPending a = true /\
         forall b, In b seen -> isState "Accepted" b = true -> hasPending b = true ->
                   GetSubmissionTime a <= GetSubmissionTime b
     end).

(** The states an application that asks for resources is in. *)
Definition schedulableState (app : Application) : bool :=
  isState "Accepted" app || isState "Starting" app || isState "Running" app.

(** Two applications that are both starting and both have pending
    resources. *)
Definition starting_app (appID : string) (submitted : Z) : Application :=
  mkApplication appID "Starting" {[ "memory" := 10 ]} submitted.

(** The statement of the specification: at most one candidate is not
    in the Running state. *)
Definition at_most_one_not_running : Prop :=
  forall apps : list Application,
    (length (List.filter (fun a => negb (isState "Running" a)) (StateAwareFilter apps)) <= 1)%nat.

End defaults_cases.

Module maps_cases.
Import maps.

(** A map of integers sorted ascending whose cursor looks for even values. *)
Definition sample_map : SortableLinkedMap string Z :=
  NewSortableLinkedMap (Some Z.ltb) (Some Z.even).

(** Two fresh keys, then the first key again with a value that matches and
    sorts after the second. *)
Definition sample_map_updated : SortableLinkedMap string Z :=
  snd (Put "k1" 4 (snd (Put "k2" 2 (snd (Put "k1" 1 sample_map))))).

End maps_cases.

(* ===================================================================== *)
(** ** The sortable linked map: what its pointers represent *)
(* ===================================================================== *)

Module maps_invariant.
Import maps.

Section Representation.
Context {K V : Type} `{Countable K}.
Local Abbreviation Entry := (SortableLinkedMapEntry K V).
Local Abbreviation SLM := (SortableLinkedMap K V).

(** The entries at the addresses [l] are linked to one another in that
    order: the first one has [prev] as its [pre], the last one [nxt] as
    its [next]. *)
Fixpoint dll (st : gmap nat Entry) (prev : option nat) (l : list nat) (nxt : option nat)
    : Prop :=
  match l with
  | [] => True
  | a :: l' =>
      exists e, st !! a = Some e /\ pre e = prev /\
                next e = match l' with [] => nxt | b :: _ => Some b end /\
                dll st (Some a) l' nxt
  end.

Definition next_of (l : list nat) (n : option nat) : option nat :=
  match l with [] => n | b :: _ => Some b end.

Definition prev_of (p : option nat) (l : list nat) : option nat :=
  match last l with Some b => Some b | None => p end.

(** The [isMatched] flag of the entry at an address. *)
Definition flagged (st : gmap nat Entry) (a : nat) : bool :=
  match st !! a with Some e => isMatched e | None => false end.

(** The test on which the backward walk of [findPreEntry] stops. *)
Definition stops (st : gmap nat Entry) (cmp : V -> V -> bool) (v : V) (a : nat) : bool :=
  match st !! a with Some e => negb (cmp v (value e)) | None => false end.

(** What an entry carries besides its links. *)
Definition payload (e : Entry) : K * V * bool := (key e, value e, isMatched e).

Definition kv (e : Entry) : K * V := (key e, value e).

(** The linked entries of [slm] are the addresses [l], each once, from
    [head] to [tail]; addresses not yet handed out hold no entry. *)
Record wfl (slm : SLM) (l : list nat) : Prop := mkWfl {
  wfl_nodup : NoDup l;
  wfl_dll : dll (store slm) None l None;
  wfl_head : head slm = hd_error l;
  wfl_tail : tail slm = last l;
  wfl_fresh : forall a, is_Some (store slm !! a) -> (a < fresh slm)%nat
}.

(** The hash index [entries] maps each key to its linked entry. *)
Record wfe (slm : SLM) (l : list nat) : Prop := mkWfe {
  wfe_entries : forall k a,
    entries slm !! k = Some a <-> a ∈ l /\ key <$> store slm !! a = Some k;
  wfe_size : size (entries slm) = length l
}.

(** The flags are what the match function says about the values, and the
    cursor is a linked entry whose flag is set. *)
Record wfm (slm : SLM) (l : list nat) : Prop := mkWfm {
  wfm_flags : forall mf a e,
    matchFunc slm = Some mf -> a ∈ l -> store slm !! a = Some e ->
    isMatched e = mf (value e);
  wfm_cursor : forall a,
    firstMatchedEntry slm = Some a ->
    a ∈ l /\ flagged (store slm) a = true;
  wfm_nomatch : matchFunc slm = None -> firstMatchedEntry slm = None
}.

Definition wf (slm : SLM) (l : list nat) : Prop := wfl slm l /\ wfe slm l /\ wfm slm l.

(** Where [Put] links a new entry with value [v]: behind the last entry
    that [v] does not sort before. *)
Definition slot (slm : SLM) (v : V) (l1 l2 : list nat) : Prop :=
  match compareFunc slm with
  | None => l2 = []
  | Some cmp =>
      Forall (fun b => exists e, store slm !! b = Some e /\ cmp v (value e) = true) l2 /\
      forall p e, last l1 = Some p -> store slm !! p = Some e -> cmp v (value e) = false
  end.

(** The map [removeFromLinkedList] leaves before it moves the cursor. *)
Definition unlinked (a : nat) (e : Entry) (slm : SLM) : SLM :=
  mkSLM (match next e with
         | Some n => alter (set_pre (pre e)) n
         | None => fun s => s
         end (match pre e with
              | Some p => alter (set_next (next e)) p
              | None => fun s => s
              end (store slm)))
        (fresh slm) (entries slm)
        (if ptr_eqb (Some a) (head slm) then next e else head slm)
        (if ptr_eqb (Some a) (tail slm) then pre e else tail slm)
        (firstMatchedEntry slm) (compareFunc slm) (matchFunc slm).

(** The maps a program can build. *)
Inductive reachable : SLM -> Prop :=
  | reachable_New cmp mf : reachable (NewSortableLinkedMap cmp mf)
  | reachable_Put k v slm : reachable slm -> reachable (snd (Put k v slm))
  | reachable_Remove k slm : reachable slm -> reachable (snd (Remove k slm))
  | reachable_Reset slm : reachable slm -> reachable (Reset slm).

(** The maps built without updating a value in place. *)
Inductive grown : SLM -> Prop :=
  | grown_New cmp mf : grown (NewSortableLinkedMap cmp mf)
  | grown_Put k v slm : grown slm -> Get k slm = None -> grown (snd (Put k v slm))
  | grown_Remove k slm : grown slm -> grown (snd (Remove k slm))
  | grown_Reset slm : grown slm -> grown (Reset slm).

(** The pairs held by the entries at the addresses [l]. *)
Definition contents (slm : SLM) (l : list nat) : list (K * V) :=
  omap (fun a => kv <$> store slm !! a) l.

(** The pairs of the map in the order of the linked entries: what
    [getEntryItems] collects when asked for key and value. *)
Definition Items (slm : SLM) : list (K * V) :=
  getEntryItems slm (fun e => (key e, value e)).

(** [compareFunc(i, j)] is true when i should be placed before j: the
    values are in order when no value should be placed before an earlier
    one. *)
Definition ordered (cmp : V -> V -> bool) (vs : list V) : Prop :=
  StronglySorted (fun x y => cmp y x = false) vs.

(** A comparator that is a strict weak order. *)
Definition strict_weak (cmp : V -> V -> bool) : Prop :=
  (forall x y, cmp x y = true -> cmp y x = false) /\
  (forall x y z, cmp x y = false -> cmp y z = false -> cmp x z = false).

(** The cursor stands on the first linked entry whose flag is set. *)
Definition cursor_first (slm : SLM) (l : list nat) : Prop :=
  wf slm l /\
  firstMatchedEntry slm = List.find (flagged (store slm)) l /\
  forall cmp, compareFunc slm = Some cmp -> ordered cmp (Values slm).

End Representation.

End maps_invariant.

(* ===================================================================== *)
(** ** Package scheduler: further methods of the node and the partition *)
(* ===================================================================== *)

Module scheduler_more.
Import scheduler.

(** *** The node *)

Definition incPreemptingResource (preempting : Resource) (sn : schedulingNode)
    : schedulingNode :=
  set_preempting (resources.AddTo (scheduler.preempting sn) preempting) sn.

Definition decPreemptingResource (delta : Resource) (sn : schedulingNode)
    : schedulingNode :=
  let '(res, _) := resources.SubErrorNegative (scheduler.preempting sn) delta in
  set_preempting res sn.

(** The nodes a scheduler can hold: made by [newSchedulingNode] and changed
    by the methods of the node only. *)
Inductive node_reachable : schedulingNode -> Prop :=
  | reach_newSchedulingNode info : node_reachable (newSchedulingNode info)
  | reach_getAvailableResource sn :
      node_reachable sn -> node_reachable (snd (getAvailableResource sn))
  | reach_incAllocatingResource delta sn :
      node_reachable sn -> node_reachable (incAllocatingResource delta sn)
  | reach_decAllocatingResource delta sn :
      node_reachable sn -> node_reachable (decAllocatingResource delta sn)
  | reach_incPreemptingResource delta sn :
      node_reachable sn -> node_reachable (incPreemptingResource delta sn)
  | reach_decPreemptingResource delta sn :
      node_reachable sn -> node_reachable (decPreemptingResource delta sn)
  | reach_allocateResource res phase sn :
      node_reachable sn -> node_reachable (snd (allocateResource res phase sn))
  | reach_preAllocateCheck res phase sn :
      node_reachable sn -> node_reachable (snd (preAllocateCheck res phase sn))
  | reach_reserve app ask sn :
      node_reachable sn -> node_reachable (snd (reserve app ask sn))
  | reach_unReserve app ask sn :
      node_reachable sn -> node_reachable (snd (unReserve app ask sn)).

(** *** The partition *)

(** The range over [psc.nodes] visits the nodes in an order that is not
    fixed; [getSchedulingNodes] is given the pairs in the order of the
    visit. *)
Definition getSchedulingNodes (excludeReserved : bool)
    (visit : list (string * schedulingNode)) : list schedulingNode :=
  fold_left
    (fun schedulingNodes kn =>
       let node := snd kn in
       if negb (cache.IsSchedulable (nodeInfo node)) || (excludeReserved && isReserved node)
       then schedulingNodes
       else schedulingNodes ++ [node])
    visit [].

Definition getSchedulableNodes (visit : list (string * schedulingNode))
    : list schedulingNode :=
  getSchedulingNodes true visit.

(** The counters of [reservedApps] are Go ints: 64 bits, two's complement. *)
Definition wrapInt (z : Z) : Z := (z + 2 ^ 63) mod 2 ^ 64 - 2 ^ 63.

Definition set_reservedApps (m : gmap string Z) (psc : partitionSchedulingContext)
    : partitionSchedulingContext :=
  mkPartition (RmID psc) (Name psc) (applications psc) m (nodes psc).

Definition unReserveCount (appID : string) (asks : Z) (psc : partitionSchedulingContext)
    : partitionSchedulingContext :=
  match reservedApps psc !! appID with
  | Some num =>
      if num =? asks then set_reservedApps (delete appID (reservedApps psc)) psc
      else set_reservedApps (<[appID := wrapInt (num - asks)]> (reservedApps psc)) psc
  | None => psc
  end.

(** strings.LastIndex: the index of the last occurrence of [substr] in [s],
    -1 when there is none. *)
Fixpoint last_index_nat (s substr : string) : option nat :=
  match s with
  | EmptyString => if String.prefix substr s then Some 0%nat else None
  | String _ s' =>
      match last_index_nat s' substr with
      | Some n => Some (S n)
      | None => if String.prefix substr s then Some 0%nat else None
      end
  end.

Definition LastIndex (s substr : string) : Z :=
  match last_index_nat s substr with
  | Some n => Z.of_nat n
  | None => -1
  end.

(** How the search of [createSchedulingQueue] for an existing queue ends:
    with the queue found, the name it was found under and the name looked
    up before; in a panic of the slice expression; or not within the
    rounds given. *)
Inductive searchResult (Q : Type) : Type :=
  | Found (parent : Q) (schedQueue cacheQueue : string)
  | SlicePanic
  | StillSearching.
Arguments Found {Q}.
Arguments SlicePanic {Q}.
Arguments StillSearching {Q}.

(** The first statements of [createSchedulingQueue]: the loop that looks
    for the queue furthest down the hierarchy that exists.  The loop reads
    the partition through [getQueue] only and changes nothing, so it is
    given that function; [fuel] bounds the rounds of the loop. *)
Fixpoint findExistingQueue_loop {Q : Type} (getQueue : string -> option Q)
    (name : string) (fuel : nat) (schedQueue cacheQueue : string) : searchResult Q :=
  match getQueue schedQueue with
  | Some parent => Found parent schedQueue cacheQueue
  | None =>
      match fuel with
      | O => StillSearching
      | S fuel' =>
          let cacheQueue := schedQueue in
          let i := LastIndex name "." in
          if i <? 0 then SlicePanic
          else findExistingQueue_loop getQueue name fuel' (common.slice name 0 i) cacheQueue
      end
  end.

Definition findExistingQueue {Q : Type} (getQueue : string -> option Q)
    (name : string) (fuel : nat) : searchResult Q :=
  findExistingQueue_loop getQueue name fuel name "".

End scheduler_more.

Module scheduler_more_cases.
Import scheduler scheduler_cases scheduler_more.

(** The sample partition with two reservations counted for app-1. *)
Definition sample_counted_partition : partitionSchedulingContext :=
  set_reservedApps {[ "app-1" := 2 ]} sample_partition.

End scheduler_more_cases.

(* ===================================================================== *)
(** ** Package defaults: the sort of the requests *)
(* ===================================================================== *)

Module defaults_more.

(** What the sort reads of a request through its interface: the priority
    (an int32) and the create time (an instant, kept as an integer). *)
Record Request := mkRequest {
  GetAllocationKey : string;
  GetPriority : Z;
  GetCreateTime : Z
}.

(** time.Time.Before *)
Definition Before (t u : Z) : bool := t <? u.

(** The less function [SortAskByPriority] hands to the sort, on the
    requests at the two indices. *)
Definition askLess (ascending : bool) (l r : Request) : bool :=
  if GetPriority l =? GetPriority r then Before (GetCreateTime l) (GetCreateTime r)
  else if ascending then GetPriority l <? GetPriority r
  else GetPriority r <? GetPriority l.

(** sort.SliceStable, from its documentation: the slice is sorted by the
    less function and equal elements keep their order.  Each element is
    inserted, in the order of the slice, behind the elements it is not
    less than. *)
Fixpoint insertStable {A : Type} (less : A -> A -> bool) (x : A) (l : list A) : list A :=
  match l with
  | [] => [x]
  | y :: l' => if less x y then x :: l else y :: insertStable less x l'
  end.

Definition SliceStable {A : Type} (less : A -> A -> bool) (l : list A) : list A :=
  fold_left (fun sorted x => insertStable less x sorted) l [].

(** The slice is sorted in place; the sorted slice is returned here. *)
Definition SortAskByPriority (requests : list Request) (ascending : bool) : list Request :=
  SliceStable (askLess ascending) requests.

End defaults_more.

Module maps_more_cases.
Import maps maps_cases.

(** Two keys put into the sample map, their values in ascending order. *)
Definition sample_sorted_map : SortableLinkedMap string Z :=
  snd (Put "k3" 5 (snd (Put "k1" 1 sample_map))).

(** A map without comparator and without match function, holding one key. *)
Definition sample_plain_map : SortableLinkedMap string Z :=
  snd (Put "k1" 1 (NewSortableLinkedMap None None)).

End maps_more_cases.

(* ===================================================================== *)
(** * Properties *)
(* ===================================================================== *)

(** ** The scheduling node *)

Section NodeProperties.
Import scheduler scheduler_cases.

Lemma size_pos_nonempty (m : gmap string reservation) :
  (0 < size m)%nat <-> m <> ∅.
Proof.
  split.
  - intros Hs ->. rewrite map_size_empty in Hs. lia.
  - intros Hne. destruct (size m) eqn:E; [|lia].
    apply map_size_empty_iff in E. contradiction.
Qed.

(** C6: [preAllocateCheck] answers true exactly when the node is
    schedulable, the requested resource is strictly greater than zero and
    the request added to the allocating resource fits in the available
    resource of the node (with preempting added in the preemption phase);
    the node is left as it was. *)
Theorem preAllocateCheck_spec (sn : schedulingNode) (res : Resource) (preemptionPhase : bool) :
  snd (preAllocateCheck res preemptionPhase sn) = sn /\
  (fst (preAllocateCheck res preemptionPhase sn) = true <->
     cache.IsSchedulable (nodeInfo sn) = true /\
     resources.StrictlyGreaterThanZero res = true /\
     resources.FitIn
       (if preemptionPhase
        then resources.Add (cache.GetAvailableResource (nodeInfo sn)) (preempting sn)
        else cache.GetAvailableResource (nodeInfo sn))
       (resources.Add res (allocating sn)) = true).
Proof.
  unfold preAllocateCheck, getAllocatingResource, resources.AddTo.
  destruct (cache.IsSchedulable (nodeInfo sn)); simpl.
  2: { split; [reflexivity|]. split; [discriminate|]. intros [? _]. discriminate. }
  destruct (resources.StrictlyGreaterThanZero res); simpl.
  2: { split; [reflexivity|]. split; [discriminate|]. intros (_ & ? & _). discriminate. }
  destruct (resources.FitIn _ _); simpl; split; try reflexivity.
  - split; auto.
  - split; [discriminate|]. intros (_ & _ & ?). discriminate.
Qed.

(** C7: when the proposed resource added to the allocating resource does
    not fit in the available resource (plus preempting in the preemption
    phase) [allocateResource] answers false and the allocating resource
    stays as it was; when it fits the answer is true and the allocating
    resource is the old one plus the proposed resource. *)
Theorem allocateResource_spec (sn : schedulingNode) (res : Resource) (preemptionPhase : bool) :
  let available :=
    if preemptionPhase
    then resources.Add (cache.GetAvailableResource (nodeInfo sn)) (preempting sn)
    else cache.GetAvailableResource (nodeInfo sn) in
  (resources.FitIn available (resources.Add res (allocating sn)) = false ->
     fst (allocateResource res preemptionPhase sn) = false /\
     allocating (snd (allocateResource res preemptionPhase sn)) = allocating sn /\
     snd (allocateResource res preemptionPhase sn) = sn) /\
  (resources.FitIn available (resources.Add res (allocating sn)) = true ->
     fst (allocateResource res preemptionPhase sn) = true /\
     allocating (snd (allocateResource res preemptionPhase sn))
       = resources.Add res (allocating sn)).
Proof.
  intros available. subst available.
  unfold allocateResource, resources.AddTo.
  split; intros ->; simpl; auto.
Qed.

Example sample_reserved_node_reservations :
  reservations sample_reserved_node
  = {[ "app-10|ask-1" := mkReservation None "app-10" "ask-1" ]}.
Proof. vm_compute. reflexivity. Qed.

(** C3, as stated, fails: the node reserved for app-10 refuses app-1. *)
Lemma reserve_admits_other_app_refuted : ~ reserve_admits_other_app.
Proof.
  intros H.
  destruct (H sample_reserved_node (sample_app "app-10") (sample_app "app-1")
              (sample_ask "app-10") (sample_ask "app-1")
              (mkReservation None "app-10" "ask-1")) as [Hres _].
  - vm_compute. reflexivity.
  - simpl. discriminate.
  - vm_compute. reflexivity.
  - vm_compute in Hres. discriminate.
Qed.

(** [reserve] on a node without reservation, for an application and an ask
    that fits the node. *)
Lemma reserve_single_node_empty (sn : schedulingNode)
    (a : SchedulingApplication) (k : schedulingAllocationAsk) :
  reservations sn = ∅ ->
  cache.FitInNode (nodeInfo sn) (AllocatedResource k) = true ->
  fst (reserve (Some a) (Some k) sn) = (true, None) /\
  reservations (snd (reserve (Some a) (Some k) sn))
    = {[ ApplicationID a +:+ "|" +:+ AllocationKey k
         := mkReservation None (ApplicationID a) (AllocationKey k) ]}.
Proof.
  intros He Hfit. unfold reserve.
  rewrite bool_decide_eq_false_2.
  2: { rewrite He, map_size_empty. lia. }
  simpl. rewrite Hfit. simpl. split; [reflexivity|].
  rewrite He. unfold getKey. simpl. reflexivity.
Qed.

(** C3, amended: a node that already holds a reservation, of whichever
    application, refuses every further [reserve] with the
    already-reserved error and keeps its reservations; a node without
    reservation takes the reservation of a non-nil application and ask
    that fits its capacity and then holds exactly that one. *)
Theorem reserve_single_reservation (sn : schedulingNode)
    (app : option SchedulingApplication) (ask : option schedulingAllocationAsk) :
  (reservations sn <> ∅ ->
     reserve app ask sn = ((false, Some (ErrNodeAlreadyReserved (NodeID sn))), sn)) /\
  (reservations sn = ∅ ->
     forall a k, app = Some a -> ask = Some k ->
       cache.FitInNode (nodeInfo sn) (AllocatedResource k) = true ->
       fst (reserve app ask sn) = (true, None) /\
       reservations (snd (reserve app ask sn))
         = {[ ApplicationID a +:+ "|" +:+ AllocationKey k
              := mkReservation None (ApplicationID a) (AllocationKey k) ]}).
Proof.
  split.
  - intros Hne. unfold reserve.
    rewrite bool_decide_eq_true_2; [reflexivity|].
    apply size_pos_nonempty; exact Hne.
  - intros He a k -> -> Hfit. exact (reserve_single_node_empty sn a k He Hfit).
Qed.

(** C10: [isReservedForApp] is false for the empty ID and otherwise true
    exactly when some reservation key of the node starts with the ID; so
    the node reserved only for app-10 answers true for app-1, which holds
    no reservation there. *)
Theorem isReservedForApp_prefix :
  (forall sn, isReservedForApp "" sn = false) /\
  (forall sn appID, appID <> "" ->
     (isReservedForApp appID sn = true <->
      exists key r, reservations sn !! key = Some r /\ String.prefix appID key = true)) /\
  (exists sn,
     (forall key r, reservations sn !! key = Some r -> resAppID r = "app-10") /\
     isReservedForApp "app-1" sn = true).
Proof.
  split; [|split].
  - intros sn. reflexivity.
  - intros sn appID Hne. unfold isReservedForApp.
    destruct (String.eqb_spec appID "") as [->|_]; [contradiction|].
    rewrite existsb_exists. split.
    + intros [[key r] [Hin Hp]]. exists key, r. split; [|exact Hp].
      apply elem_of_map_to_list. apply list_elem_of_In. exact Hin.
    + intros (key & r & Hl & Hp). exists (key, r). split; [|exact Hp].
      apply list_elem_of_In. apply elem_of_map_to_list. exact Hl.
  - exists sample_reserved_node. split.
    + intros key r. rewrite sample_reserved_node_reservations.
      intros [_ <-]%lookup_singleton_Some. reflexivity.
    + vm_compute. reflexivity.
Qed.

End NodeProperties.

(** ** The application state machine *)

Section AppStateProperties.
Import objects.

Lemma applicationState_String_inj (s t : applicationState) :
  applicationState_String s = applicationState_String t -> s = t.
Proof. destruct s, t; simpl; intros H; try reflexivity; discriminate H. Qed.

(** The machine starts in New. *)
Example NewAppState_initial : fsm.Current NewAppState = applicationState_String New.
Proof. reflexivity. Qed.

(** The table [NewAppState] builds holds the listed triples and nothing
    else. *)
Lemma NewAppState_table (st : applicationState) (ev : applicationEvent) :
  fsm.transitions NewAppState !! (applicationEvent_String ev, applicationState_String st)
  = applicationState_String <$> spec_transition st ev.
Proof. destruct st, ev; vm_compute; reflexivity. Qed.

Lemma NewAppState_event_known (ev : applicationEvent) :
  existsb (fun kv => String.eqb (fst (fst kv)) (applicationEvent_String ev))
          (map_to_list (fsm.transitions NewAppState)) = true.
Proof. destruct ev; vm_compute; reflexivity. Qed.

Lemma Event_appStateAt (st : applicationState) (ev : applicationEvent) :
  fsm.Event (appStateAt st) (applicationEvent_String ev)
  = match spec_transition st ev with
    | Some dst =>
        if String.eqb (applicationState_String st) (applicationState_String dst)
        then (appStateAt st, Some fsm.NoTransitionError)
        else (appStateAt dst, None)
    | None =>
        (appStateAt st,
         Some (fsm.InvalidEventError (applicationEvent_String ev)
                                     (applicationState_String st)))
    end.
Proof.
  unfold fsm.Event.
  change (fsm.current (appStateAt st)) with (applicationState_String st).
  change (fsm.transitions (appStateAt st)) with (fsm.transitions NewAppState).
  rewrite NewAppState_table, NewAppState_event_known.
  destruct (spec_transition st ev) as [dst|]; reflexivity.
Qed.

(** C1: every listed (From, Event, To) triple takes the machine from From
    to To, without error when the state changes and with the library's
    no-transition report when From is To already; for every state and event
    without a listed triple the machine is unchanged and an error comes
    back. *)
Theorem app_state_machine_transitions :
  (forall st ev dst, spec_transition st ev = Some dst ->
     fsm.Current (fst (fsm.Event (appStateAt st) (applicationEvent_String ev)))
       = applicationState_String dst /\
     (st <> dst -> snd (fsm.Event (appStateAt st) (applicationEvent_String ev)) = None) /\
     (st = dst -> snd (fsm.Event (appStateAt st) (applicationEvent_String ev))
                  = Some fsm.NoTransitionError)) /\
  (forall st ev, spec_transition st ev = None ->
     fsm.Event (appStateAt st) (applicationEvent_String ev)
       = (appStateAt st,
          Some (fsm.InvalidEventError (applicationEvent_String ev)
                                      (applicationState_String st)))).
Proof.
  split.
  - intros st ev dst H. rewrite Event_appStateAt, H.
    destruct (String.eqb_spec (applicationState_String st) (applicationState_String dst))
      as [E|E].
    + apply applicationState_String_inj in E. subst dst.
      split; [reflexivity|]. split; [intros Hd; contradiction|reflexivity].
    + split; [reflexivity|]. split; [reflexivity|].
      intros ->. contradiction.
  - intros st ev H. rewrite Event_appStateAt, H. reflexivity.
Qed.

End AppStateProperties.

(** ** Partition names *)

Section PartitionNameProperties.
Import common.

Lemma substring_all (s : string) : String.substring 0 (String.length s) s = s.
Proof. induction s as [|c s IH]; simpl; [reflexivity|]. now rewrite IH. Qed.

Lemma substring_app_l (a b : string) :
  String.substring 0 (String.length a) (a +:+ b) = a.
Proof.
  induction a as [|c a IH]; simpl.
  - destruct b; reflexivity.
  - now rewrite IH.
Qed.

Lemma substring_app_r (a b : string) (n : nat) :
  String.substring (String.length a) n (a +:+ b) = String.substring 0 n b.
Proof. induction a as [|c a IH]; simpl; [reflexivity|exact IH]. Qed.

Lemma string_length_app (a b : string) :
  String.length (a +:+ b) = (String.length a + String.length b)%nat.
Proof. induction a as [|c a IH]; simpl; [reflexivity|]. now rewrite IH. Qed.

Lemma string_prefix_empty (s : string) : String.prefix "" s = true.
Proof. destruct s; reflexivity. Qed.

Lemma string_prefix_single (c d : ascii) (s : string) :
  String.prefix (String c "") (String d s) = if ascii_dec c d then true else false.
Proof. simpl. destruct (ascii_dec c d); [apply string_prefix_empty|reflexivity]. Qed.

Lemma index_nat_cons (c : ascii) (s : string) :
  index_nat (String c s) "]"
  = if ascii_dec "]" c then Some 0%nat else S <$> index_nat s "]".
Proof.
  change (index_nat (String c s) "]")
    with (if String.prefix "]" (String c s) then Some 0%nat else S <$> index_nat s "]").
  rewrite string_prefix_single. destruct (ascii_dec "]" c); reflexivity.
Qed.

(** The first closing bracket of [a ++ "]" ++ b] sits right after [a] when
    [a] has none. *)
Lemma index_nat_bracket (a b : string) :
  index_nat a "]" = None ->
  index_nat (a +:+ String "]" b) "]" = Some (String.length a).
Proof.
  induction a as [|c a IH]; intros Hn.
  - change ("" +:+ String "]" b) with (String "]" b).
    rewrite index_nat_cons. reflexivity.
  - change (String c a +:+ String "]" b) with (String c (a +:+ String "]" b)).
    rewrite index_nat_cons in Hn |- *.
    destruct (ascii_dec "]" c) as [E|E]; [discriminate Hn|].
    destruct (index_nat a "]") eqn:Ha; [discriminate Hn|].
    rewrite IH by reflexivity. reflexivity.
Qed.

Lemma string_append_assoc (a b c : string) : (a +:+ b) +:+ c = a +:+ (b +:+ c).
Proof.
  induction a as [|x a IH]; [reflexivity|].
  change (String x ((a +:+ b) +:+ c) = String x (a +:+ b +:+ c)).
  f_equal. exact IH.
Qed.

Lemma Contains_false_index_nat (s sub : string) :
  Contains s sub = false -> index_nat s sub = None.
Proof.
  unfold Contains, Index. destruct (index_nat s sub) as [n|]; [|reflexivity].
  intros H. apply Z.leb_gt in H. lia.
Qed.

Lemma Index_normalized (rmID name : string) :
  Contains rmID "]" = false ->
  Index ("[" +:+ rmID +:+ "]" +:+ name) "]" = Z.of_nat (S (String.length rmID)).
Proof.
  intros H. apply Contains_false_index_nat in H.
  unfold Index.
  change ("[" +:+ rmID +:+ "]" +:+ name) with (String "[" (rmID +:+ String "]" name)).
  rewrite index_nat_cons.
  destruct (ascii_dec "]" "[") as [E|_]; [discriminate E|].
  rewrite index_nat_bracket by exact H. reflexivity.
Qed.

(** C9: for an rmID without closing bracket and a partition name that does
    not start with an opening bracket, the rmID read back from the
    normalised name is the rmID given, and the name read back is the name
    given, or default when the name given is empty. *)
Theorem partition_name_round_trip (name rmID : string) :
  Contains rmID "]" = false ->
  HasPrefix name "[" = false ->
  GetRMIdFromPartitionName (GetNormalizedPartitionName name rmID) = rmID /\
  GetPartitionNameWithoutClusterID (GetNormalizedPartitionName name rmID)
    = (if String.eqb name "" then "default" else name).
Proof.
  intros Hrm Hname.
  unfold GetNormalizedPartitionName.
  set (name' := if String.eqb name "" then "default"%string else name).
  assert (Hp : HasPrefix name' "[" = false).
  { subst name'. destruct (String.eqb name ""); [reflexivity|exact Hname]. }
  rewrite Hp.
  unfold GetRMIdFromPartitionName, GetPartitionNameWithoutClusterID.
  rewrite Index_normalized by exact Hrm.
  replace (0 <? Z.of_nat (S (String.length rmID))) with true
    by (symmetry; apply Z.ltb_lt; lia).
  split.
  - unfold slice.
    replace (Z.to_nat (Z.of_nat (S (String.length rmID)) - 1)) with (String.length rmID) by lia.
    change (Z.to_nat 1) with 1%nat.
    change ("[" +:+ rmID +:+ "]" +:+ name') with (String "[" (rmID +:+ String "]" name')).
    cbn [String.substring]. apply substring_app_l.
  - unfold slice_from, slice.
    assert (Hlen : String.length ("[" +:+ rmID +:+ "]") = S (S (String.length rmID))).
    { change ("[" +:+ rmID +:+ "]") with (String "[" (rmID +:+ "]")).
      cbn [String.length]. rewrite string_length_app. simpl. lia. }
    replace ("[" +:+ rmID +:+ "]" +:+ name') with (("[" +:+ rmID +:+ "]") +:+ name')
      by (rewrite !string_append_assoc; reflexivity).
    replace (Z.to_nat (Z.of_nat (S (String.length rmID)) + 1))
      with (String.length ("[" +:+ rmID +:+ "]")) by (rewrite Hlen; lia).
    rewrite substring_app_r.
    match goal with |- String.substring 0 ?n name' = _ =>
      replace n with (String.length name') end.
    + apply substring_all.
    + rewrite string_length_app, Hlen. lia.
Qed.

(** The hypotheses of the round trip hold for a plain rmID and name. *)
Lemma partition_name_round_trip_witness :
  GetRMIdFromPartitionName (GetNormalizedPartitionName "gpu" "rm-123") = "rm-123"%string /\
  GetPartitionNameWithoutClusterID (GetNormalizedPartitionName "gpu" "rm-123")
    = (if String.eqb "gpu" "" then "default" else "gpu")%string.
Proof.
  apply (partition_name_round_trip "gpu" "rm-123"); reflexivity.
Defined.

End PartitionNameProperties.

(** ** The configuration checksum *)

Section ChecksumProperties.
Import configs configs_cases.

(** The digests of the empty message and of abc, as FIPS 180-4 gives them. *)
Example Sum256_empty :
  sha256.Sum256 []
  = bytesOfZ [227; 176; 196; 66; 152; 252; 28; 20; 154; 251; 244; 200; 153; 111; 185; 36;
              39; 174; 65; 228; 100; 155; 147; 76; 164; 149; 153; 27; 120; 82; 184; 85].
Proof. vm_compute. reflexivity. Qed.

Example Sum256_abc :
  sha256.Sum256 (list_byte_of_string "abc")
  = bytesOfZ [186; 120; 22; 191; 143; 1; 207; 234; 65; 65; 64; 222; 93; 174; 34; 35;
              176; 3; 97; 163; 150; 23; 122; 156; 180; 16; 255; 97; 242; 0; 21; 173].
Proof. vm_compute. reflexivity. Qed.

Lemma bigEndian_length (n : nat) (x : Z) : length (sha256.bigEndian n x) = n.
Proof. induction n as [|n IH]; simpl; [reflexivity|]. now rewrite IH. Qed.

Lemma Sum256_length (msg : list byte) : length (sha256.Sum256 msg) = 32%nat.
Proof.
  unfold sha256.Sum256, sha256.digestBytes.
  rewrite !length_app, !bigEndian_length. reflexivity.
Qed.

(** The digest a SHA-256 checksum of the sample would be. *)
Example Sum256_sample_content :
  sha256.Sum256 sample_content
  = bytesOfZ [218; 181; 24; 160; 80; 155; 37; 242; 25; 24; 92; 238; 93; 41; 226; 75;
              166; 167; 141; 141; 22; 67; 238; 36; 88; 250; 106; 191; 231; 180; 16; 253].
Proof. vm_compute. reflexivity. Qed.

(** C8 (what the code does): the checksum of an accepted configuration is
    the input itself followed by the SHA-256 digest of the empty message,
    because nothing is written to the hash before [Sum] is asked for; for a
    non-empty input it is therefore not the SHA-256 digest of the input. *)
Theorem LoadSchedulerConfigFromByteArray_checksum {PartitionConfig : Type}
    (Unmarshal : list byte -> SchedulerConfig PartitionConfig
                 -> option (SchedulerConfig PartitionConfig))
    (Validate : SchedulerConfig PartitionConfig -> option (SchedulerConfig PartitionConfig))
    (content : list byte) (conf : SchedulerConfig PartitionConfig) :
  LoadSchedulerConfigFromByteArray Unmarshal Validate content = inl conf ->
  Checksum conf = content ++ sha256.Sum256 [] /\
  (content <> [] -> Checksum conf <> sha256.Sum256 content).
Proof.
  unfold LoadSchedulerConfigFromByteArray. intros H.
  destruct (Unmarshal content _) as [c1|]; [|discriminate H].
  destruct (Validate c1) as [c2|]; [|discriminate H].
  inversion H; subst conf; clear H. simpl.
  split; [reflexivity|].
  intros Hne Heq. apply (f_equal (@length byte)) in Heq.
  unfold sha256.Sum, sha256.New in Heq; simpl in Heq.
  rewrite length_app, !Sum256_length in Heq.
  destruct content; [contradiction|simpl in Heq; lia].
Qed.

(** The sample configuration is accepted, and its checksum is the sample
    followed by the digest of the empty message. *)
Lemma LoadSchedulerConfigFromByteArray_checksum_witness :
  Checksum (mkSchedulerConfig ["default"%string] (sample_content ++ sha256.Sum256 []))
    = sample_content ++ sha256.Sum256 [] /\
  (sample_content <> [] ->
   Checksum (mkSchedulerConfig ["default"%string] (sample_content ++ sha256.Sum256 []))
     <> sha256.Sum256 sample_content).
Proof.
  apply (LoadSchedulerConfigFromByteArray_checksum sample_Unmarshal sample_Validate
           sample_content).
  reflexivity.
Defined.

End ChecksumProperties.

(** ** The state-aware filter *)

Section StateAwareProperties.
Import defaults defaults_cases.

Lemma isState_Starting_not_Accepted (a : Application) :
  isState "Starting" a = true -> isState "Accepted" a = false.
Proof.
  unfold isState. intros H%String.eqb_eq. rewrite H. reflexivity.
Qed.

Lemma In_snoc {A : Type} (b x : A) (l : list A) : In b (l ++ [x]) <-> In b l \/ b = x.
Proof. rewrite in_app_iff. simpl. intuition. Qed.

(** Keeping the accepted application when the range moves on to an
    application that is no accepted one with pending resources. *)
Lemma accepted_inv_skip (seen : list Application) (acc : option Application)
    (app : Application) :
  isState "Accepted" app && hasPending app = false ->
  match acc with
  | None => forall b, In b seen -> isState "Accepted" b = true -> hasPending b = false
  | Some a =>
      In a seen /\ isState "Accepted" a = true /\ hasPending a = true /\
      forall b, In b seen -> isState "Accepted" b = true -> hasPending b = true ->
                GetSubmissionTime a <= GetSubmissionTime b
  end ->
  match acc with
  | None => forall b, In b (seen ++ [app]) -> isState "Accepted" b = true -> hasPending b = false
  | Some a =>
      In a (seen ++ [app]) /\ isState "Accepted" a = true /\ hasPending a = true /\
      forall b, In b (seen ++ [app]) -> isState "Accepted" b = true -> hasPending b = true ->
                GetSubmissionTime a <= GetSubmissionTime b
  end.
Proof.
  intros Hskip H. destruct acc as [a|].
  - destruct H as (Hin & Hia & Hip & Hmin).
    split; [apply In_snoc; left; exact Hin|]. split; [exact Hia|]. split; [exact Hip|].
    intros b [Hb| ->]%In_snoc Hba Hbp; [exact (Hmin b Hb Hba Hbp)|].
    rewrite Hba, Hbp in Hskip. discriminate.
  - intros b [Hb| ->]%In_snoc Hba; [exact (H b Hb Hba)|].
    rewrite Hba in Hskip. simpl in Hskip. exact Hskip.
Qed.

Lemma stateAwareBody_inv (seen : list Application) (v : filterVars) (app : Application) :
  filterVars_inv seen v -> filterVars_inv (seen ++ [app]) (stateAwareBody v app).
Proof.
  intros (Hf & Hs & Hst & Hacc).
  destruct v as [fl acc fs]. simpl in Hf, Hs, Hst, Hacc. subst fl fs.
  unfold filterVars_inv, stateAwareBody.
  rewrite List.filter_app, existsb_app. simpl List.filter. simpl existsb.
  rewrite orb_false_r.
  fold (isState "Starting" app) (isState "Accepted" app) (hasPending app).
  destruct (isState "Starting" app) eqn:Es.
  - (* a starting application: the accepted one is dropped for good *)
    rewrite (isState_Starting_not_Accepted _ Es), orb_true_r.
    destruct (hasPending app); simpl; rewrite ?app_nil_r;
      (split; [reflexivity|split; [reflexivity|split; [reflexivity|discriminate]]]).
  - rewrite orb_false_r. cbv beta iota.
    destruct (hasPending app) eqn:Ep.
    + destruct (isState "Accepted" app) eqn:Ea.
      * (* an accepted application with pending resources *)
        cbn [andb negb filteredApps acceptedApp foundStarting]. rewrite app_nil_r.
        destruct (existsb (isState "Starting") seen) eqn:Efs.
        { cbn [andb negb filteredApps acceptedApp foundStarting].
          split; [reflexivity|]. split; [reflexivity|]. split; [exact Hst|discriminate]. }
        specialize (Hacc eq_refl). clear Hst.
        cbn [andb negb].
        destruct acc as [a|].
        { destruct Hacc as (Hin & Hia & Hip & Hmin).
          destruct (After (GetSubmissionTime a) (GetSubmissionTime app)) eqn:Eaf;
            unfold After in Eaf; cbn [filteredApps acceptedApp foundStarting].
          - apply Z.ltb_lt in Eaf.
            split; [reflexivity|]. split; [reflexivity|]. split; [discriminate|]. intros _.
            split; [apply In_snoc; right; reflexivity|].
            split; [exact Ea|]. split; [exact Ep|].
            intros b [Hb| ->]%In_snoc Hba Hbp; [|lia].
            specialize (Hmin b Hb Hba Hbp). lia.
          - apply Z.ltb_ge in Eaf.
            split; [reflexivity|]. split; [reflexivity|]. split; [discriminate|]. intros _.
            split; [apply In_snoc; left; exact Hin|].
            split; [exact Hia|]. split; [exact Hip|].
            intros b [Hb| ->]%In_snoc Hba Hbp; [exact (Hmin b Hb Hba Hbp)|lia]. }
        { cbn [filteredApps acceptedApp foundStarting].
          split; [reflexivity|]. split; [reflexivity|]. split; [discriminate|]. intros _.
          split; [apply In_snoc; right; reflexivity|].
          split; [exact Ea|]. split; [exact Ep|].
          intros b [Hb| ->]%In_snoc Hba Hbp; [|lia].
          rewrite (Hacc b Hb Hba) in Hbp. discriminate. }
      * (* any other application with pending resources joins the list *)
        cbn [andb negb filteredApps acceptedApp foundStarting].
        split; [reflexivity|]. split; [reflexivity|]. split; [exact Hst|].
        intros Hfs. apply accepted_inv_skip; [rewrite Ea; reflexivity|exact (Hacc Hfs)].
    + (* no pending resources: nothing changes *)
      cbn [andb negb filteredApps acceptedApp foundStarting]. rewrite app_nil_r.
      split; [reflexivity|]. split; [reflexivity|]. split; [exact Hst|].
      intros Hfs. apply accepted_inv_skip; [rewrite Ep; apply andb_false_r|exact (Hacc Hfs)].
Qed.

Lemma stateAware_loop_inv (apps : list Application) :
  filterVars_inv apps (fold_left stateAwareBody apps (mkFilterVars [] None false)).
Proof.
  induction apps as [|app apps IH] using rev_ind.
  - simpl. repeat split; auto. intros _ b [].
  - rewrite fold_left_app. simpl. apply stateAwareBody_inv. exact IH.
Qed.

Lemma filter_accepted_of_others (l : list Application) :
  List.filter (isState "Accepted")
    (List.filter (fun a => hasPending a && negb (isState "Accepted" a)) l) = [].
Proof.
  induction l as [|a l IH]; simpl; [reflexivity|].
  destruct (hasPending a), (isState "Accepted" a) eqn:E; simpl; rewrite ?E; exact IH.
Qed.

Lemma filter_others_of_others (l : list Application) :
  List.filter (fun a => negb (isState "Accepted" a))
    (List.filter (fun a => hasPending a && negb (isState "Accepted" a)) l)
  = List.filter (fun a => hasPending a && negb (isState "Accepted" a)) l.
Proof.
  induction l as [|a l IH]; simpl; [reflexivity|].
  destruct (hasPending a), (isState "Accepted" a) eqn:E; simpl; rewrite ?E; simpl;
    rewrite ?IH; reflexivity.
Qed.

(** The bound of one candidate that is not running fails on the code: two
    starting applications are both candidates. *)
Lemma at_most_one_not_running_refuted : ~ at_most_one_not_running.
Proof.
  intros H.
  specialize (H [starting_app "app-1" 1; starting_app "app-2" 2]).
  vm_compute in H. lia.
Qed.

Lemma not_running_others_le_starting (l : list Application) :
  forallb schedulableState l = true ->
  (length (List.filter (fun a => negb (isState "Running" a))
            (List.filter (fun a => hasPending a && negb (isState "Accepted" a)) l))
   <= length (List.filter (isState "Starting") l))%nat.
Proof.
  induction l as [|a l IH]; simpl; [lia|].
  intros [Ha Hl]%andb_true_iff. specialize (IH Hl).
  unfold schedulableState in Ha.
  destruct (hasPending a), (isState "Accepted" a) eqn:Ea,
           (isState "Starting" a) eqn:Es, (isState "Running" a) eqn:Er;
    simpl in Ha |- *; rewrite ?Er; simpl; try discriminate Ha; lia.
Qed.

Lemma no_starting_filter (l : list Application) :
  existsb (isState "Starting") l = false -> List.filter (isState "Starting") l = [].
Proof.
  induction l as [|a l IH]; simpl; [reflexivity|].
  intros [Ha Hl]%orb_false_iff. rewrite Ha. exact (IH Hl).
Qed.

(** What the filter returns, whatever the order of the range: at most one
    application in the Accepted state and none when an application of the
    input is Starting; without a Starting application the Accepted one
    returned has pending resources and is no younger than any Accepted
    application with pending resources; every application in another state
    that has pending resources is returned; nothing without pending
    resources is returned; and when the applications are all Accepted,
    Starting or Running with at most one of them Starting, at most one
    candidate is not Running. *)
Lemma StateAwareFilter_returns (apps : list Application) :
  (length (List.filter (isState "Accepted") (StateAwareFilter apps)) <= 1)%nat /\
  (existsb (isState "Starting") apps = true ->
     forall b, In b (StateAwareFilter apps) -> isState "Accepted" b = false) /\
  (existsb (isState "Starting") apps = false ->
     forall b, In b apps -> isState "Accepted" b = true -> hasPending b = true ->
       exists a, In a (StateAwareFilter apps) /\ isState "Accepted" a = true /\
                 GetSubmissionTime a <= GetSubmissionTime b) /\
  List.filter (fun a => negb (isState "Accepted" a)) (StateAwareFilter apps)
    = List.filter (fun a => hasPending a && negb (isState "Accepted" a)) apps /\
  (forall a, In a (StateAwareFilter apps) -> In a apps /\ hasPending a = true) /\
  (forallb schedulableState apps = true ->
   (length (List.filter (isState "Starting") apps) <= 1)%nat ->
   (length (List.filter (fun a => negb (isState "Running" a)) (StateAwareFilter apps))
    <= 1)%nat).
Proof.
  unfold StateAwareFilter.
  destruct (stateAware_loop_inv apps) as (Hf & Hs & Hst & Hacc).
  destruct (fold_left stateAwareBody apps (mkFilterVars [] None false)) as [fl acc fs].
  simpl in Hf, Hs, Hst, Hacc |- *. subst fl fs.
  pose proof (not_running_others_le_starting apps) as Hnr.
  set (others := List.filter (fun a => hasPending a && negb (isState "Accepted" a)) apps)
    in *.
  assert (Hothers : forall a, In a others -> In a apps /\ hasPending a = true
                                             /\ isState "Accepted" a = false).
  { intros a [Hin Hp]%filter_In. apply andb_true_iff in Hp as [Hp Ha].
    apply negb_true_iff in Ha. auto. }
  destruct (existsb (isState "Starting") apps) eqn:Efs.
  - rewrite (Hst eq_refl).
    split; [unfold others; rewrite filter_accepted_of_others; simpl; lia|].
    split; [intros _ b Hb; apply (Hothers b Hb)|].
    split; [discriminate|].
    split; [apply filter_others_of_others|].
    split; [intros a Ha; split; apply (Hothers a Ha)|].
    intros Hall Hone. specialize (Hnr Hall). lia.
  - specialize (Hacc eq_refl). clear Hst.
    apply no_starting_filter in Efs.
    destruct acc as [a0|].
    + destruct Hacc as (Hin & Hia & Hip & Hmin).
      split.
      { rewrite List.filter_app. unfold others. rewrite filter_accepted_of_others.
        simpl. rewrite Hia. simpl. lia. }
      split; [discriminate|].
      split.
      { intros _ b Hb Hba Hbp. exists a0.
        split; [apply In_snoc; right; reflexivity|].
        split; [exact Hia|exact (Hmin b Hb Hba Hbp)]. }
      split.
      { rewrite List.filter_app. simpl. rewrite Hia. simpl. rewrite app_nil_r.
        apply filter_others_of_others. }
      split; [intros a [Ha| ->]%In_snoc; [split; apply (Hothers a Ha)|auto]|].
      intros Hall _. specialize (Hnr Hall). rewrite Efs in Hnr. simpl in Hnr.
      rewrite List.filter_app, length_app. simpl.
      destruct (negb (isState "Running" a0)); simpl; lia.
    + split; [unfold others; rewrite filter_accepted_of_others; simpl; lia|].
      split; [discriminate|].
      split.
      { intros _ b Hb Hba Hbp. rewrite (Hacc b Hb Hba) in Hbp. discriminate. }
      split; [apply filter_others_of_others|].
      split; [intros a Ha; split; apply (Hothers a Ha)|].
      intros Hall _. specialize (Hnr Hall). rewrite Efs in Hnr. simpl in Hnr. lia.
Qed.

(** C4 (what the code does): the loop limits the Accepted applications
    only.  Whatever the input and the order of the range, the filter
    returns at most one Accepted application, none while an application of
    the input is Starting, and otherwise one that is no younger than any
    Accepted application with pending resources; but it returns every
    Starting application that has pending resources.  Two Starting
    applications with pending resources are therefore both candidates: two
    candidates are not running, where the filter is documented to allow
    one. *)
Theorem StateAwareFilter_starting_not_limited :
  (forall apps,
     (length (List.filter (isState "Accepted") (StateAwareFilter apps)) <= 1)%nat /\
     (existsb (isState "Starting") apps = true ->
        forall b, In b (StateAwareFilter apps) -> isState "Accepted" b = false) /\
     (existsb (isState "Starting") apps = false ->
        forall b, In b apps -> isState "Accepted" b = true -> hasPending b = true ->
          exists a, In a (StateAwareFilter apps) /\ isState "Accepted" a = true /\
                    GetSubmissionTime a <= GetSubmissionTime b) /\
     (forall a, In a apps -> isState "Starting" a = true -> hasPending a = true ->
        In a (StateAwareFilter apps))) /\
  StateAwareFilter [starting_app "app-1" 1; starting_app "app-2" 2]
    = [starting_app "app-1" 1; starting_app "app-2" 2] /\
  length (List.filter (fun a => negb (isState "Running" a))
            (StateAwareFilter [starting_app "app-1" 1; starting_app "app-2" 2])) = 2%nat /\
  ~ at_most_one_not_running.
Proof.
  split; [|split; [|split]].
  - intros apps.
    destruct (StateAwareFilter_returns apps) as (H1 & H2 & H3 & H4 & _).
    split; [exact H1|]. split; [exact H2|]. split; [exact H3|].
    intros a Hin Hs Hp.
    assert (Ha : isState "Accepted" a = false)
      by (apply isState_Starting_not_Accepted; exact Hs).
    assert (Hf : In a (List.filter (fun a => negb (isState "Accepted" a))
                         (StateAwareFilter apps))).
    { rewrite H4. apply filter_In. split; [exact Hin|]. now rewrite Hp, Ha. }
    apply filter_In in Hf as [Hf _]. exact Hf.
  - vm_compute. reflexivity.
  - vm_compute. reflexivity.
  - intros H. specialize (H [starting_app "app-1" 1; starting_app "app-2" 2]).
    vm_compute in H. lia.
Qed.

(** The scenario of the specification: A starting, B and C accepted with B
    the older one.  Only A is a candidate while it is starting; once A runs,
    A and B are. *)
Example StateAwareFilter_scenario :
  let A st := mkApplication "A" st {[ "memory" := 10 ]} 30 in
  let B := mkApplication "B" "Accepted" {[ "memory" := 10 ]} 10 in
  let C := mkApplication "C" "Accepted" {[ "memory" := 10 ]} 20 in
  StateAwareFilter [C; A "Starting"; B] = [A "Starting"] /\
  StateAwareFilter [C; A "Running"; B] = [A "Running"; B].
Proof. vm_compute. split; reflexivity. Qed.

End StateAwareProperties.

(** ** The sortable linked map *)

Section SortableLinkedMapProperties.
Import maps maps_cases.

(** Without the update the cursor is where the documentation puts it. *)
Example GetFirstMatched_before_update :
  let slm := snd (Put "k2" 2 (snd (Put "k1" 1 sample_map))) in
  getEntryItems slm (fun e => (key e, value e)) = [("k1"%string, 1); ("k2"%string, 2)] /\
  GetFirstMatched slm = Some ("k2"%string, 2) /\
  firstMatchedInOrder slm = Some ("k2"%string, 2).
Proof. vm_compute. repeat split; reflexivity. Qed.

(** C5 (what the code does): after k1 is put again with the value 4 the
    linked entries are k1 with 4, then k2 with 2; the first entry in that
    order with an even value is k1, but the cursor still answers k2. *)
Theorem GetFirstMatched_after_update :
  getEntryItems sample_map_updated (fun e => (key e, value e))
    = [("k1"%string, 4); ("k2"%string, 2)] /\
  firstMatchedInOrder sample_map_updated = Some ("k1"%string, 4) /\
  GetFirstMatched sample_map_updated = Some ("k2"%string, 2) /\
  GetFirstMatched sample_map_updated <> firstMatchedInOrder sample_map_updated.
Proof. vm_compute. repeat split; try reflexivity. discriminate. Qed.

(** The cursor is not the matching entry that sorts first either: when the
    entry under the cursor is put again with a larger value that still
    matches, the cursor stays although the other matching entry now sorts
    before it. *)
Example GetFirstMatched_not_least_in_sort_order :
  let slm := snd (Put "k1" 6 (snd (Put "k2" 4 (snd (Put "k1" 2 sample_map))))) in
  getEntryItems slm (fun e => (key e, value e)) = [("k1"%string, 6); ("k2"%string, 4)] /\
  GetFirstMatched slm = Some ("k1"%string, 6).
Proof. vm_compute. split; reflexivity. Qed.

(** [Remove] of the entry under the cursor moves the cursor on to the next
    matching entry, and to nil when there is none. *)
Example GetFirstMatched_after_remove :
  let slm := snd (Put "k3" 4 (snd (Put "k2" 3 (snd (Put "k1" 2 sample_map))))) in
  GetFirstMatched slm = Some ("k1"%string, 2) /\
  GetFirstMatched (snd (Remove "k1" slm)) = Some ("k3"%string, 4) /\
  GetFirstMatched (snd (Remove "k3" (snd (Remove "k1" slm)))) = None /\
  Keys (snd (Remove "k1" slm)) = ["k2"%string; "k3"%string].
Proof. vm_compute. repeat split; reflexivity. Qed.

End SortableLinkedMapProperties.

(** ** The partition context: rejected proposals *)

Section PartitionProperties.
Import scheduler scheduler_cases.

Lemma SubErrorNegative_clamped (l r : Resource) :
  decreased_clamped l r (fst (resources.SubErrorNegative l r)).
Proof.
  intros t. unfold resources.SubErrorNegative, resources.Sub, resources.quantity. simpl.
  rewrite lookup_fmap, lookup_merge.
  destruct (l !! t), (r !! t); simpl; try reflexivity.
Qed.

(** Without drift, that is when [old] holds at least [delta] of every type,
    the clamped decrease is the exact one. *)
Lemma decreased_clamped_exact (old delta new : Resource) :
  (forall t, resources.quantity delta t <= resources.quantity old t) ->
  decreased_clamped old delta new -> decreased_exact old delta new.
Proof. intros Hfit Hc t. rewrite (Hc t). specialize (Hfit t). lia. Qed.

Lemma app_decAllocatingResource_allocating (delta : Resource) (sa : SchedulingApplication) :
  appAllocating (app_decAllocatingResource delta sa)
  = fst (resources.SubErrorNegative (appAllocating sa) delta).
Proof. reflexivity. Qed.

Lemma queue_decAllocatingResource_allocating (delta : Resource) (sq : SchedulingQueue) :
  queueAllocating (queue_decAllocatingResource delta sq)
  = fst (resources.SubErrorNegative (queueAllocating sq) delta).
Proof. destruct sq; reflexivity. Qed.

Lemma decAllocatingResource_allocating (delta : Resource) (sn : schedulingNode) :
  allocating (decAllocatingResource delta sn)
  = fst (resources.SubErrorNegative (allocating sn) delta).
Proof. reflexivity. Qed.

(** The ancestors of the queue are decremented as well, up to the root. *)
Lemma queue_decAllocatingResource_parent (delta : Resource) (sq : SchedulingQueue) :
  parent (queue_decAllocatingResource delta sq)
  = queue_decAllocatingResource delta <$> parent sq.
Proof. destruct sq as [n a p [q|]]; reflexivity. Qed.

(** C2, as stated, fails: with nothing counted as allocating, the rejected
    proposal leaves the counters at zero instead of 10 below. *)
Lemma reject_decreases_exactly_refuted : ~ reject_decreases_exactly.
Proof.
  intros H.
  destruct (H sample_partition sample_proposal (sample_app "app-1") sample_node
              (sample_ask "app-1"))
    as (app' & node' & ask' & Ha & Hn & _ & Hd & _).
  - vm_compute. reflexivity.
  - vm_compute. reflexivity.
  - vm_compute. reflexivity.
  - vm_compute. reflexivity.
  - specialize (Hd "memory"%string).
    vm_compute in Ha. injection Ha as <-.
    vm_compute in Hd. discriminate Hd.
Qed.

(** C2, amended: when the application and the node of the proposal exist,
    rejecting it takes the proposed resource, if it is not zero, off the
    allocating resource of the application, of its queue and of the node,
    each clamped at zero per resource type, and leaves them alone if it is
    zero; the pending repeat of the ask goes up by exactly 1 when the
    application still has the ask, and the asks stay as they are when it has
    not. *)
Theorem confirmAllocation_reject (psc : partitionSchedulingContext)
    (p : AllocationProposal) (app : SchedulingApplication) (node : schedulingNode) :
  applications psc !! propApplicationID p = Some app ->
  nodes psc !! propNodeID p = Some node ->
  exists app' node',
    applications (snd (confirmAllocation p false psc)) !! propApplicationID p = Some app' /\
    nodes (snd (confirmAllocation p false psc)) !! propNodeID p = Some node' /\
    (if resources.IsZero (propAllocatedResource p)
     then appAllocating app' = appAllocating app /\
          queueAllocating (queue app') = queueAllocating (queue app) /\
          allocating node' = allocating node
     else decreased_clamped (appAllocating app) (propAllocatedResource p)
                            (appAllocating app') /\
          decreased_clamped (queueAllocating (queue app)) (propAllocatedResource p)
                            (queueAllocating (queue app')) /\
          decreased_clamped (allocating node) (propAllocatedResource p)
                            (allocating node')) /\
    match requests app !! propAllocationKey p with
    | Some ask =>
        exists ask', requests app' !! propAllocationKey p = Some ask' /\
                     pendingRepeatAsk ask' = pendingRepeatAsk ask + 1 /\
                     AllocatedResource ask' = AllocatedResource ask
    | None => requests app' = requests app
    end.
Proof.
  intros Happ Hnode. unfold confirmAllocation. rewrite Happ, Hnode.
  set (delta := propAllocatedResource p).
  destruct (resources.IsZero delta) eqn:Ez; cbn [negb].
  - (* a zero resource: only the repeat is given back *)
    unfold updateAskRepeat.
    destruct (requests app !! propAllocationKey p) as [ask|] eqn:Eask; simpl.
    + eexists _, node. rewrite lookup_insert_eq. split; [reflexivity|].
      rewrite lookup_insert_eq. split; [reflexivity|].
      simpl. destruct (queue app); simpl.
      split; [auto|].
      eexists. rewrite lookup_insert_eq. split; [reflexivity|]. simpl. auto.
    + exists app, node. rewrite !lookup_insert_eq. repeat split; reflexivity.
  - unfold updateAskRepeat. simpl.
    destruct (requests app !! propAllocationKey p) as [ask|] eqn:Eask; simpl.
    + eexists _, _. rewrite lookup_insert_eq. split; [reflexivity|].
      rewrite lookup_insert_eq. split; [reflexivity|].
      simpl. split.
      * split; [apply SubErrorNegative_clamped|].
        split; [|apply SubErrorNegative_clamped].
        destruct (queue app) as [qn qa qp qpar]; simpl.
        apply SubErrorNegative_clamped.
      * eexists. rewrite lookup_insert_eq. split; [reflexivity|]. simpl. auto.
    + eexists _, _. rewrite lookup_insert_eq. split; [reflexivity|].
      rewrite lookup_insert_eq. split; [reflexivity|].
      simpl. split; [|reflexivity].
      split; [apply SubErrorNegative_clamped|].
      split; [|apply SubErrorNegative_clamped].
      destruct (queue app) as [qn qa qp qpar]; simpl.
      apply SubErrorNegative_clamped.
Qed.

(** The hypotheses hold for the sample partition and proposal. *)
Lemma confirmAllocation_reject_witness :
  exists app' node',
    applications (snd (confirmAllocation sample_proposal false sample_partition))
      !! propApplicationID sample_proposal = Some app' /\
    nodes (snd (confirmAllocation sample_proposal false sample_partition))
      !! propNodeID sample_proposal = Some node' /\
    (if resources.IsZero (propAllocatedResource sample_proposal)
     then appAllocating app' = appAllocating (sample_app "app-1") /\
          queueAllocating (queue app') = queueAllocating (queue (sample_app "app-1")) /\
          allocating node' = allocating sample_node
     else decreased_clamped (appAllocating (sample_app "app-1"))
                            (propAllocatedResource sample_proposal) (appAllocating app') /\
          decreased_clamped (queueAllocating (queue (sample_app "app-1")))
                            (propAllocatedResource sample_proposal)
                            (queueAllocating (queue app')) /\
          decreased_clamped (allocating sample_node)
                            (propAllocatedResource sample_proposal) (allocating node')) /\
    match requests (sample_app "app-1") !! propAllocationKey sample_proposal with
    | Some ask =>
        exists ask', requests app' !! propAllocationKey sample_proposal = Some ask' /\
                     pendingRepeatAsk ask' = pendingRepeatAsk ask + 1 /\
                     AllocatedResource ask' = AllocatedResource ask
    | None => requests app' = requests (sample_app "app-1")
    end.
Proof.
  apply (confirmAllocation_reject sample_partition sample_proposal
           (sample_app "app-1") sample_node); vm_compute; reflexivity.
Defined.

End PartitionProperties.

(** ** Further properties of the node, the partition and the names *)

Section FurtherProperties.
Import scheduler scheduler_cases common objects defaults.

Lemma reservation_key_not_empty (a k : string) :
  String.eqb (a +:+ "|" +:+ k) "" = false.
Proof. destruct a; reflexivity. Qed.

(** X1: on a node without reservation, [unReserve] undoes [reserve]: the
    reservation made for an application and an ask that fits is found and
    removed, and the node is without reservation again. *)
Theorem reserve_then_unReserve (sn : schedulingNode)
    (a : SchedulingApplication) (k : schedulingAllocationAsk) :
  reservations sn = ∅ ->
  cache.FitInNode (nodeInfo sn) (AllocatedResource k) = true ->
  fst (unReserve (Some a) (Some k) (snd (reserve (Some a) (Some k) sn))) = (true, None) /\
  reservations (snd (unReserve (Some a) (Some k) (snd (reserve (Some a) (Some k) sn)))) = ∅.
Proof.
  intros He Hfit.
  destruct (reserve_single_node_empty sn a k He Hfit) as [_ Hres].
  unfold unReserve. cbn [reservationKey].
  rewrite reservation_key_not_empty, Hres, lookup_singleton_eq. cbn [fst snd reservations set_reservations].
  split; [reflexivity|]. apply delete_singleton_eq.
Qed.

Lemma reserve_then_unReserve_witness :
  fst (unReserve (Some (sample_app "app-1")) (Some (sample_ask "app-1"))
         (snd (reserve (Some (sample_app "app-1")) (Some (sample_ask "app-1")) sample_node)))
    = (true, None) /\
  reservations
    (snd (unReserve (Some (sample_app "app-1")) (Some (sample_ask "app-1"))
            (snd (reserve (Some (sample_app "app-1")) (Some (sample_ask "app-1"))
                    sample_node)))) = ∅.
Proof.
  apply (reserve_then_unReserve sample_node (sample_app "app-1") (sample_ask "app-1"));
    vm_compute; reflexivity.
Defined.

(** X2: a proposal whose application or node is gone is answered with an error
    and changes nothing in the partition, whether it is confirmed or
    rejected. *)
Theorem confirmAllocation_missing_entity (psc : partitionSchedulingContext)
    (p : AllocationProposal) (confirm : bool) :
  applications psc !! propApplicationID p = None \/ nodes psc !! propNodeID p = None ->
  snd (confirmAllocation p confirm psc) = psc /\
  fst (confirmAllocation p confirm psc) <> None.
Proof.
  intros Hmiss. unfold confirmAllocation.
  destruct (applications psc !! propApplicationID p) as [app|].
  - destruct Hmiss as [Hm|Hm]; [discriminate Hm|]. rewrite Hm. split; [reflexivity|discriminate].
  - split; [reflexivity|discriminate].
Qed.

Lemma confirmAllocation_missing_entity_witness :
  snd (confirmAllocation (mkProposal "node-9" "app-1" "ask-1" ∅) false sample_partition)
    = sample_partition /\
  fst (confirmAllocation (mkProposal "node-9" "app-1" "ask-1" ∅) false sample_partition)
    <> None.
Proof.
  apply (confirmAllocation_missing_entity sample_partition
           (mkProposal "node-9" "app-1" "ask-1" ∅) false).
  right. vm_compute. reflexivity.
Defined.

(** X3: a confirmed proposal whose ask was removed in the meantime is answered
    with the error that names the ask, after the allocating resources were
    decremented; with the ask in place it is answered without error and the
    asks are as they were. *)
Theorem confirmAllocation_confirm (psc : partitionSchedulingContext)
    (p : AllocationProposal) (app : SchedulingApplication) (node : schedulingNode) :
  applications psc !! propApplicationID p = Some app ->
  nodes psc !! propNodeID p = Some node ->
  fst (confirmAllocation p true psc)
    = match requests app !! propAllocationKey p with
      | Some _ => None
      | None => Some (ErrAskRemoved (propApplicationID p) (propAllocationKey p))
      end /\
  exists app',
    applications (snd (confirmAllocation p true psc)) !! propApplicationID p = Some app' /\
    requests app' = requests app.
Proof.
  intros Happ Hnode. unfold confirmAllocation. rewrite Happ, Hnode.
  assert (Hreq : forall d, requests (set_queue (queue_decAllocatingResource d
                              (queue (app_decAllocatingResource d app)))
                              (app_decAllocatingResource d app)) = requests app)
    by reflexivity.
  destruct (resources.IsZero (propAllocatedResource p)); cbn [negb];
    unfold GetSchedulingAllocationAsk; rewrite ?Hreq;
    destruct (requests app !! propAllocationKey p); cbn [fst snd];
    (split; [reflexivity|]); eexists; cbn [applications set_node set_application];
    rewrite lookup_insert_eq; split; reflexivity.
Qed.

Lemma confirmAllocation_confirm_witness :
  fst (confirmAllocation sample_proposal true sample_partition)
    = match requests (sample_app "app-1") !! propAllocationKey sample_proposal with
      | Some _ => None
      | None => Some (ErrAskRemoved (propApplicationID sample_proposal)
                                    (propAllocationKey sample_proposal))
      end /\
  exists app',
    applications (snd (confirmAllocation sample_proposal true sample_partition))
      !! propApplicationID sample_proposal = Some app' /\
    requests app' = requests (sample_app "app-1").
Proof.
  apply (confirmAllocation_confirm sample_partition sample_proposal
           (sample_app "app-1") sample_node); vm_compute; reflexivity.
Defined.

Lemma GetNormalizedPartitionName_prefix (name rmID : string) :
  HasPrefix (GetNormalizedPartitionName name rmID) "[" = true.
Proof.
  unfold GetNormalizedPartitionName.
  destruct (HasPrefix (if String.eqb name "" then "default"%string else name) "[") eqn:Hp;
    [exact Hp|].
  unfold HasPrefix.
  match goal with |- String.prefix _ ("[" +:+ ?r) = _ =>
    change ("[" +:+ r) with (String "[" r) end.
  rewrite string_prefix_single.
  destruct (ascii_dec "[" "["); [reflexivity|contradiction].
Qed.

Lemma GetNormalizedPartitionName_normalized (name rmID : string) :
  HasPrefix name "[" = true -> GetNormalizedPartitionName name rmID = name.
Proof.
  intros Hp. unfold GetNormalizedPartitionName.
  destruct name as [|c name]; [discriminate Hp|].
  cbn [String.eqb]. rewrite Hp. reflexivity.
Qed.

(** X4: normalising a partition name twice is normalising it once: a name that
    is normalised already is handed back as it is, whatever the rmID. *)
Theorem GetNormalizedPartitionName_idempotent (name rmID rmID' : string) :
  GetNormalizedPartitionName (GetNormalizedPartitionName name rmID) rmID'
  = GetNormalizedPartitionName name rmID.
Proof.
  apply GetNormalizedPartitionName_normalized, GetNormalizedPartitionName_prefix.
Qed.

(** X5: Rejected and Deleting are final: every event delivered there is
    refused and the state stays. *)
Theorem final_states_refuse_events (ev : applicationEvent) :
  fsm.Event (appStateAt Rejected) (applicationEvent_String ev)
    = (appStateAt Rejected,
       Some (fsm.InvalidEventError (applicationEvent_String ev)
                                   (applicationState_String Rejected))) /\
  fsm.Event (appStateAt Deleting) (applicationEvent_String ev)
    = (appStateAt Deleting,
       Some (fsm.InvalidEventError (applicationEvent_String ev)
                                   (applicationState_String Deleting))).
Proof. rewrite !Event_appStateAt. destruct ev; split; reflexivity. Qed.

(** X6: [FilterOnPendingResources] keeps, in the order of the range, exactly
    the applications whose pending resource is strictly greater than
    zero. *)
Theorem FilterOnPendingResources_filter (apps : list Application) :
  FilterOnPendingResources apps = List.filter hasPending apps.
Proof.
  unfold FilterOnPendingResources.
  assert (G : forall acc,
            fold_left (fun filteredApps app =>
                         if resources.StrictlyGreaterThanZero (GetPendingResource app)
                         then filteredApps ++ [app] else filteredApps) apps acc
            = acc ++ List.filter hasPending apps).
  { induction apps as [|a apps IH]; intros acc; simpl.
    - now rewrite app_nil_r.
    - rewrite IH. unfold hasPending.
      destruct (resources.StrictlyGreaterThanZero (GetPendingResource a));
        [rewrite <- app_assoc|]; reflexivity. }
  exact (G []).
Qed.

(** X7: [getAvailableResource] answers the available resource of the cache
    node less the allocating resource and remembers it: the node then holds
    that value as its cached value with the update flag cleared, and is
    otherwise as it was; asked again, it gives the same answer and leaves
    the node alone. *)
Theorem getAvailableResource_cached (sn : schedulingNode) :
  cachedAvailableUpdateNeeded sn = true ->
  let avail := resources.Sub (cache.GetAvailableResource (nodeInfo sn)) (allocating sn) in
  let sn' := snd (getAvailableResource sn) in
  fst (getAvailableResource sn) = avail /\
  cachedAvailable sn' = Some avail /\
  cachedAvailableUpdateNeeded sn' = false /\
  sn' = set_cachedAvailableUpdateNeeded false (set_cachedAvailable (Some avail) sn) /\
  getAvailableResource sn' = (avail, sn').
Proof.
  intros Hn. cbv zeta. unfold getAvailableResource. rewrite Hn. cbn.
  repeat split; reflexivity.
Qed.

Lemma getAvailableResource_cached_witness :
  cachedAvailableUpdateNeeded sample_node = true /\
  let avail := resources.Sub (cache.GetAvailableResource (nodeInfo sample_node))
                             (allocating sample_node) in
  let sn' := snd (getAvailableResource sample_node) in
  fst (getAvailableResource sample_node) = avail /\
  cachedAvailable sn' = Some avail /\
  cachedAvailableUpdateNeeded sn' = false /\
  sn' = set_cachedAvailableUpdateNeeded false (set_cachedAvailable (Some avail) sample_node) /\
  getAvailableResource sn' = (avail, sn').
Proof.
  split; [reflexivity|]. apply (getAvailableResource_cached sample_node). reflexivity.
Defined.

End FurtherProperties.

(** ** The sortable linked map: the invariant of its operations *)

Section SortableLinkedMapInvariant.
Import maps maps_invariant.
Context {K V : Type} `{Countable K}.
Local Abbreviation Entry := (SortableLinkedMapEntry K V).
Local Abbreviation SLM := (SortableLinkedMap K V).

(** *** Linked entries in the store *)

Lemma dll_frame (st st' : gmap nat Entry) (l : list nat) (p n : option nat) :
  (forall a, a ∈ l -> st' !! a = st !! a) -> dll st p l n -> dll st' p l n.
Proof.
  revert p. induction l as [|a l IH]; intros p Hag; simpl; [auto|].
  intros (e & He & Hp & Hn & Hd). exists e.
  rewrite Hag by left. repeat split; auto.
  apply IH; [|exact Hd]. intros b Hb. apply Hag. now right.
Qed.

Lemma dll_lookup (st : gmap nat Entry) (l : list nat) (p n : option nat) (a : nat) :
  dll st p l n -> a ∈ l -> is_Some (st !! a).
Proof.
  revert p. induction l as [|b l IH]; intros p Hd Ha.
  - inversion Ha.
  - destruct Hd as (e & He & _ & _ & Hd).
    apply elem_of_cons in Ha as [->|Ha]; [eauto|]. exact (IH _ Hd Ha).
Qed.

Lemma dll_app (st : gmap nat Entry) (l1 l2 : list nat) (p n : option nat) :
  dll st p (l1 ++ l2) n <-> dll st p l1 (next_of l2 n) /\ dll st (prev_of p l1) l2 n.
Proof.
  revert p. induction l1 as [|a l1 IH]; intros p; simpl.
  - unfold prev_of. simpl. tauto.
  - split.
    + intros (e & He & Hp & Hn & Hd). apply IH in Hd as [Hd1 Hd2].
      split.
      * exists e. repeat split; auto.
        destruct l1; simpl in *; [destruct l2; exact Hn|exact Hn].
      * unfold prev_of in *. rewrite last_cons. destruct (last l1); exact Hd2.
    + intros [(e & He & Hp & Hn & Hd1) Hd2]. exists e. repeat split; auto.
      * destruct l1; simpl in *; [destruct l2; exact Hn|exact Hn].
      * apply IH. split; [exact Hd1|].
        unfold prev_of in *. rewrite last_cons in Hd2. destruct (last l1); exact Hd2.
Qed.

Lemma dll_alter_inert (st : gmap nat Entry) (f : Entry -> Entry) (a : nat)
    (l : list nat) (p n : option nat) :
  (forall e, pre (f e) = pre e /\ next (f e) = next e) ->
  dll st p l n -> dll (alter f a st) p l n.
Proof.
  intros Hf. revert p. induction l as [|b l IH]; intros p; simpl; [auto|].
  intros (e & He & Hp & Hn & Hd).
  destruct (decide (a = b)) as [->|Hne].
  - exists (f e). rewrite lookup_alter_eq, He. destruct (Hf e) as [-> ->].
    repeat split; auto.
  - exists e. rewrite lookup_alter_ne by exact Hne. repeat split; auto.
Qed.

Lemma dll_set_head_pre (st : gmap nat Entry) (a : nat) (l : list nat)
    (p p' n : option nat) :
  a ∉ l -> dll st p (a :: l) n -> dll (alter (set_pre p') a st) p' (a :: l) n.
Proof.
  intros Hni (e & He & Hp & Hn & Hd). exists (set_pre p' e).
  rewrite lookup_alter_eq, He. repeat split; auto.
  apply (dll_frame st); [|exact Hd].
  intros b Hb. apply lookup_alter_ne. intros ->. contradiction.
Qed.

Lemma dll_set_last_next (st : gmap nat Entry) (a : nat) (l : list nat)
    (p n n' : option nat) :
  a ∉ l -> dll st p (l ++ [a]) n -> dll (alter (set_next n') a st) p (l ++ [a]) n'.
Proof.
  intros Hni Hd. apply dll_app in Hd as [Hd1 Hd2]. apply dll_app. split.
  - apply (dll_frame st); [|exact Hd1].
    intros b Hb. apply lookup_alter_ne. intros ->. contradiction.
  - destruct Hd2 as (e & He & Hp & Hn & _). exists (set_next n' e).
    rewrite lookup_alter_eq, He. repeat split; auto.
Qed.

(** The element in the middle of the linked entries. *)
Lemma dll_middle (st : gmap nat Entry) (l1 l2 : list nat) (a : nat) (p n : option nat) :
  dll st p (l1 ++ a :: l2) n ->
  exists e, st !! a = Some e /\ pre e = prev_of p l1 /\ next e = next_of l2 n.
Proof.
  intros Hd. apply dll_app in Hd as [_ (e & He & Hp & Hn & _)].
  exists e. repeat split; auto.
Qed.

Lemma NoDup_length_le_size (st : gmap nat Entry) (l : list nat) :
  NoDup l -> (forall a, a ∈ l -> is_Some (st !! a)) -> (length l <= size st)%nat.
Proof.
  revert st. induction l as [|a l IH]; intros st Hnd Hin; simpl; [lia|].
  apply NoDup_cons in Hnd as [Hni Hnd].
  destruct (Hin a) as [e He]; [left|].
  rewrite <- (insert_delete_id st a e) by exact He.
  rewrite map_size_insert_None by apply lookup_delete_eq.
  apply le_n_S, IH; [exact Hnd|].
  intros b Hb. rewrite lookup_delete_ne; [apply Hin; now right|].
  intros ->. contradiction.
Qed.

(** *** The loops that walk the entries *)

Lemma find_loop_spec (slm : SortableLinkedMap K V) (l : list nat) (p : option nat)
    (fuel : nat) :
  dll (store slm) p l None -> (length l < fuel)%nat ->
  findNextMatched_loop fuel slm (hd_error l) = List.find (flagged (store slm)) l.
Proof.
  revert l p. induction fuel as [|fuel IH]; intros l p Hd Hlen; [lia|].
  destruct l as [|a l]; [reflexivity|].
  destruct Hd as (e & He & _ & Hn & Hd). simpl.
  unfold flagged at 1. rewrite He.
  destruct (isMatched e); [reflexivity|].
  rewrite Hn. replace (match l with [] => None | b :: _ => Some b end) with (hd_error l)
    by (destruct l; reflexivity).
  apply (IH l (Some a)); [exact Hd|simpl in Hlen; lia].
Qed.

Lemma findPreEntry_loop_spec (slm : SortableLinkedMap K V) (cmp : V -> V -> bool)
    (v : V) (l : list nat) (n : option nat) (fuel : nat) :
  dll (store slm) None l n -> (length l < fuel)%nat ->
  findPreEntry_loop fuel slm cmp (last l) v true
  = List.find (stops (store slm) cmp v) (rev l).
Proof.
  revert l n. induction fuel as [|fuel IH]; intros l n Hd Hlen; [lia|].
  destruct l as [|b l _] using rev_ind; [reflexivity|].
  rewrite last_snoc, rev_app_distr. simpl.
  apply dll_app in Hd as [Hd1 (e & He & Hp & _ & _)].
  unfold stops at 1. rewrite He.
  destruct (cmp v (value e)); simpl; [|reflexivity].
  rewrite Hp. unfold prev_of. 
  replace (match last l with Some b0 => Some b0 | None => None end) with (last l)
    by (destruct (last l); reflexivity).
  apply (IH l (next_of [b] n)); [exact Hd1|].
  rewrite length_app in Hlen. simpl in Hlen. lia.
Qed.

(** Scanning a list from its end for the last element that satisfies [f]. *)
Lemma find_rev_split {A : Type} (f : A -> bool) (l : list A) :
  match List.find f (rev l) with
  | Some p => exists l1 l2, l = l1 ++ p :: l2 /\ f p = true /\ Forall (fun b => f b = false) l2
  | None => Forall (fun b => f b = false) l
  end.
Proof.
  induction l as [|b l IH] using rev_ind; [constructor|].
  rewrite rev_app_distr. simpl. destruct (f b) eqn:Eb.
  - exists l, []. repeat split; auto.
  - destruct (List.find f (rev l)) as [p|].
    + destruct IH as (l1 & l2 & -> & Hp & Hall). exists l1, (l2 ++ [b]).
      rewrite <- app_assoc. repeat split; auto.
      apply Forall_app. split; [exact Hall|]. constructor; [exact Eb|constructor].
    + apply Forall_app. split; [exact IH|]. constructor; [exact Eb|constructor].
Qed.

(** *** The invariant, on the map as made and as reset *)

Lemma wfl_in_store (slm : SLM) (l : list nat) (a : nat) :
  wfl slm l -> a ∈ l -> is_Some (store slm !! a).
Proof. intros [_ Hd _ _ _] Ha. exact (dll_lookup _ _ _ _ _ Hd Ha). Qed.

Lemma wfl_fuel (slm : SLM) (l : list nat) :
  wfl slm l -> (length l < walkFuel slm)%nat.
Proof.
  intros Hw. unfold walkFuel. apply Nat.lt_succ_r.
  apply NoDup_length_le_size; [apply Hw|]. intros a. apply wfl_in_store. exact Hw.
Qed.

Lemma payload_alter (f : Entry -> Entry) (a b : nat) (st : gmap nat Entry) :
  (forall e, payload (f e) = payload e) ->
  payload <$> alter f a st !! b = payload <$> st !! b.
Proof.
  intros Hf. rewrite lookup_alter. case_decide; [subst|reflexivity].
  destruct (st !! b); simpl; [now rewrite Hf|reflexivity].
Qed.

Lemma is_Some_alter (f : Entry -> Entry) (a b : nat) (st : gmap nat Entry) :
  is_Some (alter f a st !! b) <-> is_Some (st !! b).
Proof.
  rewrite lookup_alter. case_decide; [subst|reflexivity].
  rewrite fmap_is_Some. reflexivity.
Qed.

Lemma wf_New (cmp : option (V -> V -> bool)) (mf : option (V -> bool)) :
  wf (NewSortableLinkedMap cmp mf : SLM) [].
Proof.
  split; [|split].
  - split; simpl; [apply NoDup_nil_2|exact I|reflexivity|reflexivity|].
    intros a [e He]. rewrite lookup_empty in He. discriminate.
  - split; simpl; [|apply map_size_empty].
    intros k a. rewrite lookup_empty. split; [discriminate|]. intros [Ha _]. inversion Ha.
  - split; simpl; [|discriminate|reflexivity].
    intros mf0 a e _ Ha. inversion Ha.
Qed.

Lemma wf_Reset (slm : SLM) (l : list nat) : wf slm l -> wf (Reset slm) [].
Proof.
  intros (Hl & He & Hm). split; [|split].
  - split; simpl; [apply NoDup_nil_2|exact I|reflexivity|reflexivity|apply Hl].
  - split; simpl; [|apply map_size_empty].
    intros k a. rewrite lookup_empty. split; [discriminate|]. intros [Ha _]. inversion Ha.
  - split; simpl; [|discriminate|reflexivity].
    intros mf0 a e _ Ha. inversion Ha.
Qed.

(** *** The flag and the cursor after [updateMatchedState] *)

Lemma updateMatchedState_fields (mf : V -> bool) (u : nat) (slm : SLM) :
  let slm' := updateMatchedState mf u slm in
  head slm' = head slm /\ tail slm' = tail slm /\ fresh slm' = fresh slm /\
  entries slm' = entries slm /\ compareFunc slm' = compareFunc slm /\
  matchFunc slm' = matchFunc slm /\
  store slm' = match store slm !! u with
               | Some ue => alter (set_isMatched (mf (value ue))) u (store slm)
               | None => store slm
               end.
Proof.
  destruct slm as [st fr en hd tl fm cmp mf0].
  unfold updateMatchedState. cbn [store].
  destruct (st !! u) as [ue|] eqn:Eu; [|repeat split; reflexivity].
  destruct (mf (value ue)).
  - cbn. destruct fm as [fm|]; [|repeat split; reflexivity].
    destruct cmp as [cmp|]; [|repeat split; reflexivity].
    destruct (alter _ u st !! fm) as [fe|]; [|repeat split; reflexivity].
    destruct (cmp (value ue) (value fe)); repeat split; reflexivity.
  - cbn. destruct (ptr_eqb _ _); repeat split; reflexivity.
Qed.

Lemma wfl_updateMatchedState (mf : V -> bool) (u : nat) (slm : SLM) (l : list nat) :
  wfl slm l -> wfl (updateMatchedState mf u slm) l.
Proof.
  intros [Hnd Hd Hh Ht Hf].
  destruct (updateMatchedState_fields mf u slm) as (Eh & Et & Ef & _ & _ & _ & Es).
  split; [exact Hnd| |congruence|congruence|].
  - rewrite Es. destruct (store slm !! u); [|exact Hd].
    apply dll_alter_inert; [|exact Hd]. intros e. split; reflexivity.
  - intros a. rewrite Es, Ef. destruct (store slm !! u); [|apply Hf].
    rewrite is_Some_alter. apply Hf.
Qed.

Lemma payload_kv_updateMatchedState (mf : V -> bool) (u b : nat) (slm : SLM) :
  (fun e => (key e, value e)) <$> store (updateMatchedState mf u slm) !! b
  = (fun e => (key e, value e)) <$> store slm !! b.
Proof.
  destruct (updateMatchedState_fields mf u slm) as (_ & _ & _ & _ & _ & _ & Es).
  rewrite Es. destruct (store slm !! u); [|reflexivity].
  rewrite lookup_alter. case_decide; [subst|reflexivity].
  destruct (store slm !! b); reflexivity.
Qed.

Lemma wfe_updateMatchedState (mf : V -> bool) (u : nat) (slm : SLM) (l : list nat) :
  wfe slm l -> wfe (updateMatchedState mf u slm) l.
Proof.
  intros [He Hs].
  destruct (updateMatchedState_fields mf u slm) as (_ & _ & _ & Ee & _ & _ & _).
  split; [|now rewrite Ee].
  intros k a. rewrite Ee, He.
  pose proof (payload_kv_updateMatchedState mf u a slm) as Hp.
  destruct (store (updateMatchedState mf u slm) !! a) as [e'|],
           (store slm !! a) as [e|]; simpl in Hp |- *; try discriminate Hp.
  - injection Hp as Hk _. rewrite Hk. reflexivity.
  - reflexivity.
Qed.

Lemma wfl_alter_inert (f : Entry -> Entry) (a : nat) (slm : SLM) (l : list nat) :
  (forall e, pre (f e) = pre e /\ next (f e) = next e) ->
  wfl slm l -> wfl (assign a f slm) l.
Proof.
  intros Hf [Hnd Hd Hh Ht Hfr]. split; cbn; auto.
  - apply dll_alter_inert; assumption.
  - intros b. rewrite is_Some_alter. apply Hfr.
Qed.

Lemma flagged_set_isMatched (st : gmap nat Entry) (m : bool) (u a : nat) (ue : Entry) :
  st !! u = Some ue ->
  flagged (alter (set_isMatched m) u st) a = if decide (u = a) then m else flagged st a.
Proof.
  intros Hu. unfold flagged. rewrite lookup_alter. case_decide; [subst|reflexivity].
  rewrite Hu. reflexivity.
Qed.

Lemma elem_of_split_dll (st : gmap nat Entry) (l : list nat) (a : nat) :
  dll st None l None -> a ∈ l ->
  exists l1 l2 e, l = l1 ++ a :: l2 /\ st !! a = Some e /\
                  pre e = last l1 /\ next e = hd_error l2 /\
                  dll st None l1 (Some a) /\ dll st (Some a) l2 None.
Proof.
  intros Hd Ha. apply list_elem_of_split in Ha as (l1 & l2 & ->).
  apply dll_app in Hd as [Hd1 Hd2]. simpl in Hd1.
  destruct Hd2 as (e & He & Hp & Hn & Hd2).
  exists l1, l2, e.
  split; [reflexivity|]. split; [exact He|].
  split; [rewrite Hp; unfold prev_of; destruct (last l1); reflexivity|].
  split; [rewrite Hn; destruct l2; reflexivity|].
  split; [exact Hd1|exact Hd2].
Qed.

Lemma NoDup_split_unique {A : Type} (l1 l2 l1' l2' : list A) (a : A) :
  NoDup (l1 ++ a :: l2) -> l1 ++ a :: l2 = l1' ++ a :: l2' -> l1 = l1' /\ l2 = l2'.
Proof.
  revert l1'. induction l1 as [|x l1 IH]; intros l1' Hnd El.
  - destruct l1' as [|y l1']; simpl in El.
    + injection El as ->. auto.
    + injection El as -> ->. simpl in Hnd. apply NoDup_cons in Hnd as [Hni _].
      exfalso. apply Hni. apply elem_of_app. right. left.
  - simpl in Hnd. apply NoDup_cons in Hnd as [Hni Hnd].
    destruct l1' as [|y l1']; simpl in El.
    + injection El as -> _. exfalso. apply Hni. apply elem_of_app. right. left.
    + injection El as -> El. destruct (IH l1' Hnd El) as [-> ->]. auto.
Qed.

Lemma findNextMatchedEntry_spec (slm : SLM) (l l1 l2 : list nat) (u : nat) :
  wfl slm l -> l = l1 ++ u :: l2 -> firstMatchedEntry slm = Some u ->
  findNextMatchedEntry slm = List.find (flagged (store slm)) l2.
Proof.
  intros Hl El Hc. unfold findNextMatchedEntry. rewrite Hc.
  assert (Hu : u ∈ l) by (subst l; apply elem_of_app; right; left).
  destruct (elem_of_split_dll _ _ _ (wfl_dll _ _ Hl) Hu)
    as (l1' & l2' & ue & El' & Eu & _ & Hnext & _ & Hd2).
  assert (l2' = l2) as ->.
  { rewrite El in El'. pose proof (wfl_nodup _ _ Hl) as Hnd. rewrite El in Hnd.
    symmetry. exact (proj2 (NoDup_split_unique _ _ _ _ _ Hnd El')). }
  unfold entryAt. cbn [mbind option_bind]. rewrite Eu. cbn [mbind option_bind]. rewrite Hnext.
  apply (find_loop_spec slm l2 (Some u)); [exact Hd2|].
  apply wfl_fuel in Hl. subst l. rewrite length_app in Hl. simpl in Hl. lia.
Qed.

Lemma wfm_updateMatchedState (mf : V -> bool) (u : nat) (slm : SLM) (l : list nat) :
  wfl slm l -> matchFunc slm = Some mf -> u ∈ l ->
  (forall a e, a ∈ l -> a <> u -> store slm !! a = Some e -> isMatched e = mf (value e)) ->
  (forall a, firstMatchedEntry slm = Some a -> a ∈ l /\ flagged (store slm) a = true) ->
  wfm (updateMatchedState mf u slm) l.
Proof.
  intros Hl Hmf Hu Hflags Hcur.
  pose proof (wfl_fuel _ _ Hl) as Hfuel.
  destruct (wfl_in_store _ _ _ Hl Hu) as [ue Eu].
  destruct (elem_of_split_dll _ _ _ (wfl_dll _ _ Hl) Hu)
    as (l1 & l2 & ue' & El & Eu' & _ & Hnext & _ & Hd2).
  rewrite Eu in Eu'. injection Eu' as <-.
  destruct slm as [st fr en hd tl fm cmp mf0]. cbn [store matchFunc firstMatchedEntry] in *.
  subst mf0.
  assert (Hflags' : forall m a e, a ∈ l ->
            alter (set_isMatched (mf (value ue))) u st !! a = Some e ->
            m = mf -> isMatched e = m (value e)).
  { intros m a e Ha He ->. rewrite lookup_alter in He. case_decide.
    - subst a. rewrite Eu in He. injection He as <-. reflexivity.
    - apply (Hflags a e Ha); [congruence|exact He]. }
  unfold updateMatchedState. cbn [store]. rewrite Eu.
  destruct (mf (value ue)) eqn:Em.
  - cbn. destruct fm as [fm|].
    + assert (Hkeep : wfm (mkSLM (alter (set_isMatched true) u st) fr en hd tl (Some fm)
                                 cmp (Some mf)) l).
      { split; cbn.
        - intros m a e [= <-]. intros Ha He. eapply Hflags'; eauto.
        - intros a [= <-]. destruct (Hcur fm eq_refl) as [Hin Hfl]. split; [exact Hin|].
          rewrite (flagged_set_isMatched _ _ _ _ _ Eu). case_decide; [reflexivity|exact Hfl].
        - discriminate. }
      assert (Hmove : wfm (mkSLM (alter (set_isMatched true) u st) fr en hd tl (Some u)
                                 cmp (Some mf)) l).
      { split; cbn.
        - intros m a e [= <-]. intros Ha He. eapply Hflags'; eauto.
        - intros a [= <-]. split; [exact Hu|].
          rewrite (flagged_set_isMatched _ _ _ _ _ Eu). case_decide; [reflexivity|congruence].
        - discriminate. }
      destruct cmp as [cmp|]; [|exact Hkeep].
      destruct (alter _ u st !! fm) as [fe|]; [|exact Hkeep].
      destruct (cmp (value ue) (value fe)); [exact Hmove|exact Hkeep].
    + split; cbn.
      * intros m a e [= <-]. intros Ha He. eapply Hflags'; eauto.
      * intros a [= <-]. split; [exact Hu|].
        rewrite (flagged_set_isMatched _ _ _ _ _ Eu). case_decide; [reflexivity|congruence].
      * discriminate.
  - cbn -[findNextMatchedEntry]. unfold ptr_eqb. case_bool_decide as Hc.
    + subst fm.
      set (slm1 := mkSLM (alter (set_isMatched false) u st) fr en hd tl (Some u) cmp (Some mf)).
      change (wfm (set_firstMatchedEntry (findNextMatchedEntry slm1) slm1) l).
      assert (Hl1 : wfl slm1 l).
      { apply (wfl_alter_inert (set_isMatched false) u _ l) in Hl; [exact Hl|].
        intros e. split; reflexivity. }
      rewrite (findNextMatchedEntry_spec slm1 l l1 l2 u Hl1 El eq_refl).
      split; cbn.
      * intros m a e [= <-]. intros Ha He. eapply Hflags'; eauto.
      * intros a Hfind. apply find_some in Hfind as [Hin Hfl].
        split; [|exact Hfl]. subst l. apply elem_of_app. right. right.
        apply list_elem_of_In. exact Hin.
      * discriminate.
    + split; cbn.
      * intros m a e [= <-]. intros Ha He. eapply Hflags'; eauto.
      * intros a ->. destruct (Hcur a eq_refl) as [Hin Hfl]. split; [exact Hin|].
        rewrite (flagged_set_isMatched _ _ _ _ _ Eu). case_decide; [congruence|exact Hfl].
      * discriminate.
Qed.

(** *** [Put] on a key of the map *)

Lemma wfe_alter_key (f : Entry -> Entry) (a : nat) (slm : SLM) (l : list nat) :
  (forall e, key (f e) = key e) -> wfe slm l -> wfe (assign a f slm) l.
Proof.
  intros Hf [He Hs]. split; cbn; [|exact Hs].
  intros k b. rewrite He. rewrite lookup_alter. case_decide; [subst|reflexivity].
  destruct (store slm !! b); simpl; [rewrite Hf|]; reflexivity.
Qed.

Lemma kv_updateMatchedState (mf : V -> bool) (u b : nat) (slm : SLM) :
  kv <$> store (updateMatchedState mf u slm) !! b = kv <$> store slm !! b.
Proof. apply payload_kv_updateMatchedState. Qed.

(** [Put] on a key of the map: the entry keeps its place and gets the new
    value. *)
Lemma wf_Put_existing (k : K) (v : V) (a : nat) (slm : SLM) (l : list nat) :
  wf slm l -> entries slm !! k = Some a ->
  wf (snd (Put k v slm)) l /\
  fst (Put k v slm) = value <$> store slm !! a /\
  entries (snd (Put k v slm)) = entries slm /\
  compareFunc (snd (Put k v slm)) = compareFunc slm /\
  matchFunc (snd (Put k v slm)) = matchFunc slm /\
  (forall b, kv <$> store (snd (Put k v slm)) !! b
             = if decide (a = b) then Some (k, v) else kv <$> store slm !! b).
Proof.
  intros (Hl & He & Hm) Hk.
  destruct (proj1 (wfe_entries _ _ He k a) Hk) as [Ha Hkey].
  destruct (wfl_in_store _ _ _ Hl Ha) as [ea Ea]. rewrite Ea in Hkey.
  simpl in Hkey. injection Hkey as Hkey.
  unfold Put. rewrite Hk.
  set (slm1 := assign a (set_value v) slm).
  assert (Hl1 : wfl slm1 l).
  { apply wfl_alter_inert; [|exact Hl]. intros e. split; reflexivity. }
  assert (He1 : wfe slm1 l).
  { apply wfe_alter_key; [|exact He]. intros e. reflexivity. }
  assert (Hkv1 : forall b, kv <$> store slm1 !! b
                           = if decide (a = b) then Some (k, v) else kv <$> store slm !! b).
  { intros b. unfold slm1. cbn. rewrite lookup_alter. case_decide; [subst b|reflexivity].
    rewrite Ea. cbn. unfold kv. cbn. now rewrite Hkey. }
  change (matchFunc slm1) with (matchFunc slm).
  destruct (matchFunc slm) as [mf|] eqn:Emf; cbn [fst snd].
  - assert (Hfl : forall b e, b ∈ l -> b <> a -> store slm1 !! b = Some e ->
                              isMatched e = mf (value e)).
    { intros b e Hb Hne Hbe. unfold slm1 in Hbe. cbn in Hbe.
      rewrite lookup_alter_ne in Hbe by congruence.
      exact (wfm_flags _ _ Hm mf b e Emf Hb Hbe). }
    assert (Hcur : forall c, firstMatchedEntry slm1 = Some c ->
                             c ∈ l /\ flagged (store slm1) c = true).
    { intros c Hc. destruct (wfm_cursor _ _ Hm c Hc) as [Hin Hfl']. split; [exact Hin|].
      unfold flagged, slm1 in *. cbn. rewrite lookup_alter. case_decide; [subst c|exact Hfl'].
      rewrite Ea in *. exact Hfl'. }
    split; [|split; [reflexivity|]].
    + split; [apply wfl_updateMatchedState; exact Hl1|].
      split; [apply wfe_updateMatchedState; exact He1|].
      apply wfm_updateMatchedState; auto.
    + destruct (updateMatchedState_fields mf a slm1) as (_ & _ & _ & Ee & Ec & Em' & _).
      split; [exact Ee|]. split; [exact Ec|]. split; [rewrite Em'; exact Emf|].
      intros b. rewrite kv_updateMatchedState. apply Hkv1.
  - split; [|split; [reflexivity|]].
    + split; [exact Hl1|]. split; [exact He1|].
      split; cbn.
      * intros mf. rewrite Emf. discriminate.
      * intros c Hc. rewrite (wfm_nomatch _ _ Hm Emf) in Hc. discriminate.
      * intros _. exact (wfm_nomatch _ _ Hm Emf).
    + split; [reflexivity|]. split; [reflexivity|]. split; [exact Emf|]. exact Hkv1.
Qed.

(** *** [Put] of a new key *)

Lemma wfl_fresh_notin (slm : SLM) (l : list nat) : wfl slm l -> fresh slm ∉ l.
Proof.
  intros Hl Hin. pose proof (wfl_fresh _ _ Hl _ (wfl_in_store _ _ _ Hl Hin)). lia.
Qed.

Lemma wfl_allocate (k : K) (v : V) (slm : SLM) (l : list nat) :
  wfl slm l -> wfl (snd (allocate k v slm)) l.
Proof.
  intros Hl. pose proof (wfl_fresh_notin _ _ Hl) as Hni.
  destruct Hl as [Hnd Hd Hh Ht Hf]. split; cbn; auto.
  - apply (dll_frame (store slm)); [|exact Hd].
    intros b Hb. apply lookup_insert_ne. intros <-. contradiction.
  - intros b [e He]. destruct (decide (fresh slm = b)) as [<-|Hne]; [lia|].
    rewrite lookup_insert_ne in He by exact Hne.
    specialize (Hf b (ex_intro _ e He)). lia.
Qed.

Lemma last_middle {A : Type} (l1 l2 : list A) (a : A) :
  last (l1 ++ a :: l2) = match last l2 with Some b => Some b | None => Some a end.
Proof.
  rewrite last_app. destruct l2 as [|b l2] using rev_ind; [reflexivity|].
  rewrite app_comm_cons, !last_snoc. reflexivity.
Qed.

Lemma findPreEntry_spec (slm : SLM) (l : list nat) (a : nat) (ea : Entry) :
  wfl slm l -> store slm !! a = Some ea ->
  findPreEntry slm (tail slm) a true
  = match compareFunc slm with
    | None => last l
    | Some cmp => List.find (stops (store slm) cmp (value ea)) (rev l)
    end.
Proof.
  intros Hl Ea. unfold findPreEntry. rewrite (wfl_tail _ _ Hl).
  destruct (compareFunc slm) as [cmp|]; [|reflexivity].
  rewrite Ea. apply (findPreEntry_loop_spec slm cmp (value ea) l None).
  - apply Hl.
  - apply wfl_fuel. exact Hl.
Qed.

Ltac alter_lookup :=
  repeat first
    [ rewrite lookup_alter_ne by congruence
    | rewrite lookup_alter_eq ].

(** Linking a loose entry behind an entry of the list. *)
Lemma wfl_putIntoLinkedList_after (slm : SLM) (l1 l2 : list nat) (p a : nat) :
  wfl slm (l1 ++ p :: l2) -> a ∉ l1 ++ p :: l2 -> is_Some (store slm !! a) ->
  wfl (putIntoLinkedList (Some p) a slm) (l1 ++ p :: a :: l2).
Proof.
  intros Hl Hni [ea Ea].
  pose proof Hl as [Hnd Hd Hh Ht Hf].
  apply NoDup_app in Hnd as (Hnd1 & Hdisj & Hnd2).
  apply NoDup_cons in Hnd2 as [Hp2 Hnd2].
  assert (Hp1 : p ∉ l1) by (intros Hin; apply (Hdisj p Hin); left).
  assert (Hap : a <> p) by (intros ->; apply Hni, elem_of_app; right; left).
  assert (Ha1 : a ∉ l1) by (intros Hin; apply Hni, elem_of_app; left; exact Hin).
  assert (Ha2 : a ∉ l2) by (intros Hin; apply Hni, elem_of_app; right; right; exact Hin).
  pose proof Hd as Hd'. apply dll_app in Hd' as [Hd1 (ep & Ep & Hpp & Hpn & Hd2)].
  fold (next_of l2 (@None nat)) in Hpn.
  unfold putIntoLinkedList. cbn [entryAt mbind option_bind].
  rewrite Ep. cbn [mbind option_bind]. rewrite Hpn.
  set (st' := store (assign p (set_next (Some a))
                  match next_of l2 None with
                  | Some n => assign n (set_pre (Some a))
                                (assign a (set_next (next_of l2 None))
                                   (assign a (set_pre (Some p)) slm))
                  | None => assign a (set_next (next_of l2 None))
                              (assign a (set_pre (Some p)) slm)
                  end)).
  assert (Hst1 : forall b, b ∈ l1 -> st' !! b = store slm !! b).
  { intros b Hb. unfold st'.
    assert (b <> p) by (intros ->; contradiction).
    assert (b <> a) by (intros ->; contradiction).
    destruct l2 as [|n l2]; cbn; alter_lookup; [reflexivity|].
    assert (b <> n) by (intros ->; apply (Hdisj n Hb); right; left).
    alter_lookup. reflexivity. }
  assert (Hstp : st' !! p = Some (set_next (Some a) ep)).
  { unfold st'. destruct l2 as [|n l2]; cbn; alter_lookup.
    - rewrite Ep. reflexivity.
    - assert (p <> n) by (intros ->; apply Hp2; left).
      alter_lookup. rewrite Ep. reflexivity. }
  assert (Hsta : st' !! a = Some (set_next (next_of l2 None) (set_pre (Some p) ea))).
  { unfold st'. destruct l2 as [|n l2]; cbn; alter_lookup.
    - rewrite Ea. reflexivity.
    - assert (a <> n) by (intros ->; apply Ha2; left).
      alter_lookup. rewrite Ea. reflexivity. }
  assert (Hd2' : dll st' (Some a) l2 None).
  { destruct l2 as [|n l2]; [exact I|].
    apply NoDup_cons in Hnd2 as [Hn2 Hnd2].
    destruct Hd2 as (en & En & Hnp & Hnn & Hd2).
    exists (set_pre (Some a) en). split; [|split; [reflexivity|split; [exact Hnn|]]].
    - unfold st'. cbn. assert (n <> p) by (intros ->; apply Hp2; left).
      alter_lookup. assert (n <> a) by (intros ->; apply Ha2; left).
      alter_lookup. rewrite En. reflexivity.
    - apply (dll_frame (store slm)); [|exact Hd2].
      intros b Hb. unfold st'. cbn.
      assert (b <> p) by (intros ->; apply Hp2; right; exact Hb).
      assert (b <> n) by (intros ->; contradiction).
      assert (b <> a) by (intros ->; apply Ha2; right; exact Hb).
      alter_lookup. reflexivity. }
  assert (Hdll : dll st' None (l1 ++ p :: a :: l2) None).
  { apply dll_app. split.
    - apply (dll_frame (store slm)); [exact Hst1|exact Hd1].
    - exists (set_next (Some a) ep). split; [exact Hstp|]. split; [exact Hpp|].
      split; [reflexivity|].
      eexists. split; [exact Hsta|]. split; [reflexivity|]. split; [|exact Hd2'].
      destruct l2; reflexivity. }
  assert (Hfr : forall b, is_Some (st' !! b) -> (b < fresh slm)%nat).
  { intros b Hb. apply Hf. unfold st' in Hb.
    destruct (next_of l2 None); cbn in Hb; rewrite ?is_Some_alter in Hb; exact Hb. }
  assert (Hnd' : NoDup (l1 ++ p :: a :: l2)).
  { apply NoDup_app. split; [exact Hnd1|]. split.
    - intros b Hb Hin. apply elem_of_cons in Hin as [->|Hin]; [contradiction|].
      apply elem_of_cons in Hin as [->|Hin]; [contradiction|].
      apply (Hdisj b Hb). right. exact Hin.
    - apply NoDup_cons. split.
      + intros Hin. apply elem_of_cons in Hin as [?|Hin]; [congruence|contradiction].
      + apply NoDup_cons. split; assumption. }
  assert (Etl : tail slm = match last l2 with Some b => Some b | None => Some p end).
  { rewrite Ht. apply last_middle. }
  match goal with |- wfl (if ptr_eqb (tail ?s0) _ then _ else _) _ => set (s := s0) end.
  assert (Es : store s = st') by reflexivity.
  assert (Eh : head s = head slm) by (unfold s; destruct (next_of l2 None); reflexivity).
  assert (Ef : fresh s = fresh slm) by (unfold s; destruct (next_of l2 None); reflexivity).
  assert (Et : tail s = tail slm) by (unfold s; destruct (next_of l2 None); reflexivity).
  clearbody s. rewrite Et.
  unfold ptr_eqb. case_bool_decide as Htl.
  - split; cbn; rewrite ?Es, ?Eh, ?Ef; auto.
    + rewrite Hh. destruct l1; reflexivity.
    + rewrite (last_middle l1 (a :: l2) p).
      rewrite Etl in Htl. destruct l2 as [|b l2] using rev_ind; [reflexivity|].
      rewrite last_snoc in Htl. injection Htl as ->. exfalso. apply Hp2.
      apply elem_of_app. right. left.
  - split; cbn; rewrite ?Es, ?Eh, ?Ef, ?Et; auto.
    + rewrite Hh. destruct l1; reflexivity.
    + rewrite Etl, (last_middle l1 (a :: l2) p).
      destruct l2 as [|b l2] using rev_ind; [rewrite Etl in Htl; contradiction|].
      rewrite app_comm_cons, !last_snoc. reflexivity.
Qed.

(** Linking a loose entry in front of the list. *)
Lemma wfl_putIntoLinkedList_head (slm : SLM) (l : list nat) (a : nat) (ea : Entry) :
  wfl slm l -> a ∉ l -> store slm !! a = Some ea -> pre ea = None -> next ea = None ->
  wfl (putIntoLinkedList None a slm) (a :: l).
Proof.
  intros [Hnd Hd Hh Ht Hf] Hni Ea Hpre Hnext.
  unfold putIntoLinkedList. rewrite Hh.
  destruct l as [|h l]; cbn [hd_error].
  - cbn [tail set_head]. cbn in Ht. rewrite Ht. cbn.
    split; cbn; [apply NoDup_singleton| |reflexivity|reflexivity|exact Hf].
    exists ea. repeat split; auto.
  - cbn [tail set_head assign set_store].
    rewrite Ht. unfold ptr_eqb. rewrite bool_decide_eq_false_2.
    2:{ destruct l as [|b l] using rev_ind; [discriminate|].
        rewrite app_comm_cons, last_snoc. discriminate. }
    assert (Hah : a <> h) by (intros ->; apply Hni; left).
    destruct Hd as (eh & Eh & Hhp & Hhn & Hd).
    apply NoDup_cons in Hnd as Hnd'. destruct Hnd' as [Hhl Hnd'].
    split; cbn.
    + apply NoDup_cons. split; assumption.
    + eexists. split; [alter_lookup; rewrite Ea; reflexivity|].
      split; [reflexivity|]. split; [reflexivity|].
      exists (set_pre (Some a) eh). split; [alter_lookup; rewrite Eh; reflexivity|].
      split; [reflexivity|]. split; [exact Hhn|].
      apply (dll_frame (store slm)); [|exact Hd].
      intros b Hb. assert (b <> a) by (intros ->; apply Hni; right; exact Hb).
      assert (b <> h) by (intros ->; contradiction).
      alter_lookup. reflexivity.
    + reflexivity.
    + rewrite Ht. destruct l as [|b l] using rev_ind; [reflexivity|].
      rewrite !app_comm_cons, !last_snoc. reflexivity.
    + intros b. rewrite !is_Some_alter. apply Hf.
Qed.

Lemma putIntoLinkedList_fields (pe : option nat) (a : nat) (slm : SLM) :
  let slm' := putIntoLinkedList pe a slm in
  fresh slm' = fresh slm /\ entries slm' = entries slm /\
  firstMatchedEntry slm' = firstMatchedEntry slm /\
  compareFunc slm' = compareFunc slm /\ matchFunc slm' = matchFunc slm /\
  forall b, payload <$> store slm' !! b = payload <$> store slm !! b.
Proof.
  unfold putIntoLinkedList.
  destruct pe as [p|].
  - destruct (entryAt slm (Some p) ≫= next) as [n|]; unfold ptr_eqb;
      case_bool_decide; cbn; repeat split; try reflexivity;
      intros b; rewrite !payload_alter; reflexivity.
  - destruct (head slm) as [h|]; unfold ptr_eqb;
      case_bool_decide; cbn; repeat split; try reflexivity;
      intros b; rewrite ?payload_alter; reflexivity.
Qed.

Lemma kv_payload (st st' : gmap nat Entry) (b : nat) :
  payload <$> st' !! b = payload <$> st !! b -> kv <$> st' !! b = kv <$> st !! b.
Proof.
  destruct (st' !! b) as [e'|], (st !! b) as [e|]; cbn; try discriminate; [|reflexivity].
  unfold payload, kv. intros [= -> -> _]. reflexivity.
Qed.

Lemma flagged_payload (st st' : gmap nat Entry) (b : nat) :
  payload <$> st' !! b = payload <$> st !! b -> flagged st' b = flagged st b.
Proof.
  unfold flagged.
  destruct (st' !! b) as [e'|], (st !! b) as [e|]; cbn; try discriminate; [|reflexivity].
  unfold payload. intros [= _ _ ->]. reflexivity.
Qed.

Lemma wf_Put_fresh (k : K) (v : V) (slm : SLM) (l : list nat) :
  wf slm l -> entries slm !! k = None ->
  exists l1 l2, l = l1 ++ l2 /\ slot slm v l1 l2 /\ (fresh slm ∉ l) /\
    wf (snd (Put k v slm)) (l1 ++ fresh slm :: l2) /\
    fst (Put k v slm) = None /\
    entries (snd (Put k v slm)) = <[k := fresh slm]> (entries slm) /\
    compareFunc (snd (Put k v slm)) = compareFunc slm /\
    matchFunc (snd (Put k v slm)) = matchFunc slm /\
    (forall b, kv <$> store (snd (Put k v slm)) !! b
               = if decide (fresh slm = b) then Some (k, v) else kv <$> store slm !! b).
Proof.
  intros (Hl & He & Hm) Hk.
  pose proof (wfl_fresh_notin _ _ Hl) as Hni.
  set (a := fresh slm) in *.
  set (ea := mkEntry k v None None false).
  pose proof (wfl_allocate k v _ _ Hl) as Hl1.
  unfold Put. rewrite Hk.
  change (allocate k v slm) with (a, snd (allocate k v slm)).
  set (slm1 := snd (allocate k v slm)) in *.
  assert (Ea : store slm1 !! a = Some ea) by apply lookup_insert_eq.
  assert (Hst1 : forall b, b <> a -> store slm1 !! b = store slm !! b).
  { intros b Hb. unfold slm1. cbn. apply lookup_insert_ne. intros Heq. apply Hb. symmetry. exact Heq. }
  cbv zeta iota beta.
  rewrite (findPreEntry_spec slm1 l a ea Hl1 Ea).
  change (compareFunc slm1) with (compareFunc slm).
  set (pe := match compareFunc slm with
             | Some cmp => List.find (stops (store slm1) cmp (value ea)) (rev l)
             | None => last l
             end).
  (* the place in the list *)
  assert (Hplace : exists l1 l2, l = l1 ++ l2 /\ slot slm v l1 l2 /\
                     wfl (putIntoLinkedList pe a slm1) (l1 ++ a :: l2)).
  { unfold pe, slot. destruct (compareFunc slm) as [cmp|].
    - pose proof (find_rev_split (stops (store slm1) cmp (value ea)) l) as Hsp.
      assert (Hstops : forall b, b ∈ l -> stops (store slm1) cmp v b = false ->
                exists e, store slm !! b = Some e /\ cmp v (value e) = true).
      { intros b Hb. unfold stops. rewrite Hst1 by (intros ->; contradiction).
        destruct (wfl_in_store _ _ _ Hl Hb) as [e Eb]. rewrite Eb.
        intros Hc. exists e. split; [reflexivity|]. now apply negb_false_iff. }
      destruct (List.find _ (rev l)) as [p|].
      + destruct Hsp as (l1 & l2 & El & Hp & Hall).
        exists (l1 ++ [p]), l2. split; [rewrite <- app_assoc; exact El|]. split.
        * split.
          -- apply Forall_forall. intros b Hb. apply Hstops.
             ++ rewrite El. apply elem_of_app. right. right. exact Hb.
             ++ exact (proj1 (Forall_forall _ _) Hall b Hb).
          -- intros p' e. rewrite last_snoc. intros [= <-] Ep.
             unfold stops in Hp. rewrite Hst1 in Hp.
             ++ rewrite Ep in Hp. now apply negb_true_iff.
             ++ intros ->. apply Hni. rewrite El. apply elem_of_app. right. left.
        * rewrite <- app_assoc. cbn [app]. subst l.
          apply wfl_putIntoLinkedList_after; [exact Hl1|exact Hni|eauto].
      + exists [], l. split; [reflexivity|]. split.
        * split; [|discriminate].
          apply Forall_forall. intros b Hb. apply (Hstops b Hb).
          exact (proj1 (Forall_forall _ _) Hsp b Hb).
        * apply (wfl_putIntoLinkedList_head slm1 l a ea); auto.
    - destruct l as [|b l _] using rev_ind.
      + exists [], []. split; [reflexivity|]. split; [reflexivity|].
        apply (wfl_putIntoLinkedList_head slm1 [] a ea); auto.
      + exists (l ++ [b]), []. split; [now rewrite app_nil_r|]. split; [reflexivity|].
        rewrite last_snoc, <- app_assoc. cbn [app].
        apply wfl_putIntoLinkedList_after; [exact Hl1|exact Hni|eauto]. }
  destruct Hplace as (l1 & l2 & El & Hslot & Hl2).
  exists l1, l2. split; [exact El|]. split; [exact Hslot|]. split; [exact Hni|].
  destruct (putIntoLinkedList_fields pe a slm1) as (Ef & Een & Efm & Ecmp & Emf & Hpay).
  set (slm2 := putIntoLinkedList pe a slm1) in *.
  assert (Hin' : forall b, b ∈ l1 ++ a :: l2 <-> b = a \/ b ∈ l).
  { intros b. rewrite El, !elem_of_app, elem_of_cons. tauto. }
  assert (Hkv2 : forall b, kv <$> store slm2 !! b
                           = if decide (a = b) then Some (k, v) else kv <$> store slm !! b).
  { intros b. rewrite (kv_payload _ _ _ (Hpay b)). case_decide.
    - subst b. rewrite Ea. reflexivity.
    - rewrite Hst1 by congruence. reflexivity. }
  assert (Hfl2 : forall b, b <> a -> flagged (store slm2) b = flagged (store slm) b).
  { intros b Hb. rewrite (flagged_payload _ _ _ (Hpay b)). unfold flagged.
    rewrite Hst1 by exact Hb. reflexivity. }
  assert (Hwfe : forall slm3 : SLM,
            (forall b, kv <$> store slm3 !! b = kv <$> store slm2 !! b) ->
            wfe (set_entries (<[k := a]> (entries slm)) slm3) (l1 ++ a :: l2)).
  { intros slm3 Hkv3. split; cbn.
    - intros k' b. rewrite Hin'.
      assert (Ekey : key <$> store slm3 !! b
                     = if decide (a = b) then Some k else key <$> store slm !! b).
      { specialize (Hkv3 b). rewrite Hkv2 in Hkv3.
        destruct (store slm3 !! b) as [e3|]; case_decide; cbn in *.
        - injection Hkv3 as -> _. reflexivity.
        - destruct (store slm !! b) as [e0|]; cbn in *; [|discriminate].
          injection Hkv3 as -> _. reflexivity.
        - discriminate.
        - destruct (store slm !! b); [discriminate|reflexivity]. }
      rewrite Ekey. destruct (decide (k = k')) as [<-|Hkk].
      + rewrite lookup_insert_eq. split.
        * intros [= <-]. rewrite decide_True by reflexivity. auto.
        * intros [[->|Hb] Hkey]; [reflexivity|].
          assert (a <> b) by (intros ->; contradiction).
          rewrite decide_False in Hkey by assumption.
          assert (entries slm !! k = Some b) by (apply (wfe_entries _ _ He); auto).
          congruence.
      + rewrite lookup_insert_ne by exact Hkk. rewrite (wfe_entries _ _ He). split.
        * intros [Hb Hkey]. assert (a <> b) by (intros ->; contradiction).
          rewrite decide_False by assumption. auto.
        * intros [[->|Hb] Hkey].
          -- rewrite decide_True in Hkey by reflexivity. congruence.
          -- assert (a <> b) by (intros ->; contradiction).
             rewrite decide_False in Hkey by assumption. auto.
    - rewrite map_size_insert_None by exact Hk. rewrite (wfe_size _ _ He), El, !length_app.
      cbn. lia. }
  assert (Ha' : a ∈ l1 ++ a :: l2) by (apply Hin'; now left).
  change (matchFunc slm2) with (matchFunc (putIntoLinkedList pe a slm1)).
  fold slm2. rewrite Emf. change (matchFunc slm1) with (matchFunc slm).
  destruct (matchFunc slm) as [mf|] eqn:Emf0.
  - destruct (updateMatchedState_fields mf a slm2) as (_ & _ & _ & Ee3 & Ec3 & Em3 & _).
    set (slm3 := updateMatchedState mf a slm2) in *.
    assert (Hkv3 : forall b, kv <$> store slm3 !! b = kv <$> store slm2 !! b).
    { intros b. apply kv_updateMatchedState. }
    cbn [fst snd]. split; [|split; [reflexivity|split; [|split; [|split]]]].
    + split; [|split].
      * destruct (wfl_updateMatchedState mf a slm2 _ Hl2) as [? ? ? ? ?].
        split; cbn; assumption.
      * rewrite Ee3, Een. apply Hwfe. exact Hkv3.
      * assert (Hm3 : wfm slm3 (l1 ++ a :: l2)).
        { apply wfm_updateMatchedState; auto.
          - rewrite Emf. unfold slm1. cbn. exact Emf0.
          - intros b e Hb Hne Hbe. apply Hin' in Hb as [->|Hb]; [congruence|].
            pose proof (Hpay b) as Hp. rewrite Hbe, Hst1 in Hp by exact Hne.
            destruct (store slm !! b) as [e0|] eqn:E0; cbn in Hp; [|discriminate].
            injection Hp as _ Hv Hi. rewrite Hv, Hi.
            exact (wfm_flags _ _ Hm mf b e0 Emf0 Hb E0).
          - intros c Hc. rewrite Efm in Hc. change (firstMatchedEntry slm1)
              with (firstMatchedEntry slm) in Hc.
            destruct (wfm_cursor _ _ Hm c Hc) as [Hin Hfl]. split; [apply Hin'; now right|].
            rewrite Hfl2; [exact Hfl|]. intros ->. contradiction. }
        destruct Hm3 as [? ? ?]. split; cbn; assumption.
    + cbn. rewrite Ee3, Een. reflexivity.
    + cbn. rewrite Ec3, Ecmp. reflexivity.
    + cbn. rewrite Em3, Emf. exact Emf0.
    + intros b. cbn. rewrite Hkv3. apply Hkv2.
  - cbn [fst snd]. split; [|split; [reflexivity|split; [|split; [|split]]]].
    + split; [|split].
      * destruct Hl2 as [? ? ? ? ?]. split; cbn; assumption.
      * rewrite Een. apply Hwfe. reflexivity.
      * split; cbn.
        -- intros mf. rewrite Emf. change (matchFunc slm1) with (matchFunc slm).
           rewrite Emf0. discriminate.
        -- intros c Hc. rewrite Efm in Hc. change (firstMatchedEntry slm1)
              with (firstMatchedEntry slm) in Hc.
           rewrite (wfm_nomatch _ _ Hm Emf0) in Hc. discriminate.
        -- intros _. rewrite Efm. exact (wfm_nomatch _ _ Hm Emf0).
    + cbn. rewrite Een. reflexivity.
    + cbn. rewrite Ecmp. reflexivity.
    + cbn. rewrite Emf. exact Emf0.
    + intros b. cbn. apply Hkv2.
Qed.

(** *** [Remove] *)

Lemma findNextMatchedEntry_from (slm : SLM) (l2 : list nat) (u : nat) (ue : Entry)
    (q : option nat) :
  firstMatchedEntry slm = Some u -> store slm !! u = Some ue -> next ue = hd_error l2 ->
  dll (store slm) q l2 None -> NoDup l2 ->
  findNextMatchedEntry slm = List.find (flagged (store slm)) l2.
Proof.
  intros Hc Eu Hnext Hd Hnd. unfold findNextMatchedEntry. rewrite Hc.
  unfold entryAt. cbn [mbind option_bind]. rewrite Eu. cbn [mbind option_bind]. rewrite Hnext.
  apply (find_loop_spec slm l2 q); [exact Hd|].
  unfold walkFuel. apply Nat.lt_succ_r. apply NoDup_length_le_size; [exact Hnd|].
  intros a. apply (dll_lookup _ _ _ _ _ Hd).
Qed.

Lemma removeFromLinkedList_fields (a : nat) (slm : SLM) :
  let slm' := removeFromLinkedList a slm in
  fresh slm' = fresh slm /\ entries slm' = entries slm /\
  compareFunc slm' = compareFunc slm /\ matchFunc slm' = matchFunc slm /\
  forall b, payload <$> store slm' !! b = payload <$> store slm !! b.
Proof.
  unfold removeFromLinkedList. destruct (store slm !! a) as [e|]; [|cbn; auto 10].
  unfold ptr_eqb.
  destruct (pre e) as [p|], (next e) as [n|];
    repeat case_bool_decide; cbn; repeat split; try reflexivity;
    intros b; rewrite ?payload_alter; reflexivity.
Qed.

Lemma find_agree {A : Type} (f g : A -> bool) (l : list A) :
  (forall b, f b = g b) -> List.find f l = List.find g l.
Proof.
  intros Hfg. induction l as [|b l IH]; [reflexivity|].
  cbn. rewrite Hfg, IH. reflexivity.
Qed.

Lemma hd_error_app_cons {A : Type} (l1 l2 : list A) (a : A) :
  hd_error (l1 ++ a :: l2) = Some a -> NoDup (l1 ++ a :: l2) -> l1 = [].
Proof.
  destruct l1 as [|b l1]; [reflexivity|]. cbn. intros [= ->] Hnd.
  apply NoDup_cons in Hnd as [Hni _]. exfalso. apply Hni, elem_of_app. right. left.
Qed.

Lemma last_app_cons {A : Type} (l1 l2 : list A) (a : A) :
  last (l1 ++ a :: l2) = Some a -> NoDup (l1 ++ a :: l2) -> l2 = [].
Proof.
  rewrite last_middle. destruct l2 as [|b l2] using rev_ind; [reflexivity|].
  rewrite last_snoc. intros [= ->] Hnd. apply NoDup_app in Hnd as (_ & _ & Hnd).
  apply NoDup_cons in Hnd as [Hni _]. exfalso. apply Hni, elem_of_app. right. left.
Qed.

Lemma removeFromLinkedList_unlinked (a : nat) (e : Entry) (slm : SLM) :
  store slm !! a = Some e ->
  removeFromLinkedList a slm
  = if ptr_eqb (Some a) (firstMatchedEntry slm)
    then set_firstMatchedEntry (findNextMatchedEntry (unlinked a e slm)) (unlinked a e slm)
    else unlinked a e slm.
Proof.
  intros Ea. unfold removeFromLinkedList. rewrite Ea.
  match goal with |- (if _ then set_firstMatchedEntry _ ?s else _) = _ =>
    replace s with (unlinked a e slm)
  end; [reflexivity|].
  unfold unlinked, ptr_eqb. destruct slm as [st fr en hd tl fm cmp mf]. cbn.
  destruct (pre e), (next e);
    destruct (bool_decide (Some a = hd)); cbn;
    destruct (bool_decide (Some a = tl)); reflexivity.
Qed.

(** Unlinking an entry of the list. *)
Lemma wfl_removeFromLinkedList (slm : SLM) (l1 l2 : list nat) (a : nat) :
  wfl slm (l1 ++ a :: l2) ->
  wfl (removeFromLinkedList a slm) (l1 ++ l2) /\
  firstMatchedEntry (removeFromLinkedList a slm)
  = if decide (firstMatchedEntry slm = Some a)
    then List.find (flagged (store slm)) l2
    else firstMatchedEntry slm.
Proof.
  intros Hl. pose proof Hl as [Hnd Hd Hh Ht Hf].
  pose proof Hnd as Hnd0.
  apply NoDup_app in Hnd as (Hnd1 & Hdisj & Hnd2).
  apply NoDup_cons in Hnd2 as [Ha2 Hnd2].
  assert (Ha1 : a ∉ l1) by (intros Hin; apply (Hdisj a Hin); left).
  pose proof Hd as Hd'. apply dll_app in Hd' as [Hd1 (e & Ea & Hpre & Hnext & Hd2)].
  fold (next_of l2 (@None nat)) in Hnext. cbn [next_of] in Hd1.
  rewrite (removeFromLinkedList_unlinked a e slm Ea).
  set (slm1 := unlinked a e slm).
  set (st' := store slm1).
  assert (Hsta : st' !! a = Some e).
  { unfold st', slm1, unlinked. cbn [store]. rewrite Hpre, Hnext.
    destruct l2 as [|n l2]; destruct l1 as [|p l1 _] using rev_ind; cbn; unfold prev_of;
      rewrite ?last_snoc; alter_lookup; try exact Ea.
    - assert (a <> p) by (intros ->; apply Ha1, elem_of_app; right; left).
      alter_lookup. exact Ea.
    - assert (a <> n) by (intros ->; apply Ha2; left). alter_lookup. exact Ea.
    - assert (a <> n) by (intros ->; apply Ha2; left).
      assert (a <> p) by (intros ->; apply Ha1, elem_of_app; right; left).
      alter_lookup. exact Ea. }
  assert (Hd1' : dll st' None l1 (next_of l2 None)).
  { unfold st', slm1, unlinked. cbn [store]. rewrite Hpre, Hnext.
    assert (Hfr : forall st0 : gmap nat Entry,
              dll st0 None l1 (next_of l2 None) ->
              dll (match next_of l2 None with
                   | Some n => alter (set_pre (prev_of None l1)) n
                   | None => fun s => s
                   end st0) None l1 (next_of l2 None)).
    { intros st0 Hst0. destruct l2 as [|n l2]; [exact Hst0|]. cbn.
      apply (dll_frame st0); [|exact Hst0].
      intros b Hb. apply lookup_alter_ne. intros <-. apply (Hdisj n Hb). right. left. }
    apply Hfr. destruct l1 as [|p l1 _] using rev_ind; [exact I|].
    unfold prev_of. rewrite last_snoc.
    apply (dll_set_last_next _ p l1 None (Some a)); [|exact Hd1].
    apply NoDup_app in Hnd1 as (_ & Hdj & _). intros Hin. apply (Hdj p Hin). left. }
  assert (Hd2' : dll st' (prev_of None l1) l2 None).
  { unfold st', slm1, unlinked. cbn [store]. rewrite Hpre, Hnext.
    destruct l2 as [|n l2]; [exact I|]. cbn.
    apply NoDup_cons in Hnd2 as [Hn2 Hnd2].
    apply dll_set_head_pre with (p := Some a); [exact Hn2|].
    apply (dll_frame (store slm)); [|exact Hd2].
    intros b Hb. destruct l1 as [|p l1 _] using rev_ind; [reflexivity|].
    unfold prev_of. rewrite last_snoc. apply lookup_alter_ne. intros <-.
    apply (Hdisj p); [apply elem_of_app; right; left|right; exact Hb]. }
  assert (Hfr' : forall b, is_Some (st' !! b) -> (b < fresh slm)%nat).
  { intros b Hb. apply Hf. unfold st', slm1, unlinked in Hb. cbn [store] in Hb.
    destruct (next e), (pre e); rewrite ?is_Some_alter in Hb; exact Hb. }
  assert (Hl1 : wfl slm1 (l1 ++ l2)).
  { split; cbn.
    - apply NoDup_app. split; [exact Hnd1|]. split; [|exact Hnd2].
      intros b Hb Hin. apply (Hdisj b Hb). right. exact Hin.
    - apply dll_app. split; assumption.
    - unfold ptr_eqb. rewrite Hh. case_bool_decide as Hc.
      + symmetry in Hc. apply hd_error_app_cons in Hc; [|exact Hnd0]. subst l1.
        rewrite Hnext. destruct l2; reflexivity.
      + destruct l1 as [|b l1]; [cbn in Hc; congruence|reflexivity].
    - unfold ptr_eqb. rewrite Ht. case_bool_decide as Hc.
      + symmetry in Hc. apply last_app_cons in Hc; [|exact Hnd0]. subst l2.
        rewrite Hpre, app_nil_r. unfold prev_of. destruct (last l1); reflexivity.
      + rewrite last_middle in Hc |- *. rewrite last_app.
        destruct (last l2); [reflexivity|congruence].
    - exact Hfr'. }
  assert (Hflag : forall b, flagged st' b = flagged (store slm) b).
  { intros b. apply flagged_payload. unfold st', slm1, unlinked. cbn [store].
    destruct (next e), (pre e); rewrite ?payload_alter; reflexivity. }
  unfold ptr_eqb. change (firstMatchedEntry slm1) with (firstMatchedEntry slm).
  case_bool_decide as Hc.
  - rewrite decide_True by (symmetry; exact Hc).
    assert (Hn' : next e = hd_error l2) by (rewrite Hnext; destruct l2; reflexivity).
    assert (Hc' : firstMatchedEntry slm1 = Some a) by (symmetry; exact Hc).
    rewrite (findNextMatchedEntry_from slm1 l2 a e (prev_of None l1) Hc' Hsta Hn' Hd2' Hnd2).
    split.
    + destruct Hl1 as [? ? ? ? ?]. split; cbn; assumption.
    + apply find_agree. intros b. apply Hflag.
  - rewrite decide_False by congruence. split; [exact Hl1|reflexivity].
Qed.

Lemma wf_Remove (k : K) (a : nat) (slm : SLM) (l : list nat) :
  wf slm l -> entries slm !! k = Some a ->
  exists l1 l2, l = l1 ++ a :: l2 /\ wf (snd (Remove k slm)) (l1 ++ l2) /\
    (forall b, kv <$> store (snd (Remove k slm)) !! b = kv <$> store slm !! b).
Proof.
  intros (Hl & He & Hm) Hk.
  destruct (proj1 (wfe_entries _ _ He k a) Hk) as [Ha Hkey].
  apply list_elem_of_split in Ha as (l1 & l2 & ->).
  exists l1, l2. split; [reflexivity|].
  unfold Remove. rewrite Hk. cbn [snd].
  destruct (wfl_removeFromLinkedList slm l1 l2 a Hl) as [Hl' Hcur].
  destruct (removeFromLinkedList_fields a slm) as (Ef & Een & Ecmp & Emf & Hpay).
  set (slm1 := removeFromLinkedList a slm) in *.
  pose proof (wfl_nodup _ _ Hl) as Hnd.
  apply NoDup_app in Hnd as (_ & Hdisj & Hnd2). apply NoDup_cons in Hnd2 as [Ha2 _].
  assert (Ha1 : a ∉ l1) by (intros Hin; apply (Hdisj a Hin); left).
  assert (Hin' : forall b, b ∈ l1 ++ a :: l2 <-> b = a \/ b ∈ l1 ++ l2).
  { intros b. rewrite !elem_of_app, elem_of_cons. tauto. }
  assert (Hni : a ∉ l1 ++ l2) by (rewrite elem_of_app; tauto).
  assert (Hkv : forall b, kv <$> store slm1 !! b = kv <$> store slm !! b).
  { intros b. apply kv_payload, Hpay. }
  assert (Hkey' : forall b, key <$> store slm1 !! b = key <$> store slm !! b).
  { intros b. specialize (Hkv b).
    destruct (store slm1 !! b), (store slm !! b); cbn in *; unfold kv in *; congruence. }
  split; [|exact Hkv]. split; [|split].
  - destruct Hl' as [? ? ? ? ?]. split; cbn; assumption.
  - split; cbn.
    + intros k' b. rewrite Een, Hkey'. destruct (decide (k = k')) as [<-|Hkk].
      * rewrite lookup_delete_eq. split; [discriminate|]. intros [Hb Hkb].
        assert (entries slm !! k = Some b).
        { apply (wfe_entries _ _ He). split; [apply Hin'; now right|exact Hkb]. }
        assert (b = a) by congruence. subst b. contradiction.
      * rewrite lookup_delete_ne by exact Hkk. rewrite (wfe_entries _ _ He), Hin'.
        split; [|tauto]. intros [[->|Hb] Hkb]; [congruence|tauto].
    + rewrite Een, map_size_delete_Some by eauto. rewrite (wfe_size _ _ He), !length_app.
      cbn. lia.
  - split; cbn.
    + intros mf b e Hmf Hb Hbe. rewrite Emf in Hmf.
      pose proof (Hpay b) as Hp. rewrite Hbe in Hp.
      destruct (store slm !! b) as [e0|] eqn:E0; cbn in Hp; [|discriminate].
      injection Hp as _ Hv Hi. rewrite Hv, Hi.
      apply (wfm_flags _ _ Hm mf b e0 Hmf); [apply Hin'; now right|exact E0].
    + intros c. rewrite Hcur. case_decide as Hc.
      * intros Hfind. apply find_some in Hfind as [Hin Hfl]. split.
        -- apply elem_of_app. right. apply list_elem_of_In. exact Hin.
        -- rewrite (flagged_payload _ _ _ (Hpay c)). exact Hfl.
      * intros Hc'. destruct (wfm_cursor _ _ Hm c Hc') as [Hin Hfl]. split.
        -- apply Hin' in Hin as [->|Hin]; [congruence|exact Hin].
        -- rewrite (flagged_payload _ _ _ (Hpay c)). exact Hfl.
    + intros Hmf. rewrite Emf in Hmf. rewrite Hcur.
      rewrite decide_False; [exact (wfm_nomatch _ _ Hm Hmf)|].
      rewrite (wfm_nomatch _ _ Hm Hmf). discriminate.
Qed.

(** *** Every map a program can build satisfies the invariant *)

Lemma reachable_wf (slm : SLM) : reachable slm -> exists l, wf slm l.
Proof.
  induction 1 as [cmp mf|k v slm _ [l Hwf]|k slm _ [l Hwf]|slm _ [l Hwf]].
  - exists []. apply wf_New.
  - destruct (entries slm !! k) as [a|] eqn:Hk.
    + exists l. apply (wf_Put_existing k v a slm l Hwf Hk).
    + destruct (wf_Put_fresh k v slm l Hwf Hk) as (l1 & l2 & _ & _ & _ & Hwf' & _).
      eauto.
  - destruct (entries slm !! k) as [a|] eqn:Hk.
    + destruct (wf_Remove k a slm l Hwf Hk) as (l1 & l2 & _ & Hwf' & _). eauto.
    + exists l. unfold Remove. rewrite Hk. exact Hwf.
  - exists []. exact (wf_Reset slm l Hwf).
Qed.

(** *** What the accessors read *)

Lemma getEntryItems_loop_spec {A : Type} (f : Entry -> A) (slm : SLM) (l : list nat)
    (p : option nat) (fuel : nat) :
  dll (store slm) p l None -> (length l < fuel)%nat ->
  getEntryItems_loop fuel slm f (hd_error l)
  = omap (fun a => f <$> store slm !! a) l.
Proof.
  revert l p. induction fuel as [|fuel IH]; intros l p Hd Hlen; [lia|].
  destruct l as [|a l]; [reflexivity|].
  destruct Hd as (e & He & _ & Hn & Hd). cbn. rewrite He. cbn. f_equal.
  rewrite Hn. replace (match l with [] => None | b :: _ => Some b end) with (hd_error l)
    by (destruct l; reflexivity).
  apply (IH l (Some a)); [exact Hd|cbn in Hlen; lia].
Qed.

Lemma getEntryItems_spec {A : Type} (f : Entry -> A) (slm : SLM) (l : list nat) :
  wfl slm l -> getEntryItems slm f = omap (fun a => f <$> store slm !! a) l.
Proof.
  intros Hl. unfold getEntryItems. rewrite (wfl_head _ _ Hl).
  apply (getEntryItems_loop_spec f slm l None); [apply Hl|apply wfl_fuel; exact Hl].
Qed.

Lemma Get_spec (slm : SLM) (l : list nat) (k : K) (v : V) :
  wf slm l ->
  Get k slm = Some v <-> exists a, a ∈ l /\ kv <$> store slm !! a = Some (k, v).
Proof.
  intros (Hl & He & _). unfold Get. split.
  - destruct (entries slm !! k) as [a|] eqn:Hk; [|discriminate]. cbn.
    destruct (proj1 (wfe_entries _ _ He k a) Hk) as [Ha Hkey].
    destruct (store slm !! a) as [e|] eqn:Ea; [|discriminate]. cbn in *.
    intros [= <-]. exists a. split; [exact Ha|]. rewrite Ea. injection Hkey as <-.
    reflexivity.
  - intros (a & Ha & Hkv).
    assert (Hk : entries slm !! k = Some a).
    { apply (wfe_entries _ _ He). split; [exact Ha|].
      destruct (store slm !! a); cbn in *; [|discriminate]. injection Hkv as -> _.
      reflexivity. }
    rewrite Hk. cbn. destruct (store slm !! a); cbn in *; [|discriminate].
    injection Hkv as _ ->. reflexivity.
Qed.

Lemma getEntryItems_loop_fmap {A B : Type} (f : Entry -> A) (g : A -> B) (slm : SLM)
    (p : option nat) (fuel : nat) :
  getEntryItems_loop fuel slm (fun e => g (f e)) p = g <$> getEntryItems_loop fuel slm f p.
Proof.
  revert p. induction fuel as [|fuel IH]; intros p; [reflexivity|].
  cbn. destruct (entryAt slm p) as [e|]; [|reflexivity]. cbn. now rewrite IH.
Qed.

Lemma Keys_Items (slm : SLM) : Keys slm = fst <$> Items slm.
Proof. apply (getEntryItems_loop_fmap (fun e => (key e, value e)) fst). Qed.

Lemma Values_Items (slm : SLM) : Values slm = snd <$> Items slm.
Proof. apply (getEntryItems_loop_fmap (fun e => (key e, value e)) snd). Qed.

Lemma Items_contents (slm : SLM) (l : list nat) : wfl slm l -> Items slm = contents slm l.
Proof. intros Hl. apply (getEntryItems_spec _ slm l Hl). Qed.

Lemma contents_agree (slm slm' : SLM) (l : list nat) :
  (forall b, b ∈ l -> kv <$> store slm' !! b = kv <$> store slm !! b) ->
  contents slm' l = contents slm l.
Proof.
  intros Hag. induction l as [|b l IH]; [reflexivity|].
  unfold contents in *. cbn. rewrite Hag by left. rewrite IH; [reflexivity|].
  intros c Hc. apply Hag. now right.
Qed.

Lemma contents_cons (slm : SLM) (l : list nat) (b : nat) (e : Entry) :
  store slm !! b = Some e -> contents slm (b :: l) = kv e :: contents slm l.
Proof. intros Eb. unfold contents. cbn. rewrite Eb. reflexivity. Qed.

Lemma contents_app (slm : SLM) (l1 l2 : list nat) :
  contents slm (l1 ++ l2) = contents slm l1 ++ contents slm l2.
Proof. apply omap_app. Qed.

Lemma elem_of_contents (slm : SLM) (l : list nat) (x : K * V) :
  x ∈ contents slm l <-> exists a, a ∈ l /\ kv <$> store slm !! a = Some x.
Proof. apply list_elem_of_omap. Qed.

Lemma contents_length (slm : SLM) (l : list nat) :
  wfl slm l -> length (contents slm l) = length l.
Proof.
  intros Hl. assert (Hin : forall a, a ∈ l -> is_Some (store slm !! a))
    by (intros a; apply wfl_in_store; exact Hl).
  clear Hl. induction l as [|a l IH]; [reflexivity|].
  unfold contents in *. cbn. destruct (Hin a) as [e ->]; [left|]. cbn.
  rewrite IH; [reflexivity|]. intros b Hb. apply Hin. now right.
Qed.

Lemma contents_keys_NoDup (slm : SLM) (l : list nat) :
  wf slm l -> NoDup (fst <$> contents slm l).
Proof.
  intros (Hl & He & _).
  assert (Hsub : forall a, a ∈ l -> a ∈ l) by auto.
  pose proof (wfl_nodup _ _ Hl) as Hnd.
  revert Hsub Hnd. generalize l at 1 3 4. intros l0.
  induction l0 as [|a l0 IH]; intros Hsub Hnd; [apply NoDup_nil_2|].
  apply NoDup_cons in Hnd as [Hni Hnd].
  unfold contents in *. cbn.
  destruct (wfl_in_store _ _ _ Hl (Hsub a ltac:(left))) as [e Ea]. rewrite Ea. cbn.
  apply NoDup_cons. split; [|apply IH; [intros b Hb; apply Hsub; now right|exact Hnd]].
  intros Hin. apply list_elem_of_fmap in Hin as ([k' v'] & Hk & Hin). cbn in Hk. subst k'.
  apply list_elem_of_omap in Hin as (b & Hb & Hkv).
  assert (Ea' : entries slm !! key e = Some a).
  { apply (wfe_entries _ _ He). split; [apply Hsub; left|]. rewrite Ea. reflexivity. }
  assert (Eb' : entries slm !! key e = Some b).
  { apply (wfe_entries _ _ He). split; [apply Hsub; now right|].
    destruct (store slm !! b); cbn in *; [|discriminate]. unfold kv in Hkv. congruence. }
  assert (a = b) by congruence. subst b. contradiction.
Qed.

(** *** Lookup after [Put] and [Remove] *)

Lemma Get_kv (k : K) (slm : SLM) :
  Get k slm = entries slm !! k ≫= fun a => snd <$> (kv <$> store slm !! a).
Proof.
  unfold Get. destruct (entries slm !! k) as [a|]; [|reflexivity]. cbn.
  destruct (store slm !! a); reflexivity.
Qed.

Lemma wf_entries_inj (slm : SLM) (l : list nat) (k k' : K) (a : nat) :
  wf slm l -> entries slm !! k = Some a -> entries slm !! k' = Some a -> k = k'.
Proof.
  intros (_ & He & _) Hk Hk'.
  apply (wfe_entries _ _ He) in Hk as [_ Hk]. apply (wfe_entries _ _ He) in Hk' as [_ Hk'].
  congruence.
Qed.

(** X8: on a map built with [NewSortableLinkedMap], [Put], [Remove] and
    [Reset], [Put] returns the value the key had ([Get] before the call),
    [Get] of the key then answers the new value, and [Get] of every other
    key answers what it answered before. *)
Theorem Put_then_Get (k : K) (v : V) (slm : SLM) :
  reachable slm ->
  fst (Put k v slm) = Get k slm /\
  Get k (snd (Put k v slm)) = Some v /\
  forall k', k' <> k -> Get k' (snd (Put k v slm)) = Get k' slm.
Proof.
  intros Hr. destruct (reachable_wf slm Hr) as [l Hwf].
  destruct (entries slm !! k) as [a|] eqn:Hk.
  - destruct (wf_Put_existing k v a slm l Hwf Hk) as (_ & Hfst & Een & _ & _ & Hkv).
    split; [|split].
    + rewrite Hfst. unfold Get. rewrite Hk. reflexivity.
    + rewrite Get_kv, Een, Hk. cbn. rewrite Hkv, decide_True by reflexivity. reflexivity.
    + intros k' Hne. rewrite !Get_kv, Een.
      destruct (entries slm !! k') as [b|] eqn:Hk'; [|reflexivity]. cbn.
      rewrite Hkv, decide_False; [reflexivity|].
      intros ->. apply Hne. exact (wf_entries_inj slm l k' k b Hwf Hk' Hk).
  - destruct (wf_Put_fresh k v slm l Hwf Hk)
      as (l1 & l2 & El & _ & Hni & _ & Hfst & Een & _ & _ & Hkv).
    split; [|split].
    + rewrite Hfst. unfold Get. rewrite Hk. reflexivity.
    + rewrite Get_kv, Een, lookup_insert_eq. cbn.
      rewrite Hkv, decide_True by reflexivity. reflexivity.
    + intros k' Hne. rewrite !Get_kv, Een, lookup_insert_ne by congruence.
      destruct (entries slm !! k') as [b|] eqn:Hk'; [|reflexivity]. cbn.
      rewrite Hkv, decide_False; [reflexivity|].
      intros <-. apply Hni. destruct Hwf as (_ & He & _).
      exact (proj1 (proj1 (wfe_entries _ _ He k' _) Hk')).
Qed.

(** X9: [Remove] returns the value the key had (nil when it had none),
    [Get] of the key then answers nil, and [Get] of every other key answers
    what it answered before; this holds for every map. *)
Theorem Remove_then_Get (k : K) (slm : SLM) :
  fst (Remove k slm) = Get k slm /\
  Get k (snd (Remove k slm)) = None /\
  forall k', k' <> k -> Get k' (snd (Remove k slm)) = Get k' slm.
Proof.
  unfold Remove. destruct (entries slm !! k) as [a|] eqn:Hk; cbn [fst snd].
  - destruct (removeFromLinkedList_fields a slm) as (_ & Een & _ & _ & Hpay).
    assert (Hval : forall b, value <$> store (removeFromLinkedList a slm) !! b
                             = value <$> store slm !! b).
    { intros b. specialize (Hpay b).
      destruct (store (removeFromLinkedList a slm) !! b), (store slm !! b);
        cbn in *; unfold payload in *; congruence. }
    split; [|split].
    + cbn. rewrite Hval. unfold Get. rewrite Hk. reflexivity.
    + unfold Get. cbn. rewrite lookup_delete_eq. reflexivity.
    + intros k' Hne. unfold Get. cbn. rewrite lookup_delete_ne by congruence.
      rewrite Een. destruct (entries slm !! k'); [|reflexivity]. cbn. apply Hval.
  - split; [|split].
    + unfold Get. rewrite Hk. reflexivity.
    + unfold Get. rewrite Hk. reflexivity.
    + reflexivity.
Qed.

Lemma Get_is_Some (slm : SLM) (l : list nat) (k : K) :
  wf slm l -> is_Some (Get k slm) <-> is_Some (entries slm !! k).
Proof.
  intros (Hl & He & _). unfold Get. destruct (entries slm !! k) as [a|] eqn:Hk; cbn.
  - destruct (wfl_in_store _ _ a Hl) as [e ->].
    + exact (proj1 (proj1 (wfe_entries _ _ He k a) Hk)).
    + cbn. split; eauto.
  - split; intros [? ?]; discriminate.
Qed.

(** X10: [Size] is the number of keys [Keys] returns; [Put] raises it by one
    for a new key and leaves it for a key of the map; [Remove] lowers it by
    one for a key of the map and leaves it otherwise. *)
Theorem Size_spec (k : K) (v : V) (slm : SLM) :
  reachable slm ->
  Size slm = length (Keys slm) /\
  Size (snd (Put k v slm))
  = match Get k slm with Some _ => Size slm | None => S (Size slm) end /\
  Size (snd (Remove k slm))
  = match Get k slm with Some _ => pred (Size slm) | None => Size slm end.
Proof.
  intros Hr. destruct (reachable_wf slm Hr) as [l Hwf].
  pose proof (Get_is_Some slm l k Hwf) as Hget.
  pose proof Hwf as (Hl & He & _).
  split; [|split].
  - unfold Size. rewrite (wfe_size _ _ He), Keys_Items, length_fmap.
    rewrite (Items_contents slm l Hl). symmetry. apply contents_length. exact Hl.
  - unfold Size. destruct (entries slm !! k) as [a|] eqn:Hk.
    + destruct (wf_Put_existing k v a slm l Hwf Hk) as (_ & _ & -> & _).
      destruct (Get k slm); [reflexivity|]. destruct (proj2 Hget); [eauto|discriminate].
    + destruct (wf_Put_fresh k v slm l Hwf Hk) as (_ & _ & _ & _ & _ & _ & _ & -> & _).
      rewrite map_size_insert_None by exact Hk.
      destruct (Get k slm); [|reflexivity]. destruct (proj1 Hget); [eauto|discriminate].
  - unfold Size, Remove. destruct (entries slm !! k) as [a|] eqn:Hk; cbn.
    + destruct (removeFromLinkedList_fields a slm) as (_ & -> & _).
      rewrite map_size_delete_Some by eauto.
      destruct (Get k slm); [reflexivity|]. destruct (proj2 Hget); [eauto|discriminate].
    + destruct (Get k slm); [|reflexivity]. destruct (proj1 Hget); [eauto|discriminate].
Qed.

(** X11: the linked entries and the hash index agree: [Keys] has no key
    twice, and a pair is among the linked entries exactly when [Get] of its
    key answers its value. *)
Theorem Items_index (slm : SLM) :
  reachable slm ->
  NoDup (Keys slm) /\ forall k v, (k, v) ∈ Items slm <-> Get k slm = Some v.
Proof.
  intros Hr. destruct (reachable_wf slm Hr) as [l Hwf]. pose proof Hwf as (Hl & _).
  split.
  - rewrite Keys_Items, (Items_contents slm l Hl). apply contents_keys_NoDup. exact Hwf.
  - intros k v. rewrite (Items_contents slm l Hl), elem_of_contents.
    symmetry. apply Get_spec. exact Hwf.
Qed.

(** *** The order of the entries *)

Lemma wf_key_at (slm : SLM) (l : list nat) (a b : nat) (k : K) (x : K * V) :
  wf slm l -> entries slm !! k = Some a -> b ∈ l ->
  kv <$> store slm !! b = Some x -> fst x = k -> b = a.
Proof.
  intros (_ & He & _) Hk Hb Hkv Hx.
  assert (entries slm !! k = Some b); [|congruence].
  apply (wfe_entries _ _ He). split; [exact Hb|].
  destruct (store slm !! b); cbn in *; [|discriminate].
  injection Hkv as <-. cbn in Hx. now rewrite Hx.
Qed.

(** X12: [Put] on a key of the map updates in place: the linked entries keep
    their order, whatever the comparator says about the new value, and only
    the value of that key changes. *)
Theorem Put_existing_order (k : K) (v v0 : V) (slm : SLM) :
  reachable slm -> Get k slm = Some v0 ->
  Items (snd (Put k v slm))
  = (fun x => if decide (fst x = k) then (k, v) else x) <$> Items slm.
Proof.
  intros Hr Hget. destruct (reachable_wf slm Hr) as [l Hwf].
  destruct (entries slm !! k) as [a|] eqn:Hk;
    [|unfold Get in Hget; rewrite Hk in Hget; discriminate].
  destruct (wf_Put_existing k v a slm l Hwf Hk) as (Hwf' & _ & _ & _ & _ & Hkv).
  rewrite (Items_contents _ l (proj1 Hwf')), (Items_contents _ l (proj1 Hwf)).
  assert (Hsub : forall b, b ∈ l -> b ∈ l) by auto.
  revert Hsub. generalize l at 1 3 4. intros l0.
  induction l0 as [|b l0 IH]; intros Hsub; [reflexivity|].
  unfold contents in *. cbn. rewrite Hkv.
  destruct (wfl_in_store _ _ b (proj1 Hwf) (Hsub b ltac:(left))) as [e Eb].
  rewrite Eb. cbn. case_decide as Hab.
  - subst b. assert (Hka : key e = k).
    { destruct Hwf as (_ & He & _). apply (wfe_entries _ _ He) in Hk as [_ Hk].
      rewrite Eb in Hk. now injection Hk. }
    cbn. rewrite decide_True by exact Hka. f_equal. apply IH.
    intros c Hc. apply Hsub. now right.
  - rewrite decide_False.
    + cbn. f_equal. apply IH. intros c Hc. apply Hsub. now right.
    + intros Hke. apply Hab. symmetry.
      apply (wf_key_at slm l a b k (kv e) Hwf Hk); [apply Hsub; left|now rewrite Eb|exact Hke].
Qed.

Lemma contents_fresh (k : K) (v : V) (slm slm' : SLM) (l : list nat) (a : nat) :
  a ∉ l ->
  (forall b, kv <$> store slm' !! b
             = if decide (a = b) then Some (k, v) else kv <$> store slm !! b) ->
  contents slm' l = contents slm l.
Proof.
  intros Hni Hkv. apply contents_agree. intros b Hb.
  rewrite Hkv, decide_False; [reflexivity|]. intros ->. contradiction.
Qed.

Lemma last_contents_snoc (slm : SLM) (l : list nat) (p : nat) (e : Entry) :
  store slm !! p = Some e -> last (contents slm (l ++ [p])) = Some (kv e).
Proof.
  intros Ep. rewrite contents_app. unfold contents at 2. cbn. rewrite Ep. cbn.
  apply last_snoc.
Qed.

(** X13: [Put] of a new key links one entry and moves no other: behind the
    last entry its value does not sort before, so that every entry after
    it is one the new value sorts before; at the end when the map has no
    comparator. *)
Theorem Put_fresh_order (k : K) (v : V) (slm : SLM) :
  reachable slm -> Get k slm = None ->
  exists xs1 xs2,
    Items slm = xs1 ++ xs2 /\
    Items (snd (Put k v slm)) = xs1 ++ (k, v) :: xs2 /\
    match compareFunc slm with
    | None => xs2 = []
    | Some cmp =>
        Forall (fun x => cmp v (snd x) = true) xs2 /\
        forall x, last xs1 = Some x -> cmp v (snd x) = false
    end.
Proof.
  intros Hr Hget. destruct (reachable_wf slm Hr) as [l Hwf].
  assert (Hk : entries slm !! k = None).
  { destruct (entries slm !! k) as [a|] eqn:Hk; [|reflexivity].
    destruct (proj2 (Get_is_Some slm l k Hwf)) as [? ?]; [eauto|congruence]. }
  destruct (wf_Put_fresh k v slm l Hwf Hk)
    as (l1 & l2 & El & Hslot & Hni & Hwf' & _ & _ & _ & _ & Hkv).
  assert (Hni1 : fresh slm ∉ l1) by (intros Hin; apply Hni; subst l; apply elem_of_app; auto).
  assert (Hni2 : fresh slm ∉ l2) by (intros Hin; apply Hni; subst l; apply elem_of_app; auto).
  exists (contents slm l1), (contents slm l2).
  rewrite (Items_contents _ _ (proj1 Hwf')), (Items_contents _ _ (proj1 Hwf)).
  split; [rewrite El; apply contents_app|]. split.
  - rewrite contents_app. f_equal; [exact (contents_fresh k v _ _ l1 _ Hni1 Hkv)|].
    unfold contents at 1. cbn. rewrite Hkv, decide_True by reflexivity. cbn. f_equal.
    exact (contents_fresh k v _ _ l2 _ Hni2 Hkv).
  - unfold slot in Hslot. destruct (compareFunc slm) as [cmp|]; [|now subst l2].
    destruct Hslot as [Hall Hlast]. split.
    + apply Forall_forall. intros x Hx. apply elem_of_contents in Hx as (b & Hb & Hx).
      destruct (proj1 (Forall_forall _ _) Hall b Hb) as (e & Eb & Hc).
      rewrite Eb in Hx. injection Hx as <-. exact Hc.
    + intros x. destruct l1 as [|p l1 _] using rev_ind; [discriminate|].
      destruct (wfl_in_store _ _ p (proj1 Hwf)) as [e Ep].
      { subst l. apply elem_of_app. left. apply elem_of_app. right. left. }
      rewrite (last_contents_snoc slm l1 p e Ep). intros [= <-].
      apply (Hlast p e); [apply last_snoc|exact Ep].
Qed.

(** X14: [Remove] takes the entry of the key out of the linked entries and
    keeps the order of the others. *)
Theorem Remove_order (k : K) (slm : SLM) :
  reachable slm ->
  Items (snd (Remove k slm)) = filter (fun x => fst x <> k) (Items slm).
Proof.
  intros Hr. destruct (reachable_wf slm Hr) as [l Hwf].
  destruct (entries slm !! k) as [a|] eqn:Hk.
  - destruct (wf_Remove k a slm l Hwf Hk) as (l1 & l2 & El & Hwf' & Hkv).
    rewrite (Items_contents _ _ (proj1 Hwf')), (Items_contents _ _ (proj1 Hwf)).
    rewrite (contents_agree slm _ _ (fun b _ => Hkv b)).
    pose proof (wfl_nodup _ _ (proj1 Hwf)) as Hnd. rewrite El in Hnd.
    apply NoDup_app in Hnd as (_ & Hdisj & Hnd2). apply NoDup_cons in Hnd2 as [Ha2 _].
    assert (Ha1 : a ∉ l1) by (intros Hin; apply (Hdisj a Hin); left).
    assert (Hkeep : forall l0, (forall b, b ∈ l0 -> b ∈ l) -> a ∉ l0 ->
              filter (fun x => fst x <> k) (contents slm l0) = contents slm l0).
    { intros l0 Hsub Hni. induction l0 as [|b l0 IH]; [reflexivity|].
      destruct (wfl_in_store _ _ b (proj1 Hwf) (Hsub b ltac:(left))) as [e Eb].
      rewrite (contents_cons slm l0 b e Eb), filter_cons, decide_True.
      - f_equal. apply IH; [intros c Hc; apply Hsub; now right|].
        intros Hin. apply Hni. now right.
      - intros Hke. apply Hni.
        rewrite <- (wf_key_at slm l a b k (kv e) Hwf Hk); [left|apply Hsub; left| |exact Hke].
        now rewrite Eb. }
    rewrite El, !contents_app, filter_app. f_equal.
    + symmetry. apply Hkeep; [|exact Ha1]. intros b Hb. rewrite El. apply elem_of_app. auto.
    + destruct (wfl_in_store _ _ a (proj1 Hwf)) as [e Ea].
      { rewrite El. apply elem_of_app. right. left. }
      rewrite (contents_cons slm l2 a e Ea), filter_cons, decide_False.
      * symmetry. apply Hkeep; [|exact Ha2].
        intros b Hb. rewrite El. apply elem_of_app. right. now right.
      * intros Hne. apply Hne. destruct Hwf as (_ & He & _).
        apply (wfe_entries _ _ He) in Hk as [_ Hk]. rewrite Ea in Hk. now injection Hk.
  - unfold Remove. rewrite Hk. cbn [snd]. rewrite (Items_contents _ _ (proj1 Hwf)).
    symmetry. assert (Hsub : forall b, b ∈ l -> b ∈ l) by auto.
    revert Hsub. generalize l at 1 3 4. intros l0.
    induction l0 as [|b l0 IH]; intros Hsub; [reflexivity|].
    destruct (wfl_in_store _ _ b (proj1 Hwf) (Hsub b ltac:(left))) as [e Eb].
    rewrite (contents_cons slm l0 b e Eb), filter_cons, decide_True.
    + f_equal. apply IH. intros c Hc. apply Hsub. now right.
    + intros Hke. destruct Hwf as (_ & He & _).
      assert (entries slm !! k = Some b); [|congruence].
      apply (wfe_entries _ _ He). split; [apply Hsub; left|]. rewrite Eb. cbn.
      now rewrite <- Hke.
Qed.

(** X15: [GetHead] and [GetTail] answer the first and the last of the linked
    entries (nil on an empty map). *)
Theorem GetHead_GetTail (slm : SLM) :
  reachable slm -> GetHead slm = hd_error (Items slm) /\ GetTail slm = last (Items slm).
Proof.
  intros Hr. destruct (reachable_wf slm Hr) as [l Hwf]. pose proof Hwf as (Hl & _).
  rewrite (Items_contents _ _ Hl). unfold GetHead, GetTail, getEntry, entryAt.
  rewrite (wfl_head _ _ Hl), (wfl_tail _ _ Hl). split.
  - destruct l as [|a l]; [reflexivity|]. cbn.
    destruct (wfl_in_store _ _ a Hl) as [e Ea]; [left|].
    unfold contents. cbn. rewrite Ea. reflexivity.
  - destruct l as [|p l _] using rev_ind; [reflexivity|].
    destruct (wfl_in_store _ _ p Hl) as [e Ep]; [apply elem_of_app; right; left|].
    rewrite last_snoc, (last_contents_snoc slm l p e Ep). cbn. rewrite Ep. reflexivity.
Qed.

(** X16: what [GetFirstMatched] answers is an entry of the map, with its
    current value, and the match function accepts that value. *)
Theorem GetFirstMatched_sound (slm : SLM) (k : K) (v : V) :
  reachable slm -> GetFirstMatched slm = Some (k, v) ->
  Get k slm = Some v /\ exists mf, matchFunc slm = Some mf /\ mf v = true.
Proof.
  intros Hr Hg. destruct (reachable_wf slm Hr) as [l Hwf]. pose proof Hwf as (Hl & He & Hm).
  unfold GetFirstMatched in Hg. destruct (firstMatchedEntry slm) as [c|] eqn:Hc; [|discriminate].
  destruct (wfm_cursor _ _ Hm c Hc) as [Hin Hfl]. split.
  - apply (Get_spec slm l k v Hwf). exists c. split; [exact Hin|exact Hg].
  - destruct (matchFunc slm) as [mf|] eqn:Emf.
    + exists mf. split; [reflexivity|]. unfold flagged in Hfl.
      destruct (store slm !! c) as [e|] eqn:Ec; [|discriminate]. cbn in Hg.
      injection Hg as _ <-. rewrite <- (wfm_flags _ _ Hm mf c e Emf Hin Ec). exact Hfl.
    + rewrite (wfm_nomatch _ _ Hm Emf) in Hc. discriminate.
Qed.

(** *** The iterators *)

Lemma iterate_all_spec (slm : SLM) (l : list nat) (p : option nat) (fuel : nat) :
  dll (store slm) p l None -> (length l < fuel)%nat ->
  iterate fuel slm (mkIterator false (hd_error l)) = contents slm l.
Proof.
  revert l p. induction fuel as [|fuel IH]; intros l p Hd Hlen; [lia|].
  destruct l as [|a l]; [reflexivity|].
  destruct Hd as (e & Ea & _ & Hn & Hd).
  rewrite (contents_cons slm l a e Ea).
  cbn [iterate]. unfold HasNext. cbn [findMatched indexEntry hd_error].
  unfold ptr_eqb. rewrite bool_decide_eq_false_2 by discriminate. cbn [negb].
  unfold Next. cbn [findMatched indexEntry entryAt mbind option_bind]. rewrite Ea.
  f_equal. rewrite Hn.
  replace (match l with [] => None | b :: _ => Some b end) with (hd_error l)
    by (destruct l; reflexivity).
  apply (IH l (Some a)); [exact Hd|cbn in Hlen; lia].
Qed.

(** X17: the loop over [GetIterator] with [HasNext] and [Next] visits every
    entry of the map once, in the order of the linked entries. *)
Theorem GetIterator_visits_all (slm : SLM) :
  reachable slm -> iterate (S (Size slm)) slm (GetIterator slm) = Items slm.
Proof.
  intros Hr. destruct (reachable_wf slm Hr) as [l (Hl & He & _)].
  rewrite (Items_contents _ _ Hl). unfold GetIterator, NewSortableLinkedMapIterator, Size.
  rewrite (wfl_head _ _ Hl), (wfe_size _ _ He).
  apply (iterate_all_spec slm l None); [apply Hl|lia].
Qed.

Lemma find_split {A : Type} (f : A -> bool) (l : list A) (c : A) :
  List.find f l = Some c ->
  exists l1 l2, l = l1 ++ c :: l2 /\ List.filter f l1 = [] /\ f c = true.
Proof.
  induction l as [|b l IH]; [discriminate|]. cbn. destruct (f b) eqn:Eb.
  - intros [= <-]. exists [], l. auto.
  - intros Hf. destruct (IH Hf) as (l1 & l2 & -> & Hl1 & Hc).
    exists (b :: l1), l2. cbn. rewrite Eb. auto.
Qed.

Lemma find_none_filter {A : Type} (f : A -> bool) (l : list A) :
  List.find f l = None -> List.filter f l = [].
Proof.
  induction l as [|b l IH]; [reflexivity|]. cbn. destruct (f b); [discriminate|exact IH].
Qed.

Lemma iterate_matched_spec (slm : SLM) (l : list nat) (p : option nat) (fuel : nat) :
  dll (store slm) p l None -> NoDup l -> (length l < fuel)%nat ->
  iterate fuel slm (mkIterator true (hd_error l))
  = contents slm (List.filter (flagged (store slm)) l).
Proof.
  revert l p. induction fuel as [|fuel IH]; intros l p Hd Hnd Hlen; [lia|].
  assert (Hwalk : forall l0 q, dll (store slm) q l0 None -> NoDup l0 ->
            findNextMatched_loop (walkFuel slm) slm (hd_error l0)
            = List.find (flagged (store slm)) l0).
  { intros l0 q Hd0 Hnd0. apply (find_loop_spec slm l0 q); [exact Hd0|].
    unfold walkFuel. apply Nat.lt_succ_r. apply NoDup_length_le_size; [exact Hnd0|].
    intros a. apply (dll_lookup _ _ _ _ _ Hd0). }
  cbn [iterate]. unfold HasNext, iterator_findNextMatchedEntry.
  cbn [findMatched indexEntry]. rewrite (Hwalk l p Hd Hnd).
  destruct (List.find (flagged (store slm)) l) as [c|] eqn:Hfind.
  - destruct (find_split _ _ _ Hfind) as (l1 & l2 & -> & Hl1 & Hc).
    cbn [ptr_eqb]. unfold ptr_eqb at 1. rewrite bool_decide_eq_false_2 by discriminate.
    cbn [negb]. unfold Next, iterator_findNextMatchedEntry. cbn [findMatched indexEntry].
    apply dll_app in Hd as [_ Hd2]. apply NoDup_app in Hnd as (_ & _ & Hnd2).
    change (Some c) with (hd_error (c :: l2)) at 1.
    rewrite (Hwalk (c :: l2) _ Hd2 Hnd2). cbn [List.find]. rewrite Hc.
    destruct Hd2 as (e & Ec & _ & Hn & Hd2). apply NoDup_cons in Hnd2 as [_ Hnd2].
    cbn [entryAt mbind option_bind]. rewrite Ec.
    rewrite List.filter_app, Hl1. cbn [app List.filter]. rewrite Hc.
    rewrite (contents_cons slm _ c e Ec). f_equal. cbn [findMatched]. rewrite Hn.
    replace (match l2 with [] => None | b :: _ => Some b end) with (hd_error l2)
      by (destruct l2; reflexivity).
    apply (IH l2 (Some c) Hd2 Hnd2). rewrite length_app in Hlen. cbn in Hlen. lia.
  - unfold ptr_eqb. rewrite bool_decide_eq_true_2 by reflexivity. cbn.
    rewrite (find_none_filter _ _ Hfind). reflexivity.
Qed.

Lemma contents_filter_flagged (slm : SLM) (l l0 : list nat) (mf : V -> bool) :
  wf slm l -> matchFunc slm = Some mf -> (forall b, b ∈ l0 -> b ∈ l) ->
  contents slm (List.filter (flagged (store slm)) l0)
  = List.filter (fun x => mf (snd x)) (contents slm l0).
Proof.
  intros (Hl & _ & Hm) Emf Hsub. induction l0 as [|b l0 IH]; [reflexivity|].
  destruct (wfl_in_store _ _ b Hl (Hsub b ltac:(left))) as [e Eb].
  rewrite (contents_cons slm l0 b e Eb). cbn [List.filter snd kv].
  unfold flagged at 1. rewrite Eb.
  rewrite (wfm_flags _ _ Hm mf b e Emf (Hsub b ltac:(left)) Eb).
  assert (IH' := IH (fun c Hc => Hsub c ltac:(right; exact Hc))).
  destruct (mf (value e)); [rewrite (contents_cons slm _ b e Eb); f_equal|]; exact IH'.
Qed.

(** X18: the loop over [GetMatchedIterator] starts at the entry of
    [GetFirstMatched] and visits, in order, the entries from there on whose
    value the match function accepts; it visits nothing when
    [GetFirstMatched] answers nil, as it always does on a map without
    match function. *)
Theorem GetMatchedIterator_visits (slm : SLM) :
  reachable slm ->
  (exists xs1 xs2,
     Items slm = xs1 ++ xs2 /\ hd_error xs2 = GetFirstMatched slm /\
     iterate (S (Size slm)) slm (GetMatchedIterator slm)
     = List.filter (fun x => match matchFunc slm with
                             | Some mf => mf (snd x)
                             | None => false
                             end) xs2) /\
  (GetFirstMatched slm = None ->
     iterate (S (Size slm)) slm (GetMatchedIterator slm) = []) /\
  (matchFunc slm = None -> GetFirstMatched slm = None).
Proof.
  intros Hr. destruct (reachable_wf slm Hr) as [l Hwf]. pose proof Hwf as (Hl & He & Hm).
  assert (Hex : exists xs1 xs2,
     Items slm = xs1 ++ xs2 /\ hd_error xs2 = GetFirstMatched slm /\
     iterate (S (Size slm)) slm (GetMatchedIterator slm)
     = List.filter (fun x => match matchFunc slm with
                             | Some mf => mf (snd x)
                             | None => false
                             end) xs2).
  { rewrite (Items_contents _ _ Hl).
    unfold GetMatchedIterator, NewSortableLinkedMapIterator, GetFirstMatched, Size.
    rewrite (wfe_size _ _ He).
    destruct (firstMatchedEntry slm) as [c|] eqn:Hc.
    - destruct (matchFunc slm) as [mf|] eqn:Emf;
        [|rewrite (wfm_nomatch _ _ Hm Emf) in Hc; discriminate].
      destruct (wfm_cursor _ _ Hm c Hc) as [Hin _].
      apply list_elem_of_split in Hin as (l1 & l2 & El).
      exists (contents slm l1), (contents slm (c :: l2)).
      pose proof (wfl_dll _ _ Hl) as Hd. pose proof (wfl_nodup _ _ Hl) as Hnd.
      rewrite El in Hd, Hnd. apply dll_app in Hd as [_ Hd2].
      apply NoDup_app in Hnd as (_ & _ & Hnd2).
      split; [rewrite El; apply contents_app|]. split.
      + destruct Hd2 as (e & Ec & _). rewrite (contents_cons slm l2 c e Ec), Ec. reflexivity.
      + change (Some c) with (hd_error (c :: l2)).
        rewrite (iterate_matched_spec slm (c :: l2) _ _ Hd2 Hnd2).
        * apply (contents_filter_flagged slm l (c :: l2) mf Hwf Emf).
          intros b Hb. rewrite El. apply elem_of_app. now right.
        * rewrite El, length_app. cbn. lia.
    - exists (contents slm l), []. split; [now rewrite app_nil_r|]. split; reflexivity. }
  split; [exact Hex|]. split.
  - intros Hnone. destruct Hex as (xs1 & xs2 & _ & Hhd & ->).
    rewrite Hnone in Hhd. destruct xs2; [reflexivity|discriminate].
  - intros Emf. unfold GetFirstMatched. rewrite (wfm_nomatch _ _ Hm Emf). reflexivity.
Qed.

(** *** Values in the order of the comparator *)

Lemma StronglySorted_insert {A : Type} (R : A -> A -> Prop) (l1 l2 : list A) (x : A) :
  StronglySorted R (l1 ++ l2) -> Forall (fun y => R y x) l1 -> Forall (R x) l2 ->
  StronglySorted R (l1 ++ x :: l2).
Proof.
  induction l1 as [|y l1 IH]; cbn; intros Hs H1 H2.
  - constructor; assumption.
  - apply StronglySorted_inv in Hs as [Hs Hy]. apply Forall_cons in H1 as [Hyx H1].
    constructor; [apply IH; assumption|].
    apply Forall_app in Hy as [Hy1 Hy2]. apply Forall_app. split; [exact Hy1|].
    constructor; assumption.
Qed.

Lemma StronglySorted_filter {A : Type} (R : A -> A -> Prop) (P : A -> Prop)
    `{forall x, Decision (P x)} (l : list A) :
  StronglySorted R l -> StronglySorted R (filter P l).
Proof.
  induction 1 as [|x l Hs IH Hx]; [constructor|].
  rewrite filter_cons. case_decide; [|exact IH].
  constructor; [exact IH|]. apply Forall_forall. intros y Hy.
  apply list_elem_of_filter in Hy as [_ Hy]. exact (proj1 (Forall_forall _ _) Hx y Hy).
Qed.

Lemma StronglySorted_fmap {A B : Type} (R : B -> B -> Prop) (f : A -> B) (l : list A) :
  StronglySorted R (f <$> l) <-> StronglySorted (fun x y => R (f x) (f y)) l.
Proof.
  induction l as [|x l IH]; cbn.
  - split; constructor.
  - split; intros Hs; apply StronglySorted_inv in Hs as [Hs Hx];
      (constructor; [apply IH; exact Hs|]).
    + apply Forall_forall. intros y Hy. apply (proj1 (Forall_forall _ _) Hx (f y)).
      apply list_elem_of_fmap. eauto.
    + apply Forall_forall. intros y Hy. apply list_elem_of_fmap in Hy as (z & -> & Hz).
      exact (proj1 (Forall_forall _ _) Hx z Hz).
Qed.

Lemma StronglySorted_before {A : Type} (R : A -> A -> Prop) (l1 l2 : list A) (x : A) :
  StronglySorted R (l1 ++ x :: l2) -> Forall (fun y => R y x) l1.
Proof.
  induction l1 as [|y l1 IH]; cbn; intros Hs; [constructor|].
  apply StronglySorted_inv in Hs as [Hs Hy]. constructor; [|apply IH; exact Hs].
  apply Forall_app in Hy as [_ Hy]. apply Forall_cons in Hy as [Hy _]. exact Hy.
Qed.

Lemma StronglySorted_remove_middle {A : Type} (R : A -> A -> Prop) (l1 l2 : list A) (x : A) :
  StronglySorted R (l1 ++ x :: l2) -> StronglySorted R (l1 ++ l2).
Proof.
  induction l1 as [|y l1 IH]; cbn; intros Hs.
  - apply StronglySorted_inv in Hs as [Hs _]. exact Hs.
  - apply StronglySorted_inv in Hs as [Hs Hy]. constructor; [apply IH; exact Hs|].
    apply Forall_app in Hy as [Hy1 Hy2]. apply Forall_cons in Hy2 as [_ Hy2].
    apply Forall_app. split; assumption.
Qed.

Lemma ordered_insert (cmp : V -> V -> bool) (vs1 vs2 : list V) (v : V) :
  strict_weak cmp -> ordered cmp (vs1 ++ vs2) ->
  Forall (fun y => cmp v y = true) vs2 ->
  (forall x, last vs1 = Some x -> cmp v x = false) ->
  ordered cmp (vs1 ++ v :: vs2).
Proof.
  intros [Hasym Htrans] Hord Hall Hlast. unfold ordered in *.
  apply StronglySorted_insert; [exact Hord| |].
  - destruct vs1 as [|p vs1 _] using rev_ind; [constructor|].
    specialize (Hlast p (last_snoc _ _)). rewrite <- app_assoc in Hord.
    apply Forall_app. split; [|constructor; [exact Hlast|constructor]].
    apply StronglySorted_before in Hord.
    apply Forall_forall. intros y Hy. apply (Htrans v p y Hlast).
    exact (proj1 (Forall_forall _ _) Hord y Hy).
  - apply Forall_forall. intros y Hy. apply Hasym.
    exact (proj1 (Forall_forall _ _) Hall y Hy).
Qed.

Lemma slot_contents (slm : SLM) (v : V) (l1 l2 : list nat) :
  wfl slm (l1 ++ l2) -> slot slm v l1 l2 ->
  match compareFunc slm with
  | None => contents slm l2 = []
  | Some cmp =>
      Forall (fun x => cmp v (snd x) = true) (contents slm l2) /\
      forall x, last (contents slm l1) = Some x -> cmp v (snd x) = false
  end.
Proof.
  intros Hl Hslot. unfold slot in Hslot.
  destruct (compareFunc slm) as [cmp|]; [|now subst l2].
  destruct Hslot as [Hall Hlast]. split.
  - apply Forall_forall. intros x Hx. apply elem_of_contents in Hx as (b & Hb & Hx).
    destruct (proj1 (Forall_forall _ _) Hall b Hb) as (e & Eb & Hc).
    rewrite Eb in Hx. injection Hx as <-. exact Hc.
  - intros x. destruct l1 as [|p l1 _] using rev_ind; [discriminate|].
    destruct (wfl_in_store _ _ p Hl) as [e Ep].
    { apply elem_of_app. left. apply elem_of_app. right. left. }
    rewrite (last_contents_snoc slm l1 p e Ep). intros [= <-].
    apply (Hlast p e); [apply last_snoc|exact Ep].
Qed.

(** The entries after [Put] of a new key. *)
Lemma Put_fresh_contents (k : K) (v : V) (slm : SLM) (l : list nat) :
  wf slm l -> entries slm !! k = None ->
  exists l1 l2, l = l1 ++ l2 /\ slot slm v l1 l2 /\
    wf (snd (Put k v slm)) (l1 ++ fresh slm :: l2) /\
    contents (snd (Put k v slm)) (l1 ++ fresh slm :: l2)
    = contents slm l1 ++ (k, v) :: contents slm l2.
Proof.
  intros Hwf Hk.
  destruct (wf_Put_fresh k v slm l Hwf Hk)
    as (l1 & l2 & El & Hslot & Hni & Hwf' & _ & _ & _ & _ & Hkv).
  assert (Hni1 : fresh slm ∉ l1) by (intros Hin; apply Hni; subst l; apply elem_of_app; auto).
  assert (Hni2 : fresh slm ∉ l2) by (intros Hin; apply Hni; subst l; apply elem_of_app; auto).
  exists l1, l2. split; [exact El|]. split; [exact Hslot|]. split; [exact Hwf'|].
  rewrite contents_app. f_equal; [exact (contents_fresh k v _ _ l1 _ Hni1 Hkv)|].
  unfold contents at 1. cbn. rewrite Hkv, decide_True by reflexivity. cbn. f_equal.
  exact (contents_fresh k v _ _ l2 _ Hni2 Hkv).
Qed.

(** The entries after [Remove] of a key of the map. *)
Lemma Remove_contents (k : K) (a : nat) (slm : SLM) (l : list nat) :
  wf slm l -> entries slm !! k = Some a ->
  exists l1 l2 ea, l = l1 ++ a :: l2 /\ store slm !! a = Some ea /\
    wf (snd (Remove k slm)) (l1 ++ l2) /\
    contents slm l = contents slm l1 ++ kv ea :: contents slm l2 /\
    contents (snd (Remove k slm)) (l1 ++ l2) = contents slm l1 ++ contents slm l2.
Proof.
  intros Hwf Hk. destruct (wf_Remove k a slm l Hwf Hk) as (l1 & l2 & El & Hwf' & Hkv).
  destruct (wfl_in_store _ _ a (proj1 Hwf)) as [ea Ea].
  { rewrite El. apply elem_of_app. right. left. }
  exists l1, l2, ea. split; [exact El|]. split; [exact Ea|]. split; [exact Hwf'|]. split.
  - rewrite El, contents_app, (contents_cons slm l2 a ea Ea). reflexivity.
  - rewrite (contents_agree slm _ (l1 ++ l2)) by (intros b _; exact (Hkv b)).
    apply contents_app.
Qed.

Lemma ordered_Put (cmp : V -> V -> bool) (k : K) (v : V) (slm : SLM) (l : list nat) :
  wf slm l -> entries slm !! k = None -> compareFunc slm = Some cmp -> strict_weak cmp ->
  ordered cmp (Values slm) -> ordered cmp (Values (snd (Put k v slm))).
Proof.
  intros Hwf Hk Ec Hsw Hord.
  destruct (Put_fresh_contents k v slm l Hwf Hk) as (l1 & l2 & El & Hslot & Hwf' & Ec').
  pose proof (proj1 Hwf) as Hl.
  rewrite Values_Items, (Items_contents _ _ (proj1 Hwf')), Ec', fmap_app, fmap_cons.
  rewrite Values_Items, (Items_contents _ _ Hl), El, contents_app, fmap_app in Hord.
  rewrite El in Hl. pose proof (slot_contents slm v l1 l2 Hl Hslot) as Hpos.
  rewrite Ec in Hpos. destruct Hpos as [Hall Hlast]. cbn [snd].
  apply ordered_insert; [exact Hsw|exact Hord| |].
  - apply Forall_forall. intros y Hy. apply list_elem_of_fmap in Hy as (x & -> & Hx).
    exact (proj1 (Forall_forall _ _) Hall x Hx).
  - intros x Hx. rewrite fmap_last in Hx.
    destruct (last (contents slm l1)) as [y|] eqn:Ey; [|discriminate].
    injection Hx as <-. apply (Hlast y). reflexivity.
Qed.

Lemma ordered_Remove (cmp : V -> V -> bool) (k : K) (slm : SLM) (l : list nat) :
  wf slm l -> ordered cmp (Values slm) -> ordered cmp (Values (snd (Remove k slm))).
Proof.
  intros Hwf Hord. destruct (entries slm !! k) as [a|] eqn:Hk.
  - destruct (Remove_contents k a slm l Hwf Hk) as (l1 & l2 & ea & _ & _ & Hwf' & E & E').
    rewrite Values_Items, (Items_contents _ _ (proj1 Hwf')), E', fmap_app.
    rewrite Values_Items, (Items_contents _ _ (proj1 Hwf)), E, fmap_app, fmap_cons in Hord.
    exact (StronglySorted_remove_middle _ _ _ _ Hord).
  - unfold Remove. rewrite Hk. exact Hord.
Qed.

(** X19: with a comparator that is a strict weak order, a map whose values
    are in the order of the comparator keeps them so when a new key is put
    and when a key is removed. *)
Theorem ordered_preserved (cmp : V -> V -> bool) (k : K) (v : V) (slm : SLM) :
  reachable slm -> compareFunc slm = Some cmp -> strict_weak cmp ->
  ordered cmp (Values slm) ->
  (Get k slm = None -> ordered cmp (Values (snd (Put k v slm)))) /\
  ordered cmp (Values (snd (Remove k slm))).
Proof.
  intros Hr Ecmp Hsw Hord. destruct (reachable_wf slm Hr) as [l Hwf]. split.
  - intros Hget. apply (ordered_Put cmp k v slm l Hwf); auto.
    destruct (entries slm !! k) as [a|] eqn:Hk; [|reflexivity].
    destruct (proj2 (Get_is_Some slm l k Hwf)) as [? ?]; [eauto|congruence].
  - exact (ordered_Remove cmp k slm l Hwf Hord).
Qed.

(** *** The cursor of maps never updated in place *)

(** The cursor and the flags after [Put] of a new key. *)
Lemma Put_fresh_match (k : K) (v : V) (slm : SLM) (l : list nat) :
  wf slm l -> entries slm !! k = None ->
  let slm' := snd (Put k v slm) in
  let a := fresh slm in
  let m := match matchFunc slm with Some mf => mf v | None => false end in
  (forall b, flagged (store slm') b = if decide (a = b) then m else flagged (store slm) b) /\
  firstMatchedEntry slm'
  = if m then
      match firstMatchedEntry slm with
      | None => Some a
      | Some c =>
          match compareFunc slm, store slm !! c with
          | Some cmp, Some fe => if cmp v (value fe) then Some a else Some c
          | _, _ => Some c
          end
      end
    else firstMatchedEntry slm.
Proof.
  intros (Hl & He & Hm) Hk. cbv zeta.
  pose proof (wfl_fresh_notin _ _ Hl) as Hni.
  assert (Hfresh : store slm !! fresh slm = None).
  { destruct (store slm !! fresh slm) eqn:E; [|reflexivity].
    pose proof (wfl_fresh _ _ Hl (fresh slm) (ex_intro _ _ E)). lia. }
  unfold Put. rewrite Hk.
  change (allocate k v slm) with (fresh slm, snd (allocate k v slm)).
  set (a := fresh slm) in *. set (slm1 := snd (allocate k v slm)).
  cbv zeta iota beta.
  set (pe := findPreEntry slm1 (tail slm1) a true).
  destruct (putIntoLinkedList_fields pe a slm1) as (_ & _ & Efm & Ecmp & Emf & Hpay).
  set (slm2 := putIntoLinkedList pe a slm1) in *.
  change (firstMatchedEntry slm1) with (firstMatchedEntry slm) in Efm.
  change (compareFunc slm1) with (compareFunc slm) in Ecmp.
  change (matchFunc slm1) with (matchFunc slm) in Emf.
  assert (Hst1 : forall b, b <> a -> store slm1 !! b = store slm !! b).
  { intros b Hb. unfold slm1. cbn. apply lookup_insert_ne. intros Heq. apply Hb. symmetry. exact Heq. }
  assert (Ea1 : store slm1 !! a = Some (mkEntry k v None None false))
    by apply lookup_insert_eq.
  assert (Hfl2 : forall b, flagged (store slm2) b
                           = if decide (a = b) then false else flagged (store slm) b).
  { intros b. rewrite (flagged_payload _ _ _ (Hpay b)). unfold flagged. case_decide.
    - subst b. rewrite Ea1. reflexivity.
    - rewrite Hst1 by congruence. reflexivity. }
  destruct (store slm2 !! a) as [ue|] eqn:Ea2.
  2:{ pose proof (Hpay a) as Hp. rewrite Ea2, Ea1 in Hp. discriminate. }
  assert (Hv : value ue = v).
  { pose proof (Hpay a) as Hp. rewrite Ea2, Ea1 in Hp. cbn in Hp. unfold payload in Hp.
    cbn in Hp. congruence. }
  rewrite Emf. destruct (matchFunc slm) as [mf|] eqn:Emf0; cbn [snd].
  2:{ split; [|exact Efm]. intros b. cbn. apply Hfl2. }
  change (firstMatchedEntry (set_entries ?e ?s)) with (firstMatchedEntry s).
  change (store (set_entries ?e ?s)) with (store s).
  destruct (updateMatchedState_fields mf a slm2) as (_ & _ & _ & _ & _ & _ & Es).
  rewrite Ea2, Hv in Es. split.
  - intros b. rewrite Es, (flagged_set_isMatched _ _ _ _ _ Ea2). case_decide; [reflexivity|].
    rewrite Hfl2, decide_False by assumption. reflexivity.
  - unfold updateMatchedState. rewrite Ea2, Hv.
    change (firstMatchedEntry (assign ?p ?f ?s)) with (firstMatchedEntry s).
    change (compareFunc (assign ?p ?f ?s)) with (compareFunc s).
    rewrite Efm, Ecmp. destruct (mf v) eqn:Emv.
    + destruct (firstMatchedEntry slm) as [c|] eqn:Hc; [|reflexivity].
      destruct (wfm_cursor _ _ Hm c Hc) as [Hin _].
      assert (Hca : c <> a) by (intros ->; contradiction).
      destruct (compareFunc slm) as [cmp|]; [|exact Efm].
      cbn [store assign set_store]. rewrite lookup_alter_ne by congruence.
      pose proof (Hpay c) as Hp. rewrite Hst1 in Hp by exact Hca.
      destruct (store slm2 !! c) as [fe2|], (store slm !! c) as [fe|];
        cbn in Hp; try discriminate; [|exact Efm].
      assert (Hvv : value fe2 = value fe) by (unfold payload in Hp; congruence).
      rewrite Hvv. destruct (cmp v (value fe)); [reflexivity|exact Efm].
    + unfold ptr_eqb. rewrite bool_decide_eq_false_2; [exact Efm|].
      intros Heq. symmetry in Heq. destruct (wfm_cursor _ _ Hm a Heq) as [Hin _].
      contradiction.
Qed.

Lemma find_app_split {A : Type} (f : A -> bool) (l1 l2 : list A) :
  List.find f (l1 ++ l2)
  = match List.find f l1 with Some x => Some x | None => List.find f l2 end.
Proof.
  induction l1 as [|b l1 IH]; [reflexivity|]. cbn. destruct (f b); [reflexivity|exact IH].
Qed.

Lemma find_agree_on {A : Type} (f g : A -> bool) (l : list A) :
  (forall b, b ∈ l -> f b = g b) -> List.find f l = List.find g l.
Proof.
  intros Hfg. induction l as [|b l IH]; [reflexivity|].
  cbn. rewrite (Hfg b) by left. rewrite IH; [reflexivity|].
  intros c Hc. apply Hfg. now right.
Qed.

Lemma find_elem_of {A : Type} (f : A -> bool) (l : list A) (c : A) :
  List.find f l = Some c -> c ∈ l /\ f c = true.
Proof.
  intros Hf. apply find_some in Hf as [Hin Hc]. split; [|exact Hc].
  apply list_elem_of_In. exact Hin.
Qed.

(** An entry before the slot of [v] is one that [v] does not sort before. *)
Lemma before_slot (cmp : V -> V -> bool) (slm : SLM) (v : V) (l1 l2 : list nat)
    (c : nat) (fe : Entry) :
  strict_weak cmp -> compareFunc slm = Some cmp -> wfl slm (l1 ++ l2) ->
  slot slm v l1 l2 -> ordered cmp (snd <$> contents slm (l1 ++ l2)) ->
  c ∈ l1 -> store slm !! c = Some fe -> cmp v (value fe) = false.
Proof.
  intros [_ Htrans] Ecmp Hl Hslot Hord Hc Ec. unfold slot in Hslot. rewrite Ecmp in Hslot.
  destruct Hslot as [_ Hlast].
  destruct l1 as [|p l1 _] using rev_ind; [inversion Hc|].
  destruct (wfl_in_store _ _ p Hl) as [ep Ep].
  { apply elem_of_app. left. apply elem_of_app. right. left. }
  specialize (Hlast p ep (last_snoc _ _) Ep).
  apply elem_of_app in Hc as [Hc|Hc].
  - replace ((l1 ++ [p]) ++ l2) with (l1 ++ p :: l2) in Hord
      by (rewrite <- app_assoc; reflexivity).
    rewrite contents_app, (contents_cons slm _ p ep Ep), fmap_app, fmap_cons in Hord.
    cbn [snd kv] in Hord. apply StronglySorted_before in Hord.
    apply (Htrans v (value ep) (value fe) Hlast).
    apply (proj1 (Forall_forall _ _) Hord (value fe)).
    apply list_elem_of_fmap. exists (kv fe). split; [reflexivity|].
    apply elem_of_contents. exists c. split; [exact Hc|]. now rewrite Ec.
  - apply list_elem_of_singleton in Hc. subst c. congruence.
Qed.

Lemma cursor_first_Put (k : K) (v : V) (slm : SLM) (l : list nat) :
  (forall cmp, compareFunc slm = Some cmp -> strict_weak cmp) ->
  cursor_first slm l -> entries slm !! k = None ->
  exists l', cursor_first (snd (Put k v slm)) l'.
Proof.
  intros Hsw (Hwf & Hcur & Hord) Hk.
  destruct (wf_Put_fresh k v slm l Hwf Hk)
    as (l1 & l2 & El & Hslot & Hni & Hwf' & _ & _ & Ecmp & _ & Hkv).
  destruct (Put_fresh_match k v slm l Hwf Hk) as [Hfl Hcur'].
  set (slm' := snd (Put k v slm)) in *. set (a := fresh slm) in *.
  assert (Hni1 : a ∉ l1) by (intros Hin; apply Hni; subst l; apply elem_of_app; auto).
  assert (Hni2 : a ∉ l2) by (intros Hin; apply Hni; subst l; apply elem_of_app; auto).
  pose proof (proj1 Hwf) as Hl. rewrite El in Hl.
  exists (l1 ++ a :: l2). split; [exact Hwf'|]. split.
  - (* the cursor *)
    assert (Hf1 : List.find (flagged (store slm')) l1 = List.find (flagged (store slm)) l1).
    { apply find_agree_on. intros b Hb. rewrite Hfl, decide_False; [reflexivity|].
      intros <-. contradiction. }
    assert (Hf2 : List.find (flagged (store slm')) l2 = List.find (flagged (store slm)) l2).
    { apply find_agree_on. intros b Hb. rewrite Hfl, decide_False; [reflexivity|].
      intros <-. contradiction. }
    rewrite find_app_split. cbn [List.find]. rewrite Hf1, Hf2, (Hfl a), decide_True by reflexivity.
    rewrite Hcur' , Hcur. rewrite El, find_app_split.
    destruct (match matchFunc slm with Some mf => mf v | None => false end) eqn:Em;
      [|reflexivity].
    destruct (List.find (flagged (store slm)) l1) as [c|] eqn:Ef1.
    + (* the cursor stands before the slot *)
      destruct (find_elem_of _ _ _ Ef1) as [Hc1 _].
      destruct (compareFunc slm) as [cmp|] eqn:Ec; [|reflexivity].
      destruct (store slm !! c) as [fe|] eqn:Efe; [|reflexivity].
      rewrite (before_slot cmp slm v l1 l2 c fe (Hsw cmp eq_refl) Ec Hl Hslot); auto.
      rewrite <- El, <- (Items_contents slm l (proj1 Hwf)), <- Values_Items.
      apply Hord. reflexivity.
    + destruct (List.find (flagged (store slm)) l2) as [c|] eqn:Ef2; [|reflexivity].
      destruct (find_elem_of _ _ _ Ef2) as [Hc2 _].
      unfold slot in Hslot. destruct (compareFunc slm) as [cmp|] eqn:Ec.
      * destruct Hslot as [Hall _].
        destruct (proj1 (Forall_forall _ _) Hall c Hc2) as (fe & -> & ->). reflexivity.
      * subst l2. inversion Hc2.
  - (* the order *)
    intros cmp Ec. fold slm' in Ecmp. rewrite Ecmp in Ec.
    apply (ordered_Put cmp k v slm l Hwf Hk Ec (Hsw cmp Ec)). apply Hord. exact Ec.
Qed.

Lemma cursor_first_Remove (k : K) (slm : SLM) (l : list nat) :
  cursor_first slm l -> exists l', cursor_first (snd (Remove k slm)) l'.
Proof.
  intros (Hwf & Hcur & Hord).
  destruct (entries slm !! k) as [a|] eqn:Hk.
  2:{ exists l. unfold Remove. rewrite Hk. split; [exact Hwf|]. split; assumption. }
  destruct (wf_Remove k a slm l Hwf Hk) as (l1 & l2 & El & Hwf' & Hkv).
  exists (l1 ++ l2). split; [exact Hwf'|].
  pose proof (proj1 Hwf) as Hl. rewrite El in Hl.
  destruct (wfl_removeFromLinkedList slm l1 l2 a Hl) as [_ Hcur'].
  destruct (removeFromLinkedList_fields a slm) as (_ & _ & Ecmp & _ & Hpay).
  pose proof (wfl_nodup _ _ Hl) as Hnd.
  apply NoDup_app in Hnd as (_ & Hdisj & _).
  unfold Remove in *. rewrite Hk in *. cbn [snd] in *.
  change (firstMatchedEntry (set_entries ?e ?s)) with (firstMatchedEntry s).
  change (store (set_entries ?e ?s)) with (store s) in *.
  change (compareFunc (set_entries ?e ?s)) with (compareFunc s).
  split.
  - rewrite Hcur'.
    rewrite (find_agree_on (flagged (store (removeFromLinkedList a slm)))
               (flagged (store slm)) (l1 ++ l2))
      by (intros b _; apply flagged_payload, Hpay).
    rewrite Hcur, El, !find_app_split. cbn [List.find].
    destruct (List.find (flagged (store slm)) l1) as [c|] eqn:Ef1.
    + rewrite decide_False; [reflexivity|]. intros [= ->].
      destruct (find_elem_of _ _ _ Ef1) as [Hin _]. apply (Hdisj a Hin). left.
    + destruct (flagged (store slm) a) eqn:Efa.
      * rewrite decide_True by reflexivity. reflexivity.
      * destruct (decide (List.find (flagged (store slm)) l2 = Some a)); reflexivity.
  - intros cmp Ec. rewrite Ecmp in Ec.
    pose proof (ordered_Remove cmp k slm l Hwf (Hord cmp Ec)) as Ho.
    unfold Remove in Ho. rewrite Hk in Ho. exact Ho.
Qed.

Lemma Put_compareFunc (k : K) (v : V) (slm : SLM) :
  compareFunc (snd (Put k v slm)) = compareFunc slm.
Proof.
  unfold Put. destruct (entries slm !! k) as [a|]; cbn [snd].
  - destruct (matchFunc _) as [mf|]; [|reflexivity].
    destruct (updateMatchedState_fields mf a (assign a (set_value v) slm))
      as (_ & _ & _ & _ & -> & _). reflexivity.
  - change (allocate k v slm) with (fresh slm, snd (allocate k v slm)). cbv zeta iota beta.
    set (slm1 := snd (allocate k v slm)).
    set (pe := findPreEntry slm1 (tail slm1) (fresh slm) true).
    destruct (putIntoLinkedList_fields pe (fresh slm) slm1) as (_ & _ & _ & Ec & _ & _).
    cbn [snd]. change (compareFunc (set_entries ?e ?s)) with (compareFunc s).
    destruct (matchFunc _) as [mf|]; [|exact Ec].
    destruct (updateMatchedState_fields mf (fresh slm) (putIntoLinkedList pe (fresh slm) slm1))
      as (_ & _ & _ & _ & -> & _). exact Ec.
Qed.

Lemma Remove_compareFunc (k : K) (slm : SLM) :
  compareFunc (snd (Remove k slm)) = compareFunc slm.
Proof.
  unfold Remove. destruct (entries slm !! k) as [a|]; [|reflexivity]. cbn.
  destruct (removeFromLinkedList_fields a slm) as (_ & _ & Ec & _). exact Ec.
Qed.

Lemma grown_cursor_first (slm : SLM) :
  grown slm -> (forall cmp, compareFunc slm = Some cmp -> strict_weak cmp) ->
  exists l, cursor_first slm l.
Proof.
  induction 1 as [cmp mf|k v slm _ IH Hget|k slm _ IH|slm _ IH]; intros Hsw.
  - exists []. split; [apply wf_New|]. split; [reflexivity|]. intros c _. constructor.
  - rewrite Put_compareFunc in Hsw. destruct (IH Hsw) as [l Hl].
    apply (cursor_first_Put k v slm l Hsw Hl).
    destruct (entries slm !! k) as [a|] eqn:Hk; [|reflexivity].
    destruct (proj2 (Get_is_Some slm l k (proj1 Hl))) as [? ?]; [eauto|congruence].
  - rewrite Remove_compareFunc in Hsw. destruct (IH Hsw) as [l Hl].
    apply (cursor_first_Remove k slm l Hl).
  - destruct (IH Hsw) as [l (Hwf & _)]. exists [].
    split; [exact (wf_Reset slm l Hwf)|]. split; [reflexivity|]. intros c _. constructor.
Qed.

Lemma find_contents (slm : SLM) (l l0 : list nat) (mf : V -> bool) :
  wf slm l -> matchFunc slm = Some mf -> (forall b, b ∈ l0 -> b ∈ l) ->
  List.find (fun x => mf (snd x)) (contents slm l0)
  = match List.find (flagged (store slm)) l0 with
    | Some p => kv <$> store slm !! p
    | None => None
    end.
Proof.
  intros (Hl & _ & Hm) Emf Hsub. induction l0 as [|b l0 IH]; [reflexivity|].
  destruct (wfl_in_store _ _ b Hl (Hsub b ltac:(left))) as [e Eb].
  rewrite (contents_cons slm l0 b e Eb). cbn [List.find snd kv].
  unfold flagged at 1. rewrite Eb.
  rewrite (wfm_flags _ _ Hm mf b e Emf (Hsub b ltac:(left)) Eb).
  destruct (mf (value e)); [rewrite Eb; reflexivity|].
  apply IH. intros c Hc. apply Hsub. now right.
Qed.

(** X20: as long as no value is updated in place (every [Put] is for a new
    key) and the comparator, if any, is a strict weak order,
    [GetFirstMatched] answers the first entry, in the order of the linked
    entries, whose value matches. *)
Theorem GetFirstMatched_first (slm : SLM) :
  grown slm -> (forall cmp, compareFunc slm = Some cmp -> strict_weak cmp) ->
  GetFirstMatched slm = firstMatchedInOrder slm.
Proof.
  intros Hg Hsw. destruct (grown_cursor_first slm Hg Hsw) as [l (Hwf & Hcur & _)].
  unfold GetFirstMatched, firstMatchedInOrder.
  destruct (matchFunc slm) as [mf|] eqn:Emf.
  - change (getEntryItems slm (fun e => (key e, value e))) with (Items slm).
    rewrite (Items_contents slm l (proj1 Hwf)), (find_contents slm l l mf Hwf Emf) by auto.
    rewrite Hcur. reflexivity.
  - destruct Hwf as (_ & _ & Hm). rewrite (wfm_nomatch _ _ Hm Emf). reflexivity.
Qed.

End SortableLinkedMapInvariant.

(** ** The sortable linked map: the theorems at work on sample maps *)

Section SortableLinkedMapSamples.
Import maps maps_invariant maps_cases maps_more_cases.

Lemma ltb_strict_weak : strict_weak Z.ltb.
Proof.
  split.
  - intros x y Hxy. apply Z.ltb_lt in Hxy. apply Z.ltb_ge. lia.
  - intros x y z Hxy Hyz. apply Z.ltb_ge in Hxy, Hyz. apply Z.ltb_ge. lia.
Defined.

Lemma Put_then_Get_witness :
  reachable sample_map /\ Get "k1" (snd (Put "k1" 1 sample_map)) = Some 1.
Proof.
  split; [apply reachable_New|].
  exact (proj1 (proj2 (Put_then_Get "k1" 1 sample_map (reachable_New _ _)))).
Defined.

Lemma Size_spec_witness :
  reachable sample_sorted_map /\
  (Size sample_sorted_map = length (Keys sample_sorted_map) /\
   Size sample_sorted_map = 2%nat) /\
  (Size (snd (Put "k2" 3 sample_sorted_map)) = 3%nat /\
   Size (snd (Put "k1" 7 sample_sorted_map)) = 2%nat) /\
  (Size (snd (Remove "k1" sample_sorted_map)) = 1%nat /\
   Size (snd (Remove "k2" sample_sorted_map)) = 2%nat).
Proof.
  assert (Hr : reachable sample_sorted_map)
    by (repeat apply reachable_Put; apply reachable_New).
  destruct (Size_spec "k2" 3 sample_sorted_map Hr) as (Hkeys & Hnew & Habsent).
  destruct (Size_spec "k1" 7 sample_sorted_map Hr) as (_ & Hold & Hpresent).
  split; [exact Hr|]. split; [split; [exact Hkeys|reflexivity]|].
  split; [split; [exact Hnew|exact Hold]|]. split; [exact Hpresent|exact Habsent].
Defined.

Lemma Items_index_witness :
  reachable sample_map_updated /\ NoDup (Keys sample_map_updated).
Proof.
  assert (Hr : reachable sample_map_updated)
    by (repeat apply reachable_Put; apply reachable_New).
  split; [exact Hr|]. exact (proj1 (Items_index sample_map_updated Hr)).
Defined.

Lemma Put_existing_order_witness :
  let slm := snd (Put "k2" 2 (snd (Put "k1" 1 sample_map))) in
  reachable slm /\ Get "k1" slm = Some 1 /\
  Items (snd (Put "k1" 4 slm))
  = (fun x => if decide (fst x = "k1"%string) then ("k1"%string, 4) else x) <$> Items slm.
Proof.
  cbv zeta.
  assert (Hr : reachable (snd (Put "k2" 2 (snd (Put "k1" 1 sample_map)))))
    by (repeat apply reachable_Put; apply reachable_New).
  assert (Hg : Get "k1" (snd (Put "k2" 2 (snd (Put "k1" 1 sample_map)))) = Some 1)
    by (vm_compute; reflexivity).
  split; [exact Hr|]. split; [exact Hg|].
  exact (Put_existing_order "k1" 4 1 _ Hr Hg).
Defined.

Lemma Put_fresh_order_witness :
  reachable sample_sorted_map /\ Get "k2" sample_sorted_map = None /\
  Items sample_sorted_map = [("k1"%string, 1); ("k3"%string, 5)] /\
  Items (snd (Put "k2" 3 sample_sorted_map))
  = [("k1"%string, 1); ("k2"%string, 3); ("k3"%string, 5)] /\
  exists xs1 xs2,
    Items sample_sorted_map = xs1 ++ xs2 /\
    Items (snd (Put "k2" 3 sample_sorted_map)) = xs1 ++ ("k2"%string, 3) :: xs2 /\
    match compareFunc sample_sorted_map with
    | None => xs2 = []
    | Some cmp =>
        Forall (fun x => cmp 3 (snd x) = true) xs2 /\
        forall x, last xs1 = Some x -> cmp 3 (snd x) = false
    end.
Proof.
  assert (Hr : reachable sample_sorted_map)
    by (repeat apply reachable_Put; apply reachable_New).
  assert (Hg : Get "k2" sample_sorted_map = None) by (vm_compute; reflexivity).
  split; [exact Hr|]. split; [exact Hg|].
  split; [vm_compute; reflexivity|]. split; [vm_compute; reflexivity|].
  exact (Put_fresh_order "k2" 3 sample_sorted_map Hr Hg).
Defined.

Lemma Remove_order_witness :
  reachable sample_map_updated /\
  Items (snd (Remove "k1" sample_map_updated))
  = filter (fun x => fst x <> "k1"%string) (Items sample_map_updated).
Proof.
  assert (Hr : reachable sample_map_updated)
    by (repeat apply reachable_Put; apply reachable_New).
  split; [exact Hr|]. exact (Remove_order "k1" sample_map_updated Hr).
Defined.

Lemma GetHead_GetTail_witness :
  reachable sample_map_updated /\
  GetHead sample_map_updated = hd_error (Items sample_map_updated) /\
  GetTail sample_map_updated = last (Items sample_map_updated).
Proof.
  assert (Hr : reachable sample_map_updated)
    by (repeat apply reachable_Put; apply reachable_New).
  split; [exact Hr|]. exact (GetHead_GetTail sample_map_updated Hr).
Defined.

Lemma GetFirstMatched_sound_witness :
  reachable sample_map_updated /\
  GetFirstMatched sample_map_updated = Some ("k2"%string, 2) /\
  Get "k2" sample_map_updated = Some 2 /\
  exists mf, matchFunc sample_map_updated = Some mf /\ mf 2 = true.
Proof.
  assert (Hr : reachable sample_map_updated)
    by (repeat apply reachable_Put; apply reachable_New).
  assert (Hg : GetFirstMatched sample_map_updated = Some ("k2"%string, 2))
    by (vm_compute; reflexivity).
  split; [exact Hr|]. split; [exact Hg|].
  exact (GetFirstMatched_sound sample_map_updated "k2" 2 Hr Hg).
Defined.

Lemma GetIterator_visits_all_witness :
  reachable sample_map_updated /\
  iterate (S (Size sample_map_updated)) sample_map_updated (GetIterator sample_map_updated)
  = Items sample_map_updated.
Proof.
  assert (Hr : reachable sample_map_updated)
    by (repeat apply reachable_Put; apply reachable_New).
  split; [exact Hr|]. exact (GetIterator_visits_all sample_map_updated Hr).
Defined.

Lemma GetMatchedIterator_visits_witness :
  reachable sample_map_updated /\ reachable sample_plain_map /\
  (exists xs1 xs2,
     Items sample_map_updated = xs1 ++ xs2 /\
     hd_error xs2 = GetFirstMatched sample_map_updated /\
     iterate (S (Size sample_map_updated)) sample_map_updated
       (GetMatchedIterator sample_map_updated)
     = List.filter (fun x => match matchFunc sample_map_updated with
                             | Some mf => mf (snd x)
                             | None => false
                             end) xs2) /\
  iterate (S (Size sample_map_updated)) sample_map_updated
    (GetMatchedIterator sample_map_updated) = [("k2"%string, 2)] /\
  iterate (S (Size sample_plain_map)) sample_plain_map
    (GetMatchedIterator sample_plain_map) = [].
Proof.
  assert (Hr : reachable sample_map_updated)
    by (repeat apply reachable_Put; apply reachable_New).
  assert (Hp : reachable sample_plain_map)
    by (repeat apply reachable_Put; apply reachable_New).
  split; [exact Hr|]. split; [exact Hp|].
  split; [exact (proj1 (GetMatchedIterator_visits sample_map_updated Hr))|].
  split; [vm_compute; reflexivity|].
  destruct (GetMatchedIterator_visits sample_plain_map Hp) as (_ & Hnil & Hnone).
  exact (Hnil (Hnone eq_refl)).
Defined.

Lemma ordered_preserved_witness :
  reachable sample_sorted_map /\ compareFunc sample_sorted_map = Some Z.ltb /\
  strict_weak Z.ltb /\
  Values sample_sorted_map = [1; 5] /\ ordered Z.ltb (Values sample_sorted_map) /\
  Values (snd (Put "k2" 3 sample_sorted_map)) = [1; 3; 5] /\
  ordered Z.ltb (Values (snd (Put "k2" 3 sample_sorted_map))) /\
  Values (snd (Remove "k1" sample_sorted_map)) = [5] /\
  ordered Z.ltb (Values (snd (Remove "k1" sample_sorted_map))).
Proof.
  assert (Hr : reachable sample_sorted_map)
    by (repeat apply reachable_Put; apply reachable_New).
  assert (Hc : compareFunc sample_sorted_map = Some Z.ltb) by (vm_compute; reflexivity).
  assert (Hv : Values sample_sorted_map = [1; 5]) by (vm_compute; reflexivity).
  assert (Ho : ordered Z.ltb (Values sample_sorted_map)).
  { rewrite Hv. repeat constructor. }
  destruct (ordered_preserved Z.ltb "k2" 3 sample_sorted_map Hr Hc ltb_strict_weak Ho)
    as [Hput _].
  destruct (ordered_preserved Z.ltb "k1" 3 sample_sorted_map Hr Hc ltb_strict_weak Ho)
    as [_ Hrem].
  split; [exact Hr|]. split; [exact Hc|]. split; [exact ltb_strict_weak|].
  split; [exact Hv|]. split; [exact Ho|]. split; [vm_compute; reflexivity|].
  split; [apply Hput; vm_compute; reflexivity|]. split; [vm_compute; reflexivity|].
  exact Hrem.
Defined.

Lemma GetFirstMatched_first_witness :
  let slm := snd (Put "k2" 2 (snd (Put "k1" 1 sample_map))) in
  grown slm /\ (forall cmp, compareFunc slm = Some cmp -> strict_weak cmp) /\
  GetFirstMatched slm = firstMatchedInOrder slm.
Proof.
  cbv zeta.
  assert (Hg : grown (snd (Put "k2" 2 (snd (Put "k1" 1 sample_map))))).
  { apply grown_Put; [apply grown_Put; [apply grown_New|reflexivity]|].
    vm_compute. reflexivity. }
  assert (Hs : forall cmp,
             compareFunc (snd (Put "k2" 2 (snd (Put "k1" 1 sample_map)))) = Some cmp ->
             strict_weak cmp).
  { intros cmp Hc. rewrite !Put_compareFunc in Hc. injection Hc as <-.
    exact ltb_strict_weak. }
  split; [exact Hg|]. split; [exact Hs|].
  exact (GetFirstMatched_first _ Hg Hs).
Defined.

End SortableLinkedMapSamples.

(** ** The node and the partition: further properties *)

Section SchedulerHistoryProperties.
Import scheduler scheduler_cases scheduler_more scheduler_more_cases.

Lemma reserve_reservations (app : option SchedulingApplication)
    (ask : option schedulingAllocationAsk) (sn : schedulingNode) :
  reservations (snd (reserve app ask sn)) = reservations sn \/
  reservations sn = ∅ /\
  exists a k, app = Some a /\ ask = Some k /\
    reservations (snd (reserve app ask sn))
    = {[ ApplicationID a +:+ "|" +:+ AllocationKey k
         := mkReservation None (ApplicationID a) (AllocationKey k) ]}.
Proof.
  unfold reserve. case_bool_decide as Hs; [left; reflexivity|].
  assert (He : reservations sn = ∅).
  { apply map_size_empty_iff. lia. }
  destruct app as [a|], ask as [k|]; cbn; try (left; reflexivity).
  destruct (cache.FitInNode _ _); cbn; [|left; reflexivity].
  right. split; [exact He|]. exists a, k. rewrite He. auto.
Qed.

Lemma unReserve_reservations (app : option SchedulingApplication)
    (ask : option schedulingAllocationAsk) (sn : schedulingNode) :
  reservations (snd (unReserve app ask sn)) = reservations sn \/
  exists key, reservations (snd (unReserve app ask sn)) = delete key (reservations sn).
Proof.
  unfold unReserve. destruct (String.eqb _ ""); [left; reflexivity|].
  destruct (reservations sn !! _); [right; eexists; reflexivity|left; reflexivity].
Qed.

(** X21: a node holds at most one reservation at any time, whatever calls
    of its methods it has seen, and holds it under the key appID|askKey of
    the application and the ask it was made for. *)
Theorem node_single_reservation (sn : schedulingNode) :
  node_reachable sn ->
  (size (reservations sn) <= 1)%nat /\
  forall key r, reservations sn !! key = Some r ->
    key = resAppID r +:+ "|" +:+ resAskKey r /\ resNodeID r = None.
Proof.
  induction 1 as [info|sn _ IH|d sn _ IH|d sn _ IH|d sn _ IH|d sn _ IH
                  |res ph sn _ IH|res ph sn _ IH|app ask sn _ IH|app ask sn _ IH].
  - cbn. rewrite map_size_empty. split; [lia|]. intros key r Hk.
    rewrite lookup_empty in Hk. discriminate.
  - unfold getAvailableResource. destruct (cachedAvailableUpdateNeeded sn); exact IH.
  - exact IH.
  - unfold decAllocatingResource. destruct (resources.SubErrorNegative _ _). exact IH.
  - exact IH.
  - unfold decPreemptingResource. destruct (resources.SubErrorNegative _ _). exact IH.
  - unfold allocateResource. destruct (resources.FitIn _ _); exact IH.
  - unfold preAllocateCheck.
    destruct (negb _); [exact IH|]. destruct (negb _); [exact IH|].
    destruct (negb _); exact IH.
  - destruct (reserve_reservations app ask sn) as [->|(_ & a & k & _ & _ & ->)];
      [exact IH|].
    rewrite map_size_singleton. split; [lia|].
    intros key r [<- <-]%lookup_singleton_Some. split; reflexivity.
  - destruct (unReserve_reservations app ask sn) as [->|[key0 ->]]; [exact IH|].
    destruct IH as [Hsize Hkeys]. split.
    + rewrite map_size_delete. destruct (reservations sn !! key0); cbn; lia.
    + intros key r Hk. apply lookup_delete_Some in Hk as [_ Hk]. exact (Hkeys key r Hk).
Qed.

Lemma node_single_reservation_witness :
  node_reachable sample_reserved_node /\
  (size (reservations sample_reserved_node) <= 1)%nat.
Proof.
  assert (Hr : node_reachable sample_reserved_node).
  { apply reach_reserve, reach_newSchedulingNode. }
  split; [exact Hr|]. exact (proj1 (node_single_reservation _ Hr)).
Defined.

(** *** The nodes offered for scheduling *)

Lemma getSchedulingNodes_acc (excludeReserved : bool)
    (visit : list (string * schedulingNode)) (acc : list schedulingNode) :
  fold_left
    (fun schedulingNodes kn =>
       let node := snd kn in
       if negb (cache.IsSchedulable (nodeInfo node)) || (excludeReserved && isReserved node)
       then schedulingNodes
       else schedulingNodes ++ [node])
    visit acc
  = acc ++ (snd <$> List.filter
      (fun kn => negb (negb (cache.IsSchedulable (nodeInfo (snd kn)))
                       || (excludeReserved && isReserved (snd kn))))
      visit).
Proof.
  revert acc. induction visit as [|kn visit IH]; intros acc.
  - cbn. now rewrite app_nil_r.
  - cbn [fold_left List.filter]. cbv zeta.
    destruct (negb (cache.IsSchedulable (nodeInfo (snd kn)))
              || (excludeReserved && isReserved (snd kn))); cbn [negb].
    + apply IH.
    + rewrite IH, fmap_cons, <- app_assoc. reflexivity.
Qed.

Lemma getSchedulingNodes_filter (excludeReserved : bool)
    (visit : list (string * schedulingNode)) :
  getSchedulingNodes excludeReserved visit
  = snd <$> List.filter
      (fun kn => negb (negb (cache.IsSchedulable (nodeInfo (snd kn)))
                       || (excludeReserved && isReserved (snd kn))))
      visit.
Proof. apply (getSchedulingNodes_acc excludeReserved visit []). Qed.

Lemma reserve_success_isReserved (app : option SchedulingApplication)
    (ask : option schedulingAllocationAsk) (sn : schedulingNode) :
  fst (reserve app ask sn) = (true, None) -> isReserved (snd (reserve app ask sn)) = true.
Proof.
  intros Hok.
  destruct (reserve_reservations app ask sn) as [Heq|(_ & a & k & _ & _ & Heq)].
  - unfold reserve in Hok. case_bool_decide as Hs; [discriminate|].
    unfold isReserved. rewrite Heq. exfalso.
    assert (He : reservations sn = ∅) by (apply map_size_empty_iff; lia).
    unfold reserve in Heq. rewrite bool_decide_eq_false_2 in Heq by exact Hs.
    destruct app as [a|], ask as [k|]; cbn in Hok, Heq; try discriminate.
    destruct (cache.FitInNode _ _); cbn in Hok, Heq; [|discriminate].
    rewrite He in Heq. apply (insert_non_empty _ _ _ Heq).
  - unfold isReserved. rewrite Heq, map_size_singleton. apply bool_decide_eq_true_2. lia.
Qed.

(** X22: whatever the order of the visit, [getSchedulingNodes] returns the
    nodes of the partition that are schedulable and, when reserved nodes
    are to be left out, hold no reservation; so a node on which [reserve]
    has just succeeded is not among the nodes of [getSchedulableNodes]. *)
Theorem getSchedulingNodes_spec (psc : partitionSchedulingContext)
    (visit : list (string * schedulingNode)) (excludeReserved : bool) :
  visit ≡ₚ map_to_list (nodes psc) ->
  (forall sn, sn ∈ getSchedulingNodes excludeReserved visit <->
     exists nodeID, nodes psc !! nodeID = Some sn /\
       cache.IsSchedulable (nodeInfo sn) = true /\
       (excludeReserved = true -> isReserved sn = false)) /\
  (forall sn app ask, fst (reserve app ask sn) = (true, None) ->
     snd (reserve app ask sn) ∉ getSchedulableNodes visit).
Proof.
  intros Hperm.
  assert (Hmem : forall excl sn, sn ∈ getSchedulingNodes excl visit <->
     exists nodeID, nodes psc !! nodeID = Some sn /\
       cache.IsSchedulable (nodeInfo sn) = true /\
       (excl = true -> isReserved sn = false)).
  { intros excl sn. rewrite getSchedulingNodes_filter, list_elem_of_fmap. split.
    - intros ([nodeID sn'] & -> & Hin). apply list_elem_of_In, filter_In in Hin as [Hin Hf].
      apply list_elem_of_In in Hin. rewrite Hperm in Hin. apply elem_of_map_to_list in Hin.
      exists nodeID. split; [exact Hin|]. cbn [snd] in *.
      apply negb_true_iff, orb_false_iff in Hf as [Hs Hr].
      apply negb_false_iff in Hs. split; [exact Hs|]. intros ->. exact Hr.
    - intros (nodeID & Hn & Hs & Hr). exists (nodeID, sn). split; [reflexivity|].
      apply list_elem_of_In, filter_In. split.
      + apply list_elem_of_In. rewrite Hperm. apply elem_of_map_to_list. exact Hn.
      + cbn [snd]. rewrite Hs. cbn. destruct excl; [|reflexivity].
        rewrite (Hr eq_refl). reflexivity. }
  split; [apply Hmem|].
  intros sn app ask Hok Hin. apply Hmem in Hin as (_ & _ & _ & Hr).
  rewrite (reserve_success_isReserved app ask sn Hok) in Hr. discriminate (Hr eq_refl).
Qed.

Lemma getSchedulingNodes_spec_witness :
  map_to_list (nodes sample_partition) ≡ₚ map_to_list (nodes sample_partition) /\
  forall sn app ask, fst (reserve app ask sn) = (true, None) ->
    snd (reserve app ask sn) ∉ getSchedulableNodes (map_to_list (nodes sample_partition)).
Proof.
  split; [reflexivity|].
  exact (proj2 (getSchedulingNodes_spec sample_partition _ true (reflexivity _))).
Defined.

(** *** The reservation counters of the partition *)

Lemma wrapInt_small (z : Z) : - 2 ^ 63 <= z < 2 ^ 63 -> wrapInt z = z.
Proof.
  intros Hz. unfold wrapInt. rewrite Z.mod_small by lia. lia.
Qed.

(** X23: [unReserveCount] changes nothing of the partition but the counter
    of the application named, whatever its arguments, and leaves the
    partition as it is when that application has no counter; when the
    counters are positive and the number of asks is positive and not above
    the counter, it lowers the counter by that number, deletes it when it
    reaches zero, and the counters are positive afterwards. *)
Theorem unReserveCount_spec (appID : string) (asks : Z) (psc : partitionSchedulingContext) :
  let psc' := unReserveCount appID asks psc in
  (forall a, a <> appID -> reservedApps psc' !! a = reservedApps psc !! a) /\
  (RmID psc' = RmID psc /\ Name psc' = Name psc /\
   applications psc' = applications psc /\ nodes psc' = nodes psc) /\
  (reservedApps psc !! appID = None -> psc' = psc) /\
  ((forall a n, reservedApps psc !! a = Some n -> 0 < n < 2 ^ 63) ->
   0 < asks ->
   (forall n, reservedApps psc !! appID = Some n -> asks <= n) ->
   reservedApps psc' !! appID
   = (reservedApps psc !! appID ≫= fun n => if n =? asks then None else Some (n - asks)) /\
   (forall a n, reservedApps psc' !! a = Some n -> 0 < n < 2 ^ 63)).
Proof.
  cbv zeta. unfold unReserveCount.
  destruct (reservedApps psc !! appID) as [num|] eqn:Hnum; cbn [mbind option_bind].
  - destruct (num =? asks) eqn:Heq; cbn [reservedApps set_reservedApps].
    + split; [intros a Ha; apply lookup_delete_ne; congruence|].
      split; [repeat split|]. split; [discriminate|].
      intros Hpos _ _. split; [apply lookup_delete_eq|].
      intros a n Hl. apply lookup_delete_Some in Hl as [_ Hl]. exact (Hpos a n Hl).
    + split; [intros a Ha; apply lookup_insert_ne; congruence|].
      split; [repeat split|]. split; [discriminate|].
      intros Hpos Hasks Hle. specialize (Hle num eq_refl).
      pose proof (Hpos appID num Hnum) as Hn.
      apply Z.eqb_neq in Heq. rewrite wrapInt_small by lia.
      split; [apply lookup_insert_eq|].
      intros a n Hl. apply lookup_insert_Some in Hl as [[_ <-]|[_ Hl]]; [lia|].
      exact (Hpos a n Hl).
  - split; [reflexivity|]. split; [repeat split|]. split; [reflexivity|].
    intros Hpos _ _. split; [exact Hnum|exact Hpos].
Qed.

Lemma unReserveCount_spec_witness :
  (forall a n, reservedApps sample_counted_partition !! a = Some n -> 0 < n < 2 ^ 63) /\
  reservedApps (unReserveCount "app-1" 1 sample_counted_partition) !! "app-1" = Some 1 /\
  reservedApps (unReserveCount "app-1" 2 sample_counted_partition) !! "app-1" = None /\
  unReserveCount "app-9" 1 sample_counted_partition = sample_counted_partition /\
  nodes (unReserveCount "app-1" 1 sample_counted_partition) = nodes sample_counted_partition.
Proof.
  assert (Hpos : forall a n,
             reservedApps sample_counted_partition !! a = Some n -> 0 < n < 2 ^ 63).
  { intros a n Hl. unfold sample_counted_partition, set_reservedApps in Hl.
    cbn [reservedApps] in Hl. apply lookup_singleton_Some in Hl as [_ <-]. lia. }
  assert (Hle : forall m n, 0 < m <= 2 ->
             reservedApps sample_counted_partition !! "app-1" = Some n -> m <= n).
  { intros m n Hm Hl. unfold sample_counted_partition, set_reservedApps in Hl.
    cbn [reservedApps] in Hl. apply lookup_singleton_Some in Hl as [_ <-]. lia. }
  destruct (unReserveCount_spec "app-1" 1 sample_counted_partition)
    as (_ & (_ & _ & _ & Hnodes) & _ & Hone).
  destruct (unReserveCount_spec "app-1" 2 sample_counted_partition) as (_ & _ & _ & Htwo).
  destruct (unReserveCount_spec "app-9" 1 sample_counted_partition) as (_ & _ & Hnine & _).
  split; [exact Hpos|].
  split; [exact (proj1 (Hone Hpos ltac:(lia) (fun n => Hle 1 n ltac:(lia))))|].
  split; [exact (proj1 (Htwo Hpos ltac:(lia) (fun n => Hle 2 n ltac:(lia))))|].
  split; [apply Hnine; reflexivity|exact Hnodes].
Defined.

End SchedulerHistoryProperties.

(** ** The search for an existing queue, and partition names taken apart *)

Section QueueSearchProperties.
Import scheduler scheduler_more common.

Lemma findExistingQueue_loop_stuck {Q : Type} (getQueue : string -> option Q)
    (name cacheQueue : string) (fuel : nat) :
  0 <= LastIndex name "." ->
  getQueue (slice name 0 (LastIndex name ".")) = None ->
  findExistingQueue_loop getQueue name fuel (slice name 0 (LastIndex name ".")) cacheQueue
  = StillSearching.
Proof.
  intros Hi Hnone. revert cacheQueue. induction fuel as [|fuel IH]; intros cacheQueue.
  - cbn. rewrite Hnone. reflexivity.
  - cbn [findExistingQueue_loop]. rewrite Hnone.
    destruct (LastIndex name "." <? 0) eqn:Hlt; [apply Z.ltb_lt in Hlt; lia|].
    apply IH.
Qed.

(** X24: the search of [createSchedulingQueue] for an existing queue ends
    at once when the queue itself exists, and after one round when its
    direct parent exists; when neither exists it never ends, as every
    round looks up the direct parent of the name again; a name without a
    dot that is no queue makes the slice expression panic. *)
Theorem findExistingQueue_spec {Q : Type} (getQueue : string -> option Q) (name : string) :
  let parentName := slice name 0 (LastIndex name ".") in
  (forall parent fuel, getQueue name = Some parent ->
     findExistingQueue getQueue name fuel = Found parent name "") /\
  (forall fuel, getQueue name = None -> LastIndex name "." < 0 ->
     findExistingQueue getQueue name (S fuel) = SlicePanic) /\
  (forall parent fuel, getQueue name = None -> 0 <= LastIndex name "." ->
     getQueue parentName = Some parent ->
     findExistingQueue getQueue name (S fuel) = Found parent parentName name) /\
  (forall fuel, getQueue name = None -> 0 <= LastIndex name "." ->
     getQueue parentName = None ->
     findExistingQueue getQueue name fuel = StillSearching).
Proof.
  cbv zeta. unfold findExistingQueue. repeat split.
  - intros parent fuel Hq. destruct fuel; cbn; rewrite Hq; reflexivity.
  - intros fuel Hq Hi. cbn [findExistingQueue_loop]. rewrite Hq.
    apply Z.ltb_lt in Hi. rewrite Hi. reflexivity.
  - intros parent fuel Hq Hi Hp. cbn [findExistingQueue_loop]. rewrite Hq.
    destruct (LastIndex name "." <? 0) eqn:Hlt; [apply Z.ltb_lt in Hlt; lia|].
    destruct fuel; cbn; rewrite Hp; reflexivity.
  - intros fuel Hq Hi Hp. destruct fuel as [|fuel]; cbn [findExistingQueue_loop]; rewrite Hq;
      [reflexivity|].
    destruct (LastIndex name "." <? 0) eqn:Hlt; [apply Z.ltb_lt in Hlt; lia|].
    apply findExistingQueue_loop_stuck; assumption.
Qed.

(** A partition with the root queue only: the queue root.a.b, whose parent
    root.a does not exist, is searched for without end. *)
Example findExistingQueue_never_ends (fuel : nat) :
  findExistingQueue (fun n => if String.eqb n "root" then Some tt else None)
    "root.a.b" fuel = StillSearching.
Proof.
  unfold findExistingQueue. destruct fuel as [|fuel]; [reflexivity|].
  change (findExistingQueue_loop (fun n => if String.eqb n "root" then Some tt else None)
            "root.a.b" fuel (slice "root.a.b" 0 (LastIndex "root.a.b" ".")) "root.a.b"
          = StillSearching).
  apply findExistingQueue_loop_stuck; [vm_compute; discriminate|reflexivity].
Qed.

End QueueSearchProperties.

Section PartitionNameSplit.
Import common.

Lemma index_nat_split (s : string) (n : nat) :
  index_nat s "]" = Some n ->
  exists a b, s = a +:+ String "]" b /\ String.length a = n /\ index_nat a "]" = None.
Proof.
  revert n. induction s as [|c s IH]; intros n.
  - cbn. discriminate.
  - rewrite index_nat_cons. destruct (ascii_dec "]" c) as [<-|Hc].
    + intros [= <-]. exists ""%string, s. repeat split.
    + destruct (index_nat s "]") as [m|] eqn:Em; [|discriminate].
      cbn. intros [= <-]. destruct (IH m eq_refl) as (a & b & -> & Hlen & Hnone).
      exists (String c a), b. repeat split.
      * cbn. now rewrite Hlen.
      * rewrite index_nat_cons, Hnone. destruct (ascii_dec "]" c); [contradiction|reflexivity].
Qed.

(** X25: a partition name whose first closing bracket is not its first
    byte is split without loss: its first byte, the RM ID, the bracket and
    the name without cluster ID make up the name again; the RM ID holds no
    closing bracket.  The first byte is dropped whatever it is. *)
Theorem partition_name_split (name : string) :
  0 < Index name "]" ->
  name = slice name 0 1 +:+ GetRMIdFromPartitionName name +:+ "]"
           +:+ GetPartitionNameWithoutClusterID name /\
  Contains (GetRMIdFromPartitionName name) "]" = false.
Proof.
  intros Hidx. unfold GetRMIdFromPartitionName, GetPartitionNameWithoutClusterID.
  apply Z.ltb_lt in Hidx as Hlt. rewrite Hlt. unfold Index in *.
  destruct (index_nat name "]") as [n|] eqn:En; [|lia].
  destruct (index_nat_split name n En) as (a & b & -> & Hlen & Hnone).
  destruct a as [|c a]; [cbn in Hlen; lia|]. cbn in Hlen.
  assert (Ha : index_nat a "]" = None).
  { rewrite index_nat_cons in Hnone. destruct (ascii_dec "]" c); [discriminate|].
    destruct (index_nat a "]"); [discriminate|reflexivity]. }
  assert (E1 : slice (String c a +:+ String "]" b) 0 1 = String c "").
  { unfold slice. change (String c a +:+ String "]" b) with (String c (a +:+ String "]" b)).
    change (Z.to_nat 0) with 0%nat. change (Z.to_nat (1 - 0)) with 1%nat.
    cbn [String.substring]. destruct (a +:+ String "]" b); reflexivity. }
  assert (E2 : slice (String c a +:+ String "]" b) 1 (Z.of_nat n) = a).
  { unfold slice. replace (Z.to_nat 1) with 1%nat by reflexivity.
    replace (Z.to_nat (Z.of_nat n - 1)) with (String.length a) by lia.
    change (String c a +:+ String "]" b) with (String c (a +:+ String "]" b)).
    cbn [String.substring]. apply substring_app_l. }
  assert (E3 : slice_from (String c a +:+ String "]" b) (Z.of_nat n + 1) = b).
  { unfold slice_from, slice.
    change (String c a +:+ String "]" b) with (String c (a +:+ String "]" b)).
    replace (a +:+ String "]" b) with ((a +:+ "]") +:+ b)
      by (rewrite string_append_assoc; reflexivity).
    cbn [String.length]. rewrite string_length_app, string_length_app. cbn [String.length].
    replace (Z.to_nat (Z.of_nat n + 1)) with (S (String.length (a +:+ "]")))
      by (rewrite string_length_app; cbn; lia).
    replace (Z.to_nat _) with (String.length b) by lia.
    cbn [String.substring]. rewrite substring_app_r. apply substring_all. }
  rewrite E1, E2, E3. split; [reflexivity|].
  unfold Contains, Index. rewrite Ha. reflexivity.
Qed.

Lemma partition_name_split_witness :
  0 < Index "[rm-1]default" "]" /\
  "[rm-1]default"%string
  = slice "[rm-1]default" 0 1 +:+ GetRMIdFromPartitionName "[rm-1]default" +:+ "]"
      +:+ GetPartitionNameWithoutClusterID "[rm-1]default".
Proof.
  assert (Hi : 0 < Index "[rm-1]default" "]") by (vm_compute; reflexivity).
  split; [exact Hi|]. exact (proj1 (partition_name_split "[rm-1]default" Hi)).
Defined.

End PartitionNameSplit.

(** ** The sort of the requests *)

Section SortProperties.
Import defaults_more maps_invariant.

Lemma insertStable_Permutation {A : Type} (less : A -> A -> bool) (x : A) (l : list A) :
  insertStable less x l ≡ₚ x :: l.
Proof.
  induction l as [|y l IH]; cbn; [reflexivity|].
  destruct (less x y); [reflexivity|]. rewrite IH. apply Permutation_swap.
Qed.

Lemma insertStable_sorted {A : Type} (less : A -> A -> bool) (x : A) (l : list A) :
  strict_weak less ->
  StronglySorted (fun a b => less b a = false) l ->
  StronglySorted (fun a b => less b a = false) (insertStable less x l).
Proof.
  intros [Hasym Htrans]. induction l as [|y l IH]; intros Hs; cbn.
  - constructor; constructor.
  - apply StronglySorted_inv in Hs as [Hs Hy]. destruct (less x y) eqn:Hxy.
    + constructor; [constructor; assumption|].
      constructor; [apply Hasym; exact Hxy|].
      apply Forall_forall. intros z Hz. pose proof (proj1 (Forall_forall _ _) Hy z Hz) as Hzy.
      cbn in Hzy. destruct (less z x) eqn:Hzx; [|reflexivity].
      (* z < x and x < y, while z is not before y *)
      exfalso. assert (Hyx : less y x = false) by (apply Hasym; exact Hxy).
      pose proof (Htrans z y x Hzy Hyx). congruence.
    + constructor; [apply IH; exact Hs|].
      apply Forall_forall. intros z Hz.
      rewrite insertStable_Permutation in Hz. apply elem_of_cons in Hz as [->|Hz].
      * exact Hxy.
      * exact (proj1 (Forall_forall _ _) Hy z Hz).
Qed.

Lemma SliceStable_acc {A : Type} (less : A -> A -> bool) (l acc : list A) :
  strict_weak less ->
  StronglySorted (fun a b => less b a = false) acc ->
  fold_left (fun sorted x => insertStable less x sorted) l acc ≡ₚ acc ++ l /\
  StronglySorted (fun a b => less b a = false)
    (fold_left (fun sorted x => insertStable less x sorted) l acc).
Proof.
  intros Hsw. revert acc. induction l as [|x l IH]; intros acc Hs; cbn.
  - rewrite app_nil_r. auto.
  - destruct (IH (insertStable less x acc) (insertStable_sorted less x acc Hsw Hs))
      as [Hp Hs'].
    split; [|exact Hs']. rewrite Hp, insertStable_Permutation.
    cbn. apply Permutation_middle.
Qed.

Lemma StronglySorted_weaken {A : Type} (R R' : A -> A -> Prop) (l : list A) :
  (forall a b, R a b -> R' a b) -> StronglySorted R l -> StronglySorted R' l.
Proof.
  intros Himp. induction 1 as [|x l Hs IH Hx]; constructor; [exact IH|].
  apply Forall_forall. intros y Hy. apply Himp. exact (proj1 (Forall_forall _ _) Hx y Hy).
Qed.

Lemma askLess_strict_weak (ascending : bool) : strict_weak (askLess ascending).
Proof.
  unfold strict_weak, askLess, Before. split.
  - intros x y. destruct ascending;
      repeat match goal with
             | |- context [?a =? ?b] => destruct (Z.eqb_spec a b)
             | |- context [?a <? ?b] => destruct (Z.ltb_spec a b)
             end; intros; try reflexivity; try discriminate; lia.
  - intros x y z. destruct ascending;
      repeat match goal with
             | |- context [?a =? ?b] => destruct (Z.eqb_spec a b)
             | |- context [?a <? ?b] => destruct (Z.ltb_spec a b)
             end; intros; try reflexivity; try discriminate; lia.
Qed.

(** Two requests the sort cannot tell apart. *)
Lemma askLess_same_key (ascending : bool) (x y : Request) :
  GetPriority x = GetPriority y -> GetCreateTime x = GetCreateTime y ->
  askLess ascending x y = false.
Proof.
  intros Hp Ht. unfold askLess, Before. rewrite Hp, Ht, Z.eqb_refl. apply Z.ltb_irrefl.
Qed.

Lemma insertStable_split {A : Type} (less : A -> A -> bool) (x : A) (l : list A) :
  strict_weak less ->
  StronglySorted (fun a b => less b a = false) l ->
  exists l1 l2, l = l1 ++ l2 /\ insertStable less x l = l1 ++ x :: l2 /\
    Forall (fun z => less x z = true) l2.
Proof.
  intros [Hasym Htrans]. induction l as [|y l IH]; intros Hs; cbn.
  - exists [], []. repeat split. constructor.
  - apply StronglySorted_inv in Hs as [Hs Hy]. destruct (less x y) eqn:Hxy.
    + exists [], (y :: l). repeat split. constructor; [exact Hxy|].
      apply Forall_forall. intros z Hz. pose proof (proj1 (Forall_forall _ _) Hy z Hz) as Hzy.
      cbn in Hzy. destruct (less x z) eqn:Hxz; [reflexivity|].
      pose proof (Htrans x z y Hxz Hzy). congruence.
    + destruct (IH Hs) as (l1 & l2 & -> & -> & Hall).
      exists (y :: l1), l2. repeat split. exact Hall.
Qed.

Lemma filter_insertStable (ascending : bool) (p t : Z) (x : Request) (l : list Request) :
  StronglySorted (fun a b => askLess ascending b a = false) l ->
  List.filter (fun r => (GetPriority r =? p) && (GetCreateTime r =? t))
    (insertStable (askLess ascending) x l)
  = List.filter (fun r => (GetPriority r =? p) && (GetCreateTime r =? t)) (l ++ [x]).
Proof.
  intros Hs.
  destruct (insertStable_split (askLess ascending) x l (askLess_strict_weak ascending) Hs)
    as (l1 & l2 & -> & -> & Hall).
  rewrite !List.filter_app. cbn [List.filter].
  destruct ((GetPriority x =? p) && (GetCreateTime x =? t)) eqn:Hx;
    [|now rewrite app_nil_r].
  apply andb_true_iff in Hx as [Hp Ht]. apply Z.eqb_eq in Hp, Ht.
  assert (Hnone : List.filter (fun r => (GetPriority r =? p) && (GetCreateTime r =? t)) l2
                  = []).
  { clear Hs. induction l2 as [|z l2 IH]; [reflexivity|].
    apply Forall_cons in Hall as [Hz Hall]. cbn.
    destruct ((GetPriority z =? p) && (GetCreateTime z =? t)) eqn:Ez; [|exact (IH Hall)].
    apply andb_true_iff in Ez as [Hp' Ht']. apply Z.eqb_eq in Hp', Ht'.
    rewrite (askLess_same_key ascending x z) in Hz by congruence. discriminate. }
  rewrite Hnone, app_nil_r. reflexivity.
Qed.

Lemma filter_SliceStable_acc (ascending : bool) (p t : Z) (l acc : list Request) :
  StronglySorted (fun a b => askLess ascending b a = false) acc ->
  List.filter (fun r => (GetPriority r =? p) && (GetCreateTime r =? t))
    (fold_left (fun sorted x => insertStable (askLess ascending) x sorted) l acc)
  = List.filter (fun r => (GetPriority r =? p) && (GetCreateTime r =? t)) (acc ++ l).
Proof.
  revert acc. induction l as [|x l IH]; intros acc Hs; cbn [fold_left].
  - now rewrite app_nil_r.
  - rewrite IH by (apply insertStable_sorted; [apply askLess_strict_weak|exact Hs]).
    rewrite List.filter_app, filter_insertStable by exact Hs.
    rewrite <- List.filter_app, <- app_assoc. reflexivity.
Qed.

(** X26: [SortAskByPriority] keeps the requests and puts them in order of
    priority, ascending or descending as asked; requests of the same
    priority are in order of create time, the earlier first, in both
    directions; requests of the same priority and create time keep the
    order they had. *)
Theorem SortAskByPriority_sorted (requests : list Request) (ascending : bool) :
  SortAskByPriority requests ascending ≡ₚ requests /\
  StronglySorted
    (fun l r =>
       (if ascending then GetPriority l <= GetPriority r
        else GetPriority r <= GetPriority l) /\
       (GetPriority l = GetPriority r -> GetCreateTime l <= GetCreateTime r))
    (SortAskByPriority requests ascending) /\
  forall p t,
    List.filter (fun r => (GetPriority r =? p) && (GetCreateTime r =? t))
      (SortAskByPriority requests ascending)
    = List.filter (fun r => (GetPriority r =? p) && (GetCreateTime r =? t)) requests.
Proof.
  unfold SortAskByPriority, SliceStable.
  destruct (SliceStable_acc (askLess ascending) requests [] (askLess_strict_weak ascending))
    as [Hp Hs]; [constructor|].
  split; [exact Hp|]. split.
  - eapply StronglySorted_weaken; [|exact Hs].
    intros l r. unfold askLess, Before. destruct ascending;
      repeat match goal with
             | |- context [?a =? ?b] => destruct (Z.eqb_spec a b)
             | |- context [?a <? ?b] => destruct (Z.ltb_spec a b)
             end; intros; try discriminate; split; lia.
  - intros p t. apply (filter_SliceStable_acc ascending p t requests []). constructor.
Qed.

End SortProperties.

(** ** The checksum as a means to tell configurations apart *)

Section ChecksumUse.
Import configs configs_cases.

(** X27: the checksum still tells configurations apart: two inputs that are
    accepted have the same checksum only when they are the same bytes. *)
Theorem Checksum_injective {PartitionConfig : Type}
    (Unmarshal : list byte -> SchedulerConfig PartitionConfig
                 -> option (SchedulerConfig PartitionConfig))
    (Validate : SchedulerConfig PartitionConfig -> option (SchedulerConfig PartitionConfig))
    (content content' : list byte) (conf conf' : SchedulerConfig PartitionConfig) :
  LoadSchedulerConfigFromByteArray Unmarshal Validate content = inl conf ->
  LoadSchedulerConfigFromByteArray Unmarshal Validate content' = inl conf' ->
  Checksum conf = Checksum conf' -> content = content'.
Proof.
  unfold LoadSchedulerConfigFromByteArray. intros H1 H2 Heq.
  destruct (Unmarshal content _) as [c1|]; [|discriminate H1].
  destruct (Validate c1) as [d1|]; [|discriminate H1].
  destruct (Unmarshal content' _) as [c2|]; [|discriminate H2].
  destruct (Validate c2) as [d2|]; [|discriminate H2].
  injection H1 as <-. injection H2 as <-. cbn in Heq.
  unfold sha256.Sum, sha256.New in Heq. cbn in Heq.
  exact (app_inv_tail _ _ _ Heq).
Qed.

Lemma Checksum_injective_witness :
  LoadSchedulerConfigFromByteArray sample_Unmarshal sample_Validate sample_content
    = inl (mkSchedulerConfig ["default"%string] (sample_content ++ sha256.Sum256 [])) /\
  sample_content = sample_content.
Proof.
  assert (Hl : LoadSchedulerConfigFromByteArray sample_Unmarshal sample_Validate
                 sample_content
               = inl (mkSchedulerConfig ["default"%string]
                        (sample_content ++ sha256.Sum256 [])))
    by reflexivity.
  split; [exact Hl|].
  exact (Checksum_injective sample_Unmarshal sample_Validate sample_content sample_content
           _ _ Hl Hl eq_refl).
Defined.

End ChecksumUse.
